(** * Evaluation session manager of chess-tutor

    A shallow embedding of the Stockfish evaluation layer:

    - [Protocol]: the UCI line parsing done inside [handleStockfishMessage]
      (the three regular expressions, [startsWith], [includes], [parseInt]);
    - [JsMap]: the insertion-ordered [Map] of JavaScript, as far as the
      engine class uses it;
    - [Engine]: the [ChessEngine] class with search-id correlation
      (the module that keeps [searchIdToEvalId]);
    - [Legacy]: the [ChessEngine] class of [src/lib/chessEngine.ts]
      (one shared [currentEvaluation], no correlation);
    - [StockfishWorker]: the worker script [public/stockfish.js];
    - [System]: engine and worker joined by their two message channels.

    Promises are identified by the order of their creation, timers by the
    promise whose [getEvaluation] call armed them, and time is a counter of
    milliseconds. *)

From Stdlib Require Import List Bool Arith NArith ZArith Lia String Ascii.
From Stdlib Require Import DecimalString Sorted.
Import ListNotations.
Local Open Scope string_scope.
Local Open Scope list_scope.
Local Open Scope nat_scope.

(** ** Results and errors *)

Record EvaluationResult := mkResult {
  score : Z;                 (* in centipawns *)
  bestMove : option string   (* UCI format, [None] is [null] *)
}.

(** The [Error] objects the engine rejects with, by their message. *)
Inductive EvalError :=
| NotInitialized        (* 'Chess engine not initialized. Call initialize() first.' *)
| CancelledByNewRequest (* 'Evaluation cancelled by new request' *)
| EvaluationTimeout     (* 'Evaluation timeout' *)
| EvaluationStopped     (* 'Evaluation stopped' *)
| WorkerTerminated      (* 'Worker terminated' *)
| EvaluationIncomplete. (* 'Evaluation incomplete' *)

Definition errorMessage (e : EvalError) : string :=
  match e with
  | NotInitialized => "Chess engine not initialized. Call initialize() first."
  | CancelledByNewRequest => "Evaluation cancelled by new request"
  | EvaluationTimeout => "Evaluation timeout"
  | EvaluationStopped => "Evaluation stopped"
  | WorkerTerminated => "Worker terminated"
  | EvaluationIncomplete => "Evaluation incomplete"
  end.

(** How the promise returned by [getEvaluation] was settled. *)
Inductive Outcome :=
| Resolved (r : EvaluationResult)
| Rejected (e : EvalError).

(** ** UCI line parsing *)

Module Protocol.

Definition charIn (lo hi c : ascii) : bool :=
  (nat_of_ascii lo <=? nat_of_ascii c) && (nat_of_ascii c <=? nat_of_ascii hi).

Definition isDigit (c : ascii) : bool := charIn "0" "9" c.   (* \d *)
Definition isFile (c : ascii) : bool := charIn "a" "h" c.    (* [a-h] *)
Definition isRank (c : ascii) : bool := charIn "1" "8" c.    (* [1-8] *)
Definition isPromo (c : ascii) : bool :=                     (* [qrbn] *)
  (c =? "q")%char || (c =? "r")%char || (c =? "b")%char || (c =? "n")%char.

(** [message.startsWith(p)] *)
Definition startsWith (p message : string) : bool := String.prefix p message.

(** [message.includes(p)] *)
Fixpoint includes (p message : string) : bool :=
  String.prefix p message ||
  match message with
  | EmptyString => false
  | String _ rest => includes p rest
  end.

(** The rest of [s] behind the literal [p], when [s] starts with [p]. *)
Fixpoint after (p s : string) : option string :=
  match p, s with
  | EmptyString, _ => Some s
  | String a p', String b s' => if (a =? b)%char then after p' s' else None
  | String _ _, EmptyString => None
  end.

(** [String.prototype.match] with a regular expression that has no [g]
    flag: the match that starts leftmost.  [at_] tries the expression at
    the start of its argument. *)
Fixpoint search {A} (at_ : string -> option A) (s : string) : option A :=
  match at_ s with
  | Some r => Some r
  | None =>
      match s with
      | EmptyString => None
      | String _ rest => search at_ rest
      end
  end.

(** [[a-h][1-8][a-h][1-8][qrbn]?], the capture group of the two move
    expressions. *)
Definition moveAt (s : string) : option string :=
  match s with
  | String f1 (String r1 (String f2 (String r2 rest))) =>
      if isFile f1 && isRank r1 && isFile f2 && isRank r2 then
        let promo :=
          match rest with
          | String p _ => if isPromo p then String p EmptyString else EmptyString
          | EmptyString => EmptyString
          end in
        Some (String f1 (String r1 (String f2 (String r2 promo))))
      else None
  | _ => None
  end.

(** [message.match(/pv ([a-h][1-8][a-h][1-8][qrbn]?)/)], group 1. *)
Definition pvMatch (message : string) : option string :=
  search (fun s => match after "pv " s with
                   | Some r => moveAt r
                   | None => None
                   end) message.

(** [message.match(/bestmove ([a-h][1-8][a-h][1-8][qrbn]?)/)], group 1. *)
Definition bestMoveMatch (message : string) : option string :=
  search (fun s => match after "bestmove " s with
                   | Some r => moveAt r
                   | None => None
                   end) message.

(** The greedy [\d*] at the start of a string. *)
Fixpoint digits (s : string) : string :=
  match s with
  | String c rest => if isDigit c then String c (digits rest) else EmptyString
  | EmptyString => EmptyString
  end.

(** [(-?\d+)] *)
Definition nonEmpty (ds : string) : option string :=
  match ds with
  | EmptyString => None
  | _ => Some ds
  end.

Definition numberAt (s : string) : option string :=
  match s with
  | String c rest =>
      if (c =? "-")%char
      then option_map (String c) (nonEmpty (digits rest))
      else nonEmpty (digits s)
  | EmptyString => None
  end.

Inductive ScoreKind := cp | mate.   (* the group (cp|mate) *)

Definition scoreAt (s : string) : option (ScoreKind * string) :=
  match after "score " s with
  | None => None
  | Some r =>
      match after "cp " r with
      | Some n => option_map (pair cp) (numberAt n)
      | None =>
          match after "mate " r with
          | Some n => option_map (pair mate) (numberAt n)
          | None => None
          end
      end
  end.

(** [message.match(/score (cp|mate) (-?\d+)/)], groups 1 and 2. *)
Definition scoreMatch (message : string) : option (ScoreKind * string) :=
  search scoreAt message.

Definition digitValue (c : ascii) : Z := (Z.of_nat (nat_of_ascii c) - 48)%Z.

Fixpoint decimal (acc : Z) (s : string) : Z :=
  match s with
  | String c rest =>
      if isDigit c then decimal (10 * acc + digitValue c)%Z rest else acc
  | EmptyString => acc
  end.

(** [parseInt(text, 10)] on a capture of [(-?\d+)]: the exact integer (a
    JavaScript number holds it exactly up to 2^53; [-0] is [0] here). *)
Definition parseInt (text : string) : Z :=
  match text with
  | String c rest =>
      if (c =? "-")%char then (- decimal 0 rest)%Z else decimal 0 text
  | EmptyString => 0%Z
  end.

(** The score an [info] line reports: the centipawns, or the sentinel of
    a forced mate. *)
Definition scoreOf (m : ScoreKind * string) : Z :=
  match fst m with
  | cp => parseInt (snd m)
  | mate => let mateIn := parseInt (snd m) in
            if (0 <? mateIn)%Z then 10000%Z else (-10000)%Z
  end.

End Protocol.

Import Protocol.

(** ** The insertion-ordered [Map] of JavaScript

    Entries are kept in insertion order, which is the order [entries()],
    [values()] and [forEach] visit them in; [set] on a key that is present
    replaces the value in place. *)

Module JsMap.

Definition t (V : Type) := list (nat * V).

Section Ops.
Context {V : Type}.

Fixpoint get (k : nat) (m : t V) : option V :=
  match m with
  | [] => None
  | (k', v) :: rest => if k =? k' then Some v else get k rest
  end.

Definition has (k : nat) (m : t V) : bool :=
  match get k m with Some _ => true | None => false end.

Fixpoint set (k : nat) (v : V) (m : t V) : t V :=
  match m with
  | [] => [(k, v)]
  | (k', v') :: rest =>
      if k =? k' then (k, v) :: rest else (k', v') :: set k v rest
  end.

Definition delete (k : nat) (m : t V) : t V :=
  filter (fun e => negb (k =? fst e)) m.

Definition keys (m : t V) : list nat := map fst m.
Definition values (m : t V) : list V := map snd m.
Definition size (m : t V) : nat := List.length m.
End Ops.

End JsMap.

(** ** Messages between the main thread and the worker *)

(** [worker.postMessage({ type, position, depth })] *)
Inductive WorkerRequest :=
| Init
| Evaluate (position : string) (depth : nat)
| Stop.

(** [event.data] of a message from the worker: [{ type, data, searchId }].
    A message without a [searchId] field has [None]. *)
Inductive WorkerEvent :=
| Ready
| Message (data : string) (searchId : option nat)
| Error (data : string).

(** ** The engine with search-id correlation *)

Module Engine.

(** [wrappedResolve] and [wrappedReject] of one [getEvaluation] call: the
    two closures share the captured [evalId], the timer handle and the
    promise, so one record stands for both. *)
Record Resolvers := mkResolvers {
  cl_evalId : nat;
  cl_promise : nat
}.

(** A value of [pendingEvaluations]: [{ resolve, reject, evaluation }]. *)
Record Pending := mkPending {
  resolvers : Resolvers;
  evaluation : option EvaluationResult
}.

(** A timer armed by [setTimeout]; its callback is [wrappedReject] with
    the timeout error. *)
Record Timer := mkTimer {
  t_callback : Resolvers;
  t_deadline : N
}.

Record State := mkState {
  (* the fields of ChessEngine *)
  worker : bool;                           (* this.worker !== null *)
  isReady : bool;
  pendingEvaluations : JsMap.t Pending;
  evaluationId : nat;
  searchIdToEvalId : JsMap.t nat;
  (* the run time around it *)
  promises : nat;                          (* promises created so far *)
  settled : list (nat * Outcome);          (* how each settled promise ended *)
  timers : list Timer;                     (* armed timers *)
  clock : N;                               (* milliseconds *)
  outbox : list WorkerRequest              (* posted to the worker, oldest first *)
}.

Definition initial : State :=
  mkState false false [] 0 [] 0 [] [] 0%N [].

Definition setWorker (b : bool) (s : State) : State :=
  mkState b (isReady s) (pendingEvaluations s) (evaluationId s)
          (searchIdToEvalId s) (promises s) (settled s) (timers s) (clock s)
          (outbox s).
Definition setReady (b : bool) (s : State) : State :=
  mkState (worker s) b (pendingEvaluations s) (evaluationId s)
          (searchIdToEvalId s) (promises s) (settled s) (timers s) (clock s)
          (outbox s).
Definition setPending (m : JsMap.t Pending) (s : State) : State :=
  mkState (worker s) (isReady s) m (evaluationId s)
          (searchIdToEvalId s) (promises s) (settled s) (timers s) (clock s)
          (outbox s).
Definition setEvaluationId (n : nat) (s : State) : State :=
  mkState (worker s) (isReady s) (pendingEvaluations s) n
          (searchIdToEvalId s) (promises s) (settled s) (timers s) (clock s)
          (outbox s).
Definition setMapping (m : JsMap.t nat) (s : State) : State :=
  mkState (worker s) (isReady s) (pendingEvaluations s) (evaluationId s)
          m (promises s) (settled s) (timers s) (clock s) (outbox s).
Definition setPromises (n : nat) (s : State) : State :=
  mkState (worker s) (isReady s) (pendingEvaluations s) (evaluationId s)
          (searchIdToEvalId s) n (settled s) (timers s) (clock s) (outbox s).
Definition setSettled (l : list (nat * Outcome)) (s : State) : State :=
  mkState (worker s) (isReady s) (pendingEvaluations s) (evaluationId s)
          (searchIdToEvalId s) (promises s) l (timers s) (clock s) (outbox s).
Definition setTimers (l : list Timer) (s : State) : State :=
  mkState (worker s) (isReady s) (pendingEvaluations s) (evaluationId s)
          (searchIdToEvalId s) (promises s) (settled s) l (clock s) (outbox s).
Definition setClock (n : N) (s : State) : State :=
  mkState (worker s) (isReady s) (pendingEvaluations s) (evaluationId s)
          (searchIdToEvalId s) (promises s) (settled s) (timers s) n (outbox s).
Definition postMessage (m : WorkerRequest) (s : State) : State :=
  mkState (worker s) (isReady s) (pendingEvaluations s) (evaluationId s)
          (searchIdToEvalId s) (promises s) (settled s) (timers s) (clock s)
          (outbox s ++ [m]).

(** *** Promises and timers *)

Fixpoint lookup (c : nat) (l : list (nat * Outcome)) : option Outcome :=
  match l with
  | [] => None
  | (c', o) :: rest => if c =? c' then Some o else lookup c rest
  end.

(** How promise [c] ended, [None] while it is pending. *)
Definition outcome (c : nat) (s : State) : option Outcome :=
  lookup c (settled s).

(** [resolve(result)] or [reject(error)] of promise [c]: only the first
    call settles a promise. *)
Definition settle (c : nat) (o : Outcome) (s : State) : State :=
  match outcome c s with
  | Some _ => s
  | None => setSettled ((c, o) :: settled s) s
  end.

Definition clearTimeout (c : nat) (s : State) : State :=
  setTimers (filter (fun t => negb (cl_promise (t_callback t) =? c)) (timers s)) s.

(** [for (const [sid, eid] of map.entries()) if (eid === evalId)
    { map.delete(sid); break; }] *)
Fixpoint deleteFirstMappingTo (evalId : nat) (m : JsMap.t nat) : JsMap.t nat :=
  match m with
  | [] => []
  | (sid, eid) :: rest =>
      if eid =? evalId then rest
      else (sid, eid) :: deleteFirstMappingTo evalId rest
  end.

(** [wrappedResolve(result)] and [wrappedReject(error)]. *)
Definition wrapped (cl : Resolvers) (o : Outcome) (s : State) : State :=
  let s := clearTimeout (cl_promise cl) s in
  let s := setPending (JsMap.delete (cl_evalId cl) (pendingEvaluations s)) s in
  let s := setMapping (deleteFirstMappingTo (cl_evalId cl) (searchIdToEvalId s)) s in
  settle (cl_promise cl) o s.

(** *** initialize *)

(** [initialize()]: a new worker is created and sent [init].  (The promise
    [initialize] returns is not part of the state.) *)
Definition initialize (s : State) : State :=
  postMessage Init (setWorker true s).

(** *** handleStockfishMessage *)

(** The inner loop over [searchIdToEvalId.values()]. *)
Definition isMapped (eid : nat) (s : State) : bool :=
  existsb (fun mappedEid => mappedEid =? eid) (JsMap.values (searchIdToEvalId s)).

(** The first pending evaluation, in insertion order, that no search id
    maps to. *)
Definition firstUnmapped (s : State) : option nat :=
  option_map fst
    (find (fun e => negb (isMapped (fst e) s)) (pendingEvaluations s)).

(** The lookup both branches of [handleStockfishMessage] start with: the
    evaluation the search id is mapped to, or else the first unmapped
    pending evaluation, which the search id is then mapped to. *)
Definition correlate (searchId : nat) (s : State) : option nat * State :=
  match JsMap.get searchId (searchIdToEvalId s) with
  | Some evalId => (Some evalId, s)
  | None =>
      if 0 <? JsMap.size (pendingEvaluations s) then
        match firstUnmapped s with
        | Some eid =>
            (Some eid, setMapping (JsMap.set searchId eid (searchIdToEvalId s)) s)
        | None => (None, s)
        end
      else (None, s)
  end.

Definition setEvaluation (evalId : nat) (ev : EvaluationResult) (s : State) : State :=
  match JsMap.get evalId (pendingEvaluations s) with
  | Some pending =>
      setPending (JsMap.set evalId (mkPending (resolvers pending) (Some ev))
                            (pendingEvaluations s)) s
  | None => s
  end.

(** The branch for UCI info messages. *)
Definition handleInfo (message : string) (searchId : option nat) (s : State) : State :=
  if startsWith "info" message && includes "score" message then
    match scoreMatch message, searchId with
    | Some m, Some sid =>
        let (evalId, s1) := correlate sid s in
        match evalId with
        | Some e => setEvaluation e (mkResult (scoreOf m) (pvMatch message)) s1
        | None => s1
        end
    | _, _ => s
    end
  else s.

(** The branch for bestmove (evaluation complete). *)
Definition handleBestMove (message : string) (searchId : option nat) (s : State) : State :=
  if startsWith "bestmove" message then
    match searchId with
    | Some sid =>
        let (evalId, s1) := correlate sid s in
        match evalId with
        | Some e =>
            match JsMap.get e (pendingEvaluations s1) with
            | Some pending =>
                let ev :=
                  match bestMoveMatch message with
                  | Some mv =>
                      match evaluation pending with
                      | Some old => Some (mkResult (score old) (Some mv))
                      | None => Some (mkResult 0 (Some mv))
                      end
                  | None => evaluation pending
                  end in
                let s2 :=
                  match ev with
                  | Some r => wrapped (resolvers pending) (Resolved r) s1
                  | None => wrapped (resolvers pending) (Rejected EvaluationIncomplete) s1
                  end in
                let s3 := setPending (JsMap.delete e (pendingEvaluations s2)) s2 in
                setMapping (JsMap.delete sid (searchIdToEvalId s3)) s3
            | None => s1
            end
        | None => s1
        end
    | None => s
    end
  else s.

Definition handleStockfishMessage (message : string) (searchId : option nat)
    (s : State) : State :=
  handleBestMove message searchId (handleInfo message searchId s).

(** [this.worker.onmessage] *)
Definition onmessage (e : WorkerEvent) (s : State) : State :=
  match e with
  | Ready => setReady true s
  | Message data searchId => handleStockfishMessage data searchId s
  | Error _ => s
  end.

(** *** getEvaluation *)

Definition previousUnmappedEvaluations (s : State) : list nat :=
  map fst (filter (fun e => negb (isMapped (fst e) s)) (pendingEvaluations s)).

Definition rejectPrevious (s : State) (eid : nat) : State :=
  match JsMap.get eid (pendingEvaluations s) with
  | Some pending =>
      let s1 := wrapped (resolvers pending) (Rejected CancelledByNewRequest) s in
      setPending (JsMap.delete eid (pendingEvaluations s1)) s1
  | None => s
  end.

Definition timeoutMs : N := 30000.

Definition getEvaluation (fen : string) (depth : nat) (s : State) : State :=
  let call := promises s in
  let s := setPromises (S call) s in
  if negb (worker s) || negb (isReady s) then
    settle call (Rejected NotInitialized) s
  else
    let evalId := S (evaluationId s) in
    let s := setEvaluationId evalId s in
    let cl := mkResolvers evalId call in
    let s := fold_left rejectPrevious (previousUnmappedEvaluations s) s in
    let s := setPending (JsMap.set evalId (mkPending cl None) (pendingEvaluations s)) s in
    let s := setTimers (timers s ++ [mkTimer cl (clock s + timeoutMs)%N]) s in
    postMessage (Evaluate ("fen " ++ fen)%string depth) s.

(** *** stopEvaluation and destroy *)

(** [this.pendingEvaluations.forEach(({ reject }) => reject(error))]:
    an entry deleted before its turn is not visited. *)
Definition rejectEach (err : EvalError) (s : State) : State :=
  fold_left
    (fun s e =>
       if JsMap.has (fst e) (pendingEvaluations s)
       then wrapped (resolvers (snd e)) (Rejected err) s
       else s)
    (pendingEvaluations s) s.

Definition stopEvaluation (s : State) : State :=
  if worker s && isReady s then
    let s := postMessage Stop s in
    let s := rejectEach EvaluationStopped s in
    setMapping [] (setPending [] s)
  else s.

Definition destroy (s : State) : State :=
  if worker s then
    let s := stopEvaluation s in
    let s := rejectEach WorkerTerminated s in
    let s := setMapping [] (setPending [] s) in
    setEvaluationId 0 (setReady false (setWorker false s))
  else s.

(** *** The timer callback *)

Definition timerOf (c : nat) (s : State) : option Timer :=
  find (fun t => cl_promise (t_callback t) =? c) (timers s).

(** The timer armed by call [c] fires: only an armed timer whose delay
    has passed does. *)
Definition timerFires (c : nat) (s : State) : State :=
  match timerOf c s with
  | Some t =>
      if (t_deadline t <=? clock s)%N
      then wrapped (t_callback t) (Rejected EvaluationTimeout) s
      else s
  | None => s
  end.

(** *** Executions *)

Inductive Event :=
| Initialize
| GetEvaluation (fen : string) (depth : nat)
| StopEvaluation
| Destroy
| OnMessage (e : WorkerEvent)
| TimerFires (call : nat)
| Elapse (ms : N).

Definition step (s : State) (e : Event) : State :=
  match e with
  | Initialize => initialize s
  | GetEvaluation fen depth => getEvaluation fen depth s
  | StopEvaluation => stopEvaluation s
  | Destroy => destroy s
  | OnMessage m => onmessage m s
  | TimerFires c => timerFires c s
  | Elapse ms => setClock (clock s + ms)%N s
  end.

Definition run (s : State) (events : list Event) : State :=
  fold_left step events s.

Inductive reachable : State -> Prop :=
| reach_initial : reachable initial
| reach_step s e : reachable s -> reachable (step s e).

(** *** restart and getStatus *)

(** [restart()]: [destroy()], then [initialize()]. *)
Definition restart (s : State) : State := initialize (destroy s).

(** [{ isReady, hasWorker, pendingCount }] *)
Record Status := mkStatus {
  status_isReady : bool;
  hasWorker : bool;
  pendingCount : nat
}.

Definition getStatus (s : State) : Status :=
  mkStatus (isReady s) (worker s) (JsMap.size (pendingEvaluations s)).

End Engine.

(** ** The engine of [src/lib/chessEngine.ts]

    One [currentEvaluation] shared by all requests; the worker's search id
    is not looked at. *)

Module Legacy.

(** [wrappedResolve] and [wrappedReject] of one [getEvaluation] call. *)
Record Resolvers := mkResolvers {
  cl_evalId : nat;
  cl_promise : nat
}.

(** The timer callback deletes the pending entry and calls
    [wrappedReject] with the timeout error. *)
Record Timer := mkTimer {
  t_callback : Resolvers;
  t_deadline : N
}.

Record State := mkState {
  (* the fields of ChessEngine *)
  worker : bool;
  isReady : bool;
  pendingEvaluations : JsMap.t Resolvers;   (* values are { resolve, reject } *)
  evaluationId : nat;
  currentEvaluation : option EvaluationResult;
  (* the run time around it *)
  promises : nat;
  settled : list (nat * Outcome);
  timers : list Timer;
  clock : N;
  outbox : list WorkerRequest
}.

Definition initial : State :=
  mkState false false [] 0 None 0 [] [] 0%N [].

Definition setWorker (b : bool) (s : State) : State :=
  mkState b (isReady s) (pendingEvaluations s) (evaluationId s)
          (currentEvaluation s) (promises s) (settled s) (timers s) (clock s)
          (outbox s).
Definition setReady (b : bool) (s : State) : State :=
  mkState (worker s) b (pendingEvaluations s) (evaluationId s)
          (currentEvaluation s) (promises s) (settled s) (timers s) (clock s)
          (outbox s).
Definition setPending (m : JsMap.t Resolvers) (s : State) : State :=
  mkState (worker s) (isReady s) m (evaluationId s)
          (currentEvaluation s) (promises s) (settled s) (timers s) (clock s)
          (outbox s).
Definition setEvaluationId (n : nat) (s : State) : State :=
  mkState (worker s) (isReady s) (pendingEvaluations s) n
          (currentEvaluation s) (promises s) (settled s) (timers s) (clock s)
          (outbox s).
Definition setCurrent (ev : option EvaluationResult) (s : State) : State :=
  mkState (worker s) (isReady s) (pendingEvaluations s) (evaluationId s)
          ev (promises s) (settled s) (timers s) (clock s) (outbox s).
Definition setPromises (n : nat) (s : State) : State :=
  mkState (worker s) (isReady s) (pendingEvaluations s) (evaluationId s)
          (currentEvaluation s) n (settled s) (timers s) (clock s) (outbox s).
Definition setSettled (l : list (nat * Outcome)) (s : State) : State :=
  mkState (worker s) (isReady s) (pendingEvaluations s) (evaluationId s)
          (currentEvaluation s) (promises s) l (timers s) (clock s) (outbox s).
Definition setTimers (l : list Timer) (s : State) : State :=
  mkState (worker s) (isReady s) (pendingEvaluations s) (evaluationId s)
          (currentEvaluation s) (promises s) (settled s) l (clock s) (outbox s).
Definition setClock (n : N) (s : State) : State :=
  mkState (worker s) (isReady s) (pendingEvaluations s) (evaluationId s)
          (currentEvaluation s) (promises s) (settled s) (timers s) n (outbox s).
Definition postMessage (m : WorkerRequest) (s : State) : State :=
  mkState (worker s) (isReady s) (pendingEvaluations s) (evaluationId s)
          (currentEvaluation s) (promises s) (settled s) (timers s) (clock s)
          (outbox s ++ [m]).

Definition outcome (c : nat) (s : State) : option Outcome :=
  Engine.lookup c (settled s).

Definition settle (c : nat) (o : Outcome) (s : State) : State :=
  match outcome c s with
  | Some _ => s
  | None => setSettled ((c, o) :: settled s) s
  end.

Definition clearTimeout (c : nat) (s : State) : State :=
  setTimers (filter (fun t => negb (cl_promise (t_callback t) =? c)) (timers s)) s.

(** [wrappedResolve(result)] and [wrappedReject(error)]. *)
Definition wrapped (cl : Resolvers) (o : Outcome) (s : State) : State :=
  let s := clearTimeout (cl_promise cl) s in
  let s := setPending (JsMap.delete (cl_evalId cl) (pendingEvaluations s)) s in
  settle (cl_promise cl) o s.

Definition initialize (s : State) : State :=
  postMessage Init (setWorker true s).

Definition handleInfo (message : string) (s : State) : State :=
  if startsWith "info" message && includes "score" message then
    match scoreMatch message with
    | Some m => setCurrent (Some (mkResult (scoreOf m) (pvMatch message))) s
    | None => s
    end
  else s.

Definition handleBestMove (message : string) (s : State) : State :=
  if startsWith "bestmove" message then
    let s1 :=
      match bestMoveMatch message, currentEvaluation s with
      | Some mv, Some ev => setCurrent (Some (mkResult (score ev) (Some mv))) s
      | _, _ => s
      end in
    (* Array.from(this.pendingEvaluations.values())[0] *)
    match JsMap.values (pendingEvaluations s1), currentEvaluation s1 with
    | pending :: _, Some ev =>
        let s2 := wrapped pending (Resolved ev) s1 in
        setCurrent None (setPending [] s2)
    | _, _ => s1
    end
  else s.

Definition handleStockfishMessage (message : string) (s : State) : State :=
  handleBestMove message (handleInfo message s).

Definition onmessage (e : WorkerEvent) (s : State) : State :=
  match e with
  | Ready => setReady true s
  | Message data _ => handleStockfishMessage data s
  | Error _ => s
  end.

Definition timeoutMs : N := 30000.

Definition getEvaluation (fen : string) (depth : nat) (s : State) : State :=
  let call := promises s in
  let s := setPromises (S call) s in
  if negb (worker s) || negb (isReady s) then
    settle call (Rejected NotInitialized) s
  else
    let evalId := S (evaluationId s) in
    let s := setEvaluationId evalId s in
    let cl := mkResolvers evalId call in
    let s := setPending (JsMap.set evalId cl (pendingEvaluations s)) s in
    let s := setTimers (timers s ++ [mkTimer cl (clock s + timeoutMs)%N]) s in
    postMessage (Evaluate ("fen " ++ fen)%string depth) s.

Definition rejectEach (err : EvalError) (s : State) : State :=
  fold_left
    (fun s e =>
       if JsMap.has (fst e) (pendingEvaluations s)
       then wrapped (snd e) (Rejected err) s
       else s)
    (pendingEvaluations s) s.

Definition stopEvaluation (s : State) : State :=
  if worker s && isReady s then
    let s := postMessage Stop s in
    let s := rejectEach EvaluationStopped s in
    setCurrent None (setPending [] s)
  else s.

Definition destroy (s : State) : State :=
  if worker s then
    let s := stopEvaluation s in
    let s := rejectEach WorkerTerminated s in
    let s := setCurrent None (setPending [] s) in
    setEvaluationId 0 (setReady false (setWorker false s))
  else s.

Definition timerOf (c : nat) (s : State) : option Timer :=
  find (fun t => cl_promise (t_callback t) =? c) (timers s).

Definition timerFires (c : nat) (s : State) : State :=
  match timerOf c s with
  | Some t =>
      if (t_deadline t <=? clock s)%N then
        let s := setPending (JsMap.delete (cl_evalId (t_callback t))
                                          (pendingEvaluations s)) s in
        wrapped (t_callback t) (Rejected EvaluationTimeout) s
      else s
  | None => s
  end.

Inductive Event :=
| Initialize
| GetEvaluation (fen : string) (depth : nat)
| StopEvaluation
| Destroy
| OnMessage (e : WorkerEvent)
| TimerFires (call : nat)
| Elapse (ms : N).

Definition step (s : State) (e : Event) : State :=
  match e with
  | Initialize => initialize s
  | GetEvaluation fen depth => getEvaluation fen depth s
  | StopEvaluation => stopEvaluation s
  | Destroy => destroy s
  | OnMessage m => onmessage m s
  | TimerFires c => timerFires c s
  | Elapse ms => setClock (clock s + ms)%N s
  end.

Definition run (s : State) (events : list Event) : State :=
  fold_left step events s.

Inductive reachable : State -> Prop :=
| reach_initial : reachable initial
| reach_step s e : reachable s -> reachable (step s e).

(** [getStatus().pendingCount] *)
Definition pendingCount (s : State) : nat := JsMap.size (pendingEvaluations s).

End Legacy.

(** ** The worker script [public/stockfish.js] *)

Module StockfishWorker.

Record State := mkState {
  stockfish : bool;                 (* stockfish !== null *)
  isReady : bool;
  currentSearchId : nat;
  toStockfish : list string;        (* stockfish.postMessage, oldest first *)
  toMain : list WorkerEvent;        (* self.postMessage, not yet delivered *)
  searches : list (nat * string)    (* thisSearchId and posCommand of each search *)
}.

Definition tellStockfish (cmd : string) (w : State) : State :=
  mkState (stockfish w) (isReady w) (currentSearchId w)
          (toStockfish w ++ [cmd]) (toMain w) (searches w).
Definition postMessage (e : WorkerEvent) (w : State) : State :=
  mkState (stockfish w) (isReady w) (currentSearchId w)
          (toStockfish w) (toMain w ++ [e]) (searches w).
Definition setReady (b : bool) (w : State) : State :=
  mkState (stockfish w) b (currentSearchId w)
          (toStockfish w) (toMain w) (searches w).
Definition setSearchId (n : nat) (w : State) : State :=
  mkState (stockfish w) (isReady w) n
          (toStockfish w) (toMain w) (searches w).
Definition noteSearch (id : nat) (pos : string) (w : State) : State :=
  mkState (stockfish w) (isReady w) (currentSearchId w)
          (toStockfish w) (toMain w) (searches w ++ [(id, pos)]).

(** The top level of the script: [available] is
    [typeof Stockfish !== 'undefined']. *)
Definition load (available : bool) : State :=
  if available
  then tellStockfish "uci" (mkState true false 0 [] [] [])
  else mkState false false 0 [] [] [].

(** [stockfish.onmessage] for a string message. *)
Definition fromStockfish (message : string) (w : State) : State :=
  let w := postMessage (Message message (Some (currentSearchId w))) w in
  if (message =? "uciok")%string then
    let w := setReady true w in
    let w := postMessage Ready w in
    let w := tellStockfish "setoption name Skill Level value 20" w in
    tellStockfish "setoption name MultiPV value 1" w
  else w.

Definition showNat (n : nat) : string :=
  NilEmpty.string_of_uint (Nat.to_uint n).

(** [self.onmessage] *)
Definition onmessage (m : WorkerRequest) (w : State) : State :=
  if negb (stockfish w) then postMessage (Error "Stockfish not loaded") w
  else
    match m with
    | Init => if negb (isReady w) then tellStockfish "uci" w else w
    | Evaluate position depth =>
        if isReady w then
          let w := setSearchId (S (currentSearchId w)) w in
          let thisSearchId := currentSearchId w in
          let w := tellStockfish "stop" w in
          let posCommand := if (position =? "")%string then "startpos" else position in
          let w := tellStockfish ("position " ++ posCommand)%string w in
          let depthValue := if depth =? 0 then 15 else depth in
          let w := tellStockfish ("go depth " ++ showNat depthValue)%string w in
          noteSearch thisSearchId posCommand w
        else postMessage (Error "Stockfish not ready") w
    | Stop =>
        if isReady w then
          setSearchId (S (currentSearchId w)) (tellStockfish "stop" w)
        else w
    end.

(** *** Executions

    A request of the main thread arrives, or Stockfish prints a line (which
    it cannot do when it was not loaded). *)

Inductive Event :=
| Receives (m : WorkerRequest)
| Says (line : string).

Definition step (w : State) (e : Event) : State :=
  match e with
  | Receives m => onmessage m w
  | Says line => if stockfish w then fromStockfish line w else w
  end.

Definition run (w : State) (events : list Event) : State :=
  fold_left step events w.

Inductive reachable : State -> Prop :=
| reach_load available : reachable (load available)
| reach_step w e : reachable w -> reachable (step w e).

End StockfishWorker.

(** ** Engine and worker together

    The engine's [outbox] is the channel to the worker, the worker's
    [toMain] the channel back; both deliver in order.  [terminate()] ends
    the worker and discards what is still under way in either direction. *)

Module System.

Record State := mkState {
  main : Engine.State;
  wk : option StockfishWorker.State
}.

Definition initial : State := mkState Engine.initial None.

Inductive Action :=
| Api (e : Engine.Event)          (* a call, a timer or the clock; not [OnMessage] *)
| WorkerReceives                  (* the worker takes the next request *)
| MainReceives                    (* the engine takes the next worker message *)
| StockfishSays (line : string).  (* Stockfish prints a line *)

Definition setOutbox (l : list WorkerRequest) (s : Engine.State) : Engine.State :=
  Engine.mkState (Engine.worker s) (Engine.isReady s)
    (Engine.pendingEvaluations s) (Engine.evaluationId s)
    (Engine.searchIdToEvalId s) (Engine.promises s) (Engine.settled s)
    (Engine.timers s) (Engine.clock s) l.

Definition setToMain (l : list WorkerEvent) (w : StockfishWorker.State) :=
  StockfishWorker.mkState (StockfishWorker.stockfish w)
    (StockfishWorker.isReady w) (StockfishWorker.currentSearchId w)
    (StockfishWorker.toStockfish w) l (StockfishWorker.searches w).

Definition step (s : State) (a : Action) : State :=
  match a with
  | Api Engine.Initialize =>
      mkState (Engine.initialize (main s)) (Some (StockfishWorker.load true))
  | Api Engine.Destroy =>
      if Engine.worker (main s)
      then mkState (setOutbox [] (Engine.destroy (main s))) None
      else s
  | Api (Engine.OnMessage _) => s
  | Api e => mkState (Engine.step (main s) e) (wk s)
  | WorkerReceives =>
      match wk s, Engine.outbox (main s) with
      | Some w, m :: rest =>
          mkState (setOutbox rest (main s)) (Some (StockfishWorker.onmessage m w))
      | _, _ => s
      end
  | MainReceives =>
      match wk s with
      | Some w =>
          match StockfishWorker.toMain w with
          | e :: rest =>
              mkState (Engine.onmessage e (main s)) (Some (setToMain rest w))
          | [] => s
          end
      | None => s
      end
  | StockfishSays line =>
      match wk s with
      | Some w =>
          if StockfishWorker.stockfish w
          then mkState (main s) (Some (StockfishWorker.fromStockfish line w))
          else s
      | None => s
      end
  end.

Definition run (s : State) (actions : list Action) : State :=
  fold_left step actions s.

Inductive reachable : State -> Prop :=
| reach_initial : reachable initial
| reach_step s a : reachable s -> reachable (step s a).

End System.

(** ** [src/utils/chessUtils.js] *)

Module ChessUtils.

(** A move as react-chessboard and chess.js take it: [{ from, to,
    promotion }].  An absent [from] or [to] reads as the empty string, an
    absent [promotion] as [None]: the code tests the fields for truth
    only, and the empty string is as false as [undefined]. *)
Record Move := mkMove {
  from : string;
  to : string;
  promotion : option string
}.

(** [!s] for a string that may be [null] or [undefined]. *)
Definition falsy (s : option string) : bool :=
  match s with
  | None => true
  | Some s => (s =? "")%string
  end.

(** [uciToMove(uciMove)]: "e2e4" to [{ from: "e2", to: "e4" }]. *)
Definition uciToMove (uciMove : option string) : option Move :=
  match uciMove with
  | None => None
  | Some u =>
      if falsy uciMove || (String.length u <? 4) then None
      else Some (mkMove (substring 0 2 u) (substring 2 2 u) None)
  end.

(** [toLowerCase()] on the letters A to Z. *)
Definition lower (c : ascii) : ascii :=
  if charIn "A" "Z" c then ascii_of_nat (nat_of_ascii c + 32) else c.

Fixpoint toLowerCase (s : string) : string :=
  match s with
  | EmptyString => EmptyString
  | String c rest => String (lower c) (toLowerCase rest)
  end.

(** [moveToUci(move)]: [{ from: "e2", to: "e4" }] to "e2e4". *)
Definition moveToUci (move : option Move) : option string :=
  match move with
  | None => None
  | Some mv =>
      if falsy (Some (from mv)) || falsy (Some (to mv)) then None
      else
        let uci := (from mv ++ to mv)%string in
        if falsy (promotion mv) then Some uci
        else match promotion mv with
             | Some p => Some (uci ++ toLowerCase p)%string
             | None => Some uci
             end
  end.

(** [{ file, rank }] of [moveToSquare]; [rank] is [None] when
    [parseInt] gives [NaN]. *)
Record Indices := mkIndices {
  file : Z;
  rank : option Z
}.

(** [parseInt(c, 10)] of one character. *)
Definition parseDigit (c : ascii) : option Z :=
  if isDigit c then Some (digitValue c) else None.

(** [moveToSquare(square)]: "e4" to [{ file: 4, rank: 3 }]. *)
Definition moveToSquare (square : option string) : option Indices :=
  match square with
  | Some (String c0 (String c1 EmptyString)) =>
      Some (mkIndices (Z.of_nat (nat_of_ascii c0) - 97)
                      (option_map (fun r => r - 1)%Z (parseDigit c1)))
  | _ => None
  end.

End ChessUtils.

(** ** [src/utils/coachComments.js] *)

(** [game.turn()] and the [color] of a piece: 'w' or 'b'. *)
Inductive Color := White | Black.

Module CoachComments.

(** The [type] of a comment: 'error', 'warning', 'caution', 'success',
    'info'. *)
Inductive CommentType := error | warning | caution | success | info.

Record Comment := mkComment {
  type : CommentType;
  message : string
}.

Section Comments.

(** [(Math.abs(x) / 100).toFixed(1)] for an integer [x] of centipawns: the
    change in pawns, with one decimal. *)
Variable toFixed1 : Z -> string.

(** [comments[Math.floor(Math.random() * comments.length)]]; [draw]
    stands for the random number, any index below the length can come
    out. *)
Definition choose (comments : list string) (draw : nat) : string :=
  nth (draw mod List.length comments) comments "".

(** [hasHangingPiece(game, color)] *)
Definition hasHangingPiece : bool := false.

Definition getSevereComment (adjustedChange : Z) (draw : nat) : string :=
  let comments :=
    [("That move loses significant material! (" ++ toFixed1 adjustedChange ++ " pawns)")%string;
     "You left a piece hanging!";
     "This move loses control of the center.";
     "You're giving away too much material.";
     "That piece is now undefended!";
     "You're allowing a strong attack.";
     "This move weakens your position significantly.";
     "You're losing a piece for nothing."] in
  if hasHangingPiece then "You left a piece hanging!" else choose comments draw.

Definition getBadMoveComment (adjustedChange : Z) (draw : nat) : string :=
  choose
    [("That move loses material (" ++ toFixed1 adjustedChange ++ " pawns).")%string;
     "You're weakening your position.";
     "This move loses control of key squares.";
     "You're giving your opponent an advantage.";
     "This move creates weaknesses in your position.";
     "You're allowing your opponent to gain space."] draw.

Definition getQuestionableComment (draw : nat) : string :=
  choose
    ["That move is questionable.";
     "You might want to reconsider that move.";
     "This move slightly weakens your position.";
     "There might be better options available.";
     "This move gives your opponent a small advantage."] draw.

Definition getGoodMoveComment (draw : nat) : string :=
  choose
    ["Excellent move!";
     "That's a strong move.";
     "Good choice!";
     "You're improving your position.";
     "That move gains you an advantage."] draw.

Definition getDecentMoveComment (draw : nat) : string :=
  choose
    ["That's a solid move.";
     "Good move.";
     "You're maintaining a good position."] draw.

(** [generateCoachComment(evaluationChange, previousEval, currentEval,
    game)]; of [game] only [game.turn()] is read.  [None] is [null]. *)
Definition generateCoachComment (evaluationChange previousEval currentEval : Z)
    (turn : Color) (draw : nat) : option Comment :=
  let isWhiteTurn := match turn with White => true | Black => false end in
  (* justMoved is 'black' when it is white's turn *)
  let perspective := if isWhiteTurn then (-1)%Z else 1%Z in
  let adjustedChange := (evaluationChange * perspective)%Z in
  if (adjustedChange <? -300)%Z then
    Some (mkComment error (getSevereComment adjustedChange draw))
  else if (adjustedChange <? -200)%Z then
    Some (mkComment warning (getBadMoveComment adjustedChange draw))
  else if (adjustedChange <? -100)%Z then
    Some (mkComment caution (getQuestionableComment draw))
  else if (200 <? adjustedChange)%Z then
    Some (mkComment success (getGoodMoveComment draw))
  else if (100 <? adjustedChange)%Z then
    Some (mkComment info (getDecentMoveComment draw))
  else None.

End Comments.

End CoachComments.

(** ** The effect of [App] that tracks the evaluation *)

Module App.

(** Blunder detection: whether the score dropped by more than 150
    centipawns for the side that moved, which is the side to move of the
    position before. *)
Definition blunderDetected (evaluation previousEval : Z) (previousTurn : Color) : bool :=
  let evaluationChange := (evaluation - previousEval)%Z in
  let isWhiteTurn := match previousTurn with White => true | Black => false end in
  (* justMoved is 'white' when it was white's turn *)
  let perspective := if isWhiteTurn then 1%Z else (-1)%Z in
  let adjustedChange := (evaluationChange * perspective)%Z in
  (adjustedChange <? -150)%Z.

(** The comment the effect asks for. *)
Definition coachComment (toFixed1 : Z -> string) (evaluation previousEval : Z)
    (turn : Color) (draw : nat) : option CoachComments.Comment :=
  CoachComments.generateCoachComment toFixed1 (evaluation - previousEval)
    previousEval evaluation turn draw.

End App.

(** ** [src/utils/threatAnalysis.js] *)

Module ThreatAnalysis.

(** The [type] of a chess.js piece: 'p', 'n', 'b', 'r', 'q', 'k'. *)
Inductive PieceType := Pawn | Knight | Bishop | Rook | Queen | King.

Record Piece := mkPiece {
  type : PieceType;
  color : Color
}.

(** What the code reads of a chess.js game: the side to move
    ([game.turn()]), the piece on a square ([game.get(square)], [None]
    when there is none), and the target square [move.to] of every move of
    [game.moves({ verbose: true })].  A copy [new Chess(game.fen())]
    reads the same. *)
Record Game := mkGame {
  turn : Color;
  get : string -> option Piece;
  moves : list string
}.

Definition sameColor (a b : Color) : bool :=
  match a, b with
  | White, White | Black, Black => true
  | _, _ => false
  end.

(** *** Numbers

    The numbers of the square arithmetic: integers, and [NaN] ([None])
    where a square has no first or second character or the second is no
    digit. *)

Definition Num := option Z.

Definition add (a b : Num) : Num :=
  match a, b with
  | Some x, Some y => Some (x + y)%Z
  | _, _ => None
  end.

Definition sub (a b : Num) : Num :=
  match a, b with
  | Some x, Some y => Some (x - y)%Z
  | _, _ => None
  end.

Definition abs (a : Num) : Num := option_map Z.abs a.

(** [a === b], [a < b], [a > b], [a <= b]: false when either is [NaN]. *)
Definition eq (a b : Num) : bool :=
  match a, b with
  | Some x, Some y => (x =? y)%Z
  | _, _ => false
  end.

Definition lt (a b : Num) : bool :=
  match a, b with
  | Some x, Some y => (x <? y)%Z
  | _, _ => false
  end.

Definition gt (a b : Num) : bool := lt b a.

Definition le (a b : Num) : bool :=
  match a, b with
  | Some x, Some y => (x <=? y)%Z
  | _, _ => false
  end.

(** [square.charCodeAt(0) - 97] *)
Definition fileOf (square : string) : Num :=
  match square with
  | String c _ => Some (Z.of_nat (nat_of_ascii c) - 97)%Z
  | EmptyString => None
  end.

(** [parseInt(square[1])] *)
Definition rankOf (square : string) : Num :=
  match square with
  | String _ (String c _) => ChessUtils.parseDigit c
  | _ => None
  end.

(** A number in a string concatenation. *)
Definition showNum (n : Num) : string :=
  match n with
  | Some z => NilZero.string_of_int (Z.to_int z)
  | None => "NaN"
  end.

(** [String.fromCharCode(97 + file) + rank]; strings hold characters of
    one byte, so a character code is taken below 256. *)
Definition squareName (file rank : Num) : string :=
  String (match file with
          | Some f => ascii_of_nat (Z.to_nat (97 + f))
          | None => zero
          end)
         (showNum rank).

(** *** isPathClear *)

(** The [direction] argument, 'diagonal' or 'straight'; [isPathClear]
    does not read it. *)
Inductive Direction := Diagonal | Straight.

(** The loop of [isPathClear]; [fuel] bounds the number of squares it
    looks at, [None] says that the bound was reached. *)
Fixpoint walk (game : Game) (fuel : nat) (currentFile currentRank toFile toRank : Num)
    (fileStep rankStep : Z) : option bool :=
  if negb (eq currentFile toFile) || negb (eq currentRank toRank) then
    match fuel with
    | O => None
    | S fuel' =>
        match get game (squareName currentFile currentRank) with
        | Some _ => Some false   (* path is blocked *)
        | None =>
            walk game fuel' (add currentFile (Some fileStep))
                 (add currentRank (Some rankStep)) toFile toRank fileStep rankStep
        end
    end
  else Some true.

Definition isPathClear (fuel : nat) (game : Game) (fromSquare toSquare : string)
    (direction : Direction) : option bool :=
  let fromFile := fileOf fromSquare in
  let fromRank := rankOf fromSquare in
  let toFile := fileOf toSquare in
  let toRank := rankOf toSquare in
  let fileStep := if gt toFile fromFile then 1%Z
                  else if lt toFile fromFile then (-1)%Z else 0%Z in
  let rankStep := if gt toRank fromRank then 1%Z
                  else if lt toRank fromRank then (-1)%Z else 0%Z in
  walk game fuel (add fromFile (Some fileStep)) (add fromRank (Some rankStep))
       toFile toRank fileStep rankStep.

(** *** canPieceReachSquare *)

Definition canPieceReachSquare (fuel : nat) (game : Game)
    (fromSquare toSquare : string) (pieceType : PieceType) (color : Color) :
    option bool :=
  let fromFile := fileOf fromSquare in
  let fromRank := rankOf fromSquare in
  let toFile := fileOf toSquare in
  let toRank := rankOf toSquare in
  let fileDiff := sub toFile fromFile in
  let rankDiff := sub toRank fromRank in
  let absFileDiff := abs fileDiff in
  let absRankDiff := abs rankDiff in
  match pieceType with
  | Pawn =>   (* attacks diagonally *)
      Some (eq absFileDiff (Some 1%Z) && eq absRankDiff (Some 1%Z) &&
            match color with
            | White => eq rankDiff (Some 1%Z)
            | Black => eq rankDiff (Some (-1)%Z)
            end)
  | Knight =>
      Some ((eq absFileDiff (Some 2%Z) && eq absRankDiff (Some 1%Z)) ||
            (eq absFileDiff (Some 1%Z) && eq absRankDiff (Some 2%Z)))
  | Bishop =>
      if eq absFileDiff absRankDiff && gt absFileDiff (Some 0%Z)
      then isPathClear fuel game fromSquare toSquare Diagonal
      else Some false
  | Rook =>
      if (eq absFileDiff (Some 0%Z) || eq absRankDiff (Some 0%Z)) &&
         (gt absFileDiff (Some 0%Z) || gt absRankDiff (Some 0%Z))
      then isPathClear fuel game fromSquare toSquare Straight
      else Some false
  | Queen =>
      if (eq absFileDiff absRankDiff || eq absFileDiff (Some 0%Z) ||
          eq absRankDiff (Some 0%Z)) &&
         (gt absFileDiff (Some 0%Z) || gt absRankDiff (Some 0%Z))
      then isPathClear fuel game fromSquare toSquare
             (if eq absFileDiff absRankDiff then Diagonal else Straight)
      else Some false
  | King =>   (* one square any direction *)
      Some (le absFileDiff (Some 1%Z) && le absRankDiff (Some 1%Z) &&
            (gt absFileDiff (Some 0%Z) || gt absRankDiff (Some 0%Z)))
  end.

(** *** isSquareAttacked *)

Definition files : list string := ["a"; "b"; "c"; "d"; "e"; "f"; "g"; "h"].
Definition ranks : list nat := [1; 2; 3; 4; 5; 6; 7; 8].

(** The squares in the order of the two nested loops: [file + rank]. *)
Definition squares : list string :=
  flat_map (fun file => map (fun rank => (file ++ StockfishWorker.showNat rank)%string) ranks)
           files.

(** The loop over the attacker's pieces: it returns at the first piece
    that can reach the square. *)
Fixpoint attackedFrom (fuel : nat) (game : Game) (square : string)
    (attackerColor : Color) (fromSquares : list string) : option bool :=
  match fromSquares with
  | [] => Some false
  | fromSquare :: rest =>
      match get game fromSquare with
      | Some piece =>
          if sameColor (color piece) attackerColor then
            match canPieceReachSquare fuel game fromSquare square (type piece)
                                      attackerColor with
            | Some true => Some true
            | Some false => attackedFrom fuel game square attackerColor rest
            | None => None
            end
          else attackedFrom fuel game square attackerColor rest
      | None => attackedFrom fuel game square attackerColor rest
      end
  end.

Definition isSquareAttacked (fuel : nat) (game : Game) (square : string)
    (attackerColor : Color) : option bool :=
  if sameColor (turn game) attackerColor then
    (* allMoves.some(move => move.to === square) *)
    Some (existsb (fun to => (to =? square)%string) (moves game))
  else attackedFrom fuel game square attackerColor squares.

(** *** findAttackedPieces *)

Section FindAttackedPieces.

(** [gameCopy.move({ from, to, promotion })] of chess.js: the game after
    the move, [None] when chess.js refuses the move (it returns [null] or
    throws, and [findAttackedPieces] returns [[]] either way). *)
Variable move : Game -> ChessUtils.Move -> option Game.

(** The two nested loops over the squares of the board. *)
Fixpoint collect (fuel : nat) (gameCopy : Game) (currentPlayer opponentColor : Color)
    (todo : list string) : option (list string) :=
  match todo with
  | [] => Some []
  | square :: rest =>
      match get gameCopy square with
      | Some piece =>
          if sameColor (color piece) currentPlayer then
            match isSquareAttacked fuel gameCopy square opponentColor with
            | Some true =>
                option_map (cons square)
                           (collect fuel gameCopy currentPlayer opponentColor rest)
            | Some false => collect fuel gameCopy currentPlayer opponentColor rest
            | None => None
            end
          else collect fuel gameCopy currentPlayer opponentColor rest
      | None => collect fuel gameCopy currentPlayer opponentColor rest
      end
  end.

Definition findAttackedPieces (fuel : nat) (game : Game)
    (opponentBestMove : option string) : option (list string) :=
  match opponentBestMove with
  | None => Some []
  | Some best =>
      if ChessUtils.falsy opponentBestMove || (String.length best <? 4) then Some []
      else
        let from := substring 0 2 best in
        let to := substring 2 2 best in
        let promotion :=
          if 4 <? String.length best then
            match String.get 4 best with
            | Some c => Some (String c EmptyString)
            | None => None
            end
          else None in
        let promotion := if ChessUtils.falsy promotion then Some "q" else promotion in
        match move game (ChessUtils.mkMove from to promotion) with
        | None => Some []
        | Some gameCopy =>
            (* after the opponent's move it is the current player's turn *)
            let currentPlayer := turn gameCopy in
            let opponentColor := match currentPlayer with
                                 | White => Black
                                 | Black => White
                                 end in
            collect fuel gameCopy currentPlayer opponentColor squares
        end
  end.

End FindAttackedPieces.

End ThreatAnalysis.

(** * Vocabulary of the properties *)

Import Engine.

(** ** Well-formed states

    The closures stored in [pendingEvaluations] determine everything the
    invariant needs: which evaluation id and which promise each entry
    stands for. *)

(** The closures of the pending evaluations, oldest first. *)
Definition closures (s : State) : list Resolvers :=
  map (fun e => resolvers (snd e)) (pendingEvaluations s).

(** The call (promise) whose [getEvaluation] armed the timer. *)
Definition timerCall (t : Timer) : nat := cl_promise (t_callback t).

(** What every reachable state of the engine satisfies. *)
Record WF (s : State) : Prop := {
  wf_closure : JsMap.keys (pendingEvaluations s) = map cl_evalId (closures s);
  wf_keys : NoDup (JsMap.keys (pendingEvaluations s));
  wf_calls : NoDup (map cl_promise (closures s));
  wf_bound : forall k, In k (JsMap.keys (pendingEvaluations s)) -> k <= evaluationId s;
  wf_timer_pending : forall t, In t (timers s) -> In (t_callback t) (closures s);
  wf_pending_timer : forall cl, In cl (closures s) ->
                     exists t, In t (timers s) /\ t_callback t = cl;
  wf_timers : NoDup (map timerCall (timers s));
  wf_unsettled : forall cl, In cl (closures s) -> outcome (cl_promise cl) s = None;
  wf_created : forall cl, In cl (closures s) -> cl_promise cl < promises s;
  wf_settled : forall c o, outcome c s = Some o -> c < promises s;
  wf_complete : forall c, c < promises s -> outcome c s = None ->
                In c (map cl_promise (closures s));
  wf_map_vals : forall e, In e (JsMap.values (searchIdToEvalId s)) ->
                In e (JsMap.keys (pendingEvaluations s));
  wf_map_inj : NoDup (JsMap.values (searchIdToEvalId s));
  wf_map_keys : NoDup (JsMap.keys (searchIdToEvalId s));
  wf_ready : pendingEvaluations s <> [] -> worker s = true /\ isReady s = true;
  wf_noworker : worker s = false -> evaluationId s = 0
}.

(** For the engine of [src/lib/chessEngine.ts]: every promise a closure or
    the record of outcomes refers to was created. *)
Record Known (l : Legacy.State) : Prop := {
  known_settled : forall c o, Legacy.outcome c l = Some o -> c < Legacy.promises l;
  known_pending : forall e, In e (Legacy.pendingEvaluations l) ->
                            Legacy.cl_promise (snd e) < Legacy.promises l;
  known_timers : forall t, In t (Legacy.timers l) ->
                           Legacy.cl_promise (Legacy.t_callback t) < Legacy.promises l
}.

(** ** Relations between a state and a later one *)

(** The fields that rejecting and resolving leave alone. *)
Definition frame (s s' : State) : Prop :=
  worker s' = worker s /\ isReady s' = isReady s /\
  evaluationId s' = evaluationId s /\ promises s' = promises s /\
  clock s' = clock s /\ outbox s' = outbox s.

(** A state that differs only in the mapping and in the partial results. *)
Definition quiet (s s' : State) : Prop :=
  frame s s' /\ settled s' = settled s /\ timers s' = timers s /\
  JsMap.keys (pendingEvaluations s') = JsMap.keys (pendingEvaluations s) /\
  closures s' = closures s.

(** Promises keep their outcome; those settled on the way from [s] to [s']
    end with an outcome in [A]. *)
Definition settles (A : Outcome -> Prop) (s s' : State) : Prop :=
  forall c, outcome c s' = outcome c s \/
            (outcome c s = None /\ exists o, outcome c s' = Some o /\ A o).

(** No promise and no timer is created on the way from [s] to [s']. *)
Definition calm (A : Outcome -> Prop) (s s' : State) : Prop :=
  settles A s s' /\ incl (timers s') (timers s) /\ promises s' = promises s.

(** The outcomes a completion line settles a promise with. *)
Definition fromCompletion (o : Outcome) : Prop :=
  (exists r, o = Resolved r) \/ o = Rejected EvaluationIncomplete.

(** The outcomes an event can settle a promise with. *)
Definition allowed (e : Event) (o : Outcome) : Prop :=
  match e with
  | GetEvaluation _ _ =>
      o = Rejected CancelledByNewRequest \/ o = Rejected NotInitialized
  | StopEvaluation => o = Rejected EvaluationStopped
  | Destroy => o = Rejected EvaluationStopped \/ o = Rejected WorkerTerminated
  | OnMessage _ => fromCompletion o
  | TimerFires _ => o = Rejected EvaluationTimeout
  | Initialize | Elapse _ => False
  end.

(** Some search id is mapped to the evaluation of the closure. *)
Definition mapped (cl : Resolvers) (s : State) : Prop :=
  In (cl_evalId cl) (JsMap.values (searchIdToEvalId s)).

(** ** Parts of [getEvaluation] and of [handleStockfishMessage] *)

(** What [getEvaluation] does on a ready engine once the earlier unmapped
    evaluations are rejected. *)
Definition enqueue (fen : string) (depth : nat) (s : State) : State :=
  let evalId := S (evaluationId s) in
  let cl := mkResolvers evalId (promises s) in
  postMessage (Evaluate ("fen " ++ fen)%string depth)
    (setTimers (timers s ++ [mkTimer cl (clock s + timeoutMs)%N])
       (setPending (JsMap.set evalId (mkPending cl None) (pendingEvaluations s))
          (setEvaluationId evalId (setPromises (S (promises s)) s)))).

(** The promise settled by a completion line, and with what. *)
Definition completion (message : string) (pending : Pending) : Outcome :=
  match bestMoveMatch message with
  | Some mv =>
      match evaluation pending with
      | Some old => Resolved (mkResult (score old) (Some mv))
      | None => Resolved (mkResult 0 (Some mv))
      end
  | None =>
      match evaluation pending with
      | Some old => Resolved old
      | None => Rejected EvaluationIncomplete
      end
  end.

(** The result a score line followed by a completion line adds up to. *)
Definition reported (info best : string) (m : ScoreKind * string) : EvaluationResult :=
  mkResult (scoreOf m)
           (match bestMoveMatch best with
            | Some mv => Some mv
            | None => pvMatch info
            end).

(** Calls of [getEvaluation] that follow each other. *)
Definition calls (reqs : list (string * nat)) : list Event :=
  map (fun r => GetEvaluation (fst r) (snd r)) reqs.

(** The only pending evaluation of the engine, unmapped or mapped to the
    search id [sid]. *)
Definition onlyPending (s : State) (sid : nat) (c : nat) : Prop :=
  exists e p,
    pendingEvaluations s = [(e, p)] /\ resolvers p = mkResolvers e c /\
    (searchIdToEvalId s = [] \/ searchIdToEvalId s = [(sid, e)]) /\
    outcome c s = None.

(** The only pending evaluation of the engine of [src/lib/chessEngine.ts]. *)
Definition legacyOnlyPending (l : Legacy.State) (c : nat) : Prop :=
  exists e cl,
    Legacy.pendingEvaluations l = [(e, cl)] /\ Legacy.cl_promise cl = c /\
    Legacy.outcome c l = None.

(** ** The shape of the lines *)

(** [-?\d+] as a whole string. *)
Fixpoint allDigits (s : string) : bool :=
  match s with
  | EmptyString => true
  | String c rest => isDigit c && allDigits rest
  end.

(** A capture of [(-?\d+)]. *)
Definition isNumber (d : string) : bool :=
  match d with
  | String c rest =>
      if (c =? "-")%char
      then allDigits rest && negb (rest =? "")%string
      else allDigits d
  | EmptyString => false
  end.

(** What may follow a number: nothing, or a character that is no digit. *)
Definition endsNumber (post : string) : bool :=
  match post with
  | String c _ => negb (isDigit c)
  | EmptyString => true
  end.


(** No character of the literal is an [s]. *)
Fixpoint noS (p : string) : bool :=
  match p with
  | EmptyString => true
  | String c rest => negb (c =? "s")%char && noS rest
  end.

(** ** Scenarios *)

(** Two positions: the initial one, and the one after 1. e4. *)
Definition fenStart : string :=
  "rnbqkbnr/pppppppp/8/8/8/8/PPPPPPPP/RNBQKBNR w KQkq - 0 1".
Definition fenE4 : string :=
  "rnbqkbnr/pppppppp/8/8/4P3/8/PPPP1PPP/RNBQKBNR b KQkq e3 0 1".

(** The engine after [initialize()] has resolved. *)
Definition ready : State := run initial [Initialize; OnMessage Ready].

(** The same for the engine of [src/lib/chessEngine.ts]. *)
Definition legacyReady : Legacy.State :=
  Legacy.run Legacy.initial [Legacy.Initialize; Legacy.OnMessage Ready].

(** Engine and worker after the handshake: the worker has forwarded
    [uciok] and announced that it is ready, the engine has received both. *)
Definition booted : System.State :=
  System.run System.initial
    [System.Api Initialize; System.WorkerReceives; System.StockfishSays "uciok";
     System.MainReceives; System.MainReceives].

(** Three requests. *)
Definition threeCalls : list (string * nat) :=
  [(fenStart, 15); (fenE4, 15); (fenStart, 12)].

(** One call is pending, no line of its search has arrived. *)
Definition oneUnmapped : State := run ready [GetEvaluation fenStart 15].

(** The same for the engine of [src/lib/chessEngine.ts]. *)
Definition legacyOne : Legacy.State :=
  Legacy.run legacyReady [Legacy.GetEvaluation fenStart 15].

(** A score line arrives, then thirty seconds pass. *)
Definition waited : list Event :=
  [OnMessage (Message "info depth 1 seldepth 1 multipv 1 score cp 50 nodes 20 pv a2a3" (Some 1));
   Elapse 30000].

(** The worker has started the search of the first call. *)
Definition searching : System.State :=
  System.run booted
    [System.Api (GetEvaluation fenStart 15); System.WorkerReceives].

(** ** Calls and results *)

(** The calls of [getEvaluation] made so far whose promise is not settled,
    in the order of the calls. *)
Definition unsettled (s : State) : list nat :=
  filter (fun c => match outcome c s with None => true | Some _ => false end)
         (seq 0 (promises s)).

(** A move in UCI notation: what the capture group of the two move
    expressions holds, [[a-h][1-8][a-h][1-8][qrbn]?] as a whole string. *)
Definition isUciMove (mv : string) : bool :=
  match mv with
  | String f1 (String r1 (String f2 (String r2 rest))) =>
      isFile f1 && isRank r1 && isFile f2 && isRank r2 &&
      match rest with
      | EmptyString => true
      | String p EmptyString => isPromo p
      | String _ (String _ _) => false
      end
  | _ => false
  end.

(** The best move of a result, if it has one, is a move in UCI notation. *)
Definition wellFormed (r : EvaluationResult) : Prop :=
  forall mv, bestMove r = Some mv -> isUciMove mv = true.

(** Every partial result, and every result a call was resolved with, has
    a well-formed best move. *)
Definition resultsWellFormed (s : State) : Prop :=
  (forall x ev, In x (pendingEvaluations s) -> evaluation (snd x) = Some ev ->
                wellFormed ev) /\
  (forall c r, outcome c s = Some (Resolved r) -> wellFormed r).

(** The entries of [s'] are entries of [s], or have no partial result. *)
Definition noNewPartial (s s' : State) : Prop :=
  forall x, In x (pendingEvaluations s') ->
            In x (pendingEvaluations s) \/ evaluation (snd x) = None.

(** ** The closures and timers of the engine of [src/lib/chessEngine.ts] *)

(** The promise a closure of that engine settles. *)
Definition legacyCall (t : Legacy.Timer) : nat :=
  Legacy.cl_promise (Legacy.t_callback t).

(** What every reachable state of that engine satisfies.  A call may have
    lost its entry in [pendingEvaluations] and still wait for its timer. *)
Record Armed (l : Legacy.State) : Prop := {
  armed_known : Known l;
  armed_unsettled : forall t, In t (Legacy.timers l) ->
                              Legacy.outcome (legacyCall t) l = None;
  armed_complete : forall c, c < Legacy.promises l -> Legacy.outcome c l = None ->
                             exists t, In t (Legacy.timers l) /\ legacyCall t = c;
  armed_pending : forall e, In e (Legacy.pendingEvaluations l) ->
                            Legacy.outcome (Legacy.cl_promise (snd e)) l = None;
  armed_entry : forall e e', In e (Legacy.pendingEvaluations l) ->
                  In e' (Legacy.pendingEvaluations l) ->
                  Legacy.cl_promise (snd e') = Legacy.cl_promise (snd e) ->
                  fst e' = Legacy.cl_evalId (snd e);
  armed_timer : forall t e', In t (Legacy.timers l) ->
                  In e' (Legacy.pendingEvaluations l) ->
                  Legacy.cl_promise (snd e') = legacyCall t ->
                  fst e' = Legacy.cl_evalId (Legacy.t_callback t);
  armed_keys : NoDup (JsMap.keys (Legacy.pendingEvaluations l))
}.

(** Calls of [getEvaluation] of that engine that follow each other. *)
Definition legacyCalls (reqs : list (string * nat)) : list Legacy.Event :=
  map (fun r => Legacy.GetEvaluation (fst r) (snd r)) reqs.

(** What one event of that engine does to the promise of call [c]: it
    leaves its outcome alone, or rejects it, or resolves it, and then the
    call was the one of the first entry of the map, which is empty
    afterwards. *)
Definition legacyMoves (c : nat) (l l' : Legacy.State) : Prop :=
  Legacy.outcome c l' = Legacy.outcome c l \/
  (Legacy.outcome c l = None /\
   ((exists err, Legacy.outcome c l' = Some (Rejected err)) \/
    (exists r k cl rest,
       Legacy.outcome c l' = Some (Resolved r) /\
       Legacy.pendingEvaluations l' = [] /\
       Legacy.pendingEvaluations l = (k, cl) :: rest /\
       Legacy.cl_promise cl = c))).

(** The calls [a], ..., [b - 1] of that engine were made at one time, and
    [d] is thirty seconds after it: at most one of them is resolved, none
    is resolved while one of them has its entry in the map, and their
    timers run until [d]. *)
Record Batch (a b : nat) (d : N) (l : Legacy.State) : Prop := {
  batch_made : b <= Legacy.promises l;
  batch_one : forall j j' r r', a <= j < b -> a <= j' < b ->
                Legacy.outcome j l = Some (Resolved r) ->
                Legacy.outcome j' l = Some (Resolved r') -> j = j';
  batch_entry : forall x j r, In x (Legacy.pendingEvaluations l) ->
                  a <= Legacy.cl_promise (snd x) < b -> a <= j < b ->
                  Legacy.outcome j l <> Some (Resolved r);
  batch_timers : forall t, In t (Legacy.timers l) -> a <= legacyCall t < b ->
                   Legacy.t_deadline t = d
}.

(** ** What the worker forwards and counts *)

(** The search ids on the lines the worker has forwarded, oldest first. *)
Definition searchIds (l : list WorkerEvent) : list nat :=
  flat_map (fun e => match e with
                     | Message _ (Some k) => [k]
                     | _ => []
                     end) l.

(** The requests that make a ready worker count a new search: 'evaluate'
    and 'stop'. *)
Definition countsAsSearch (e : StockfishWorker.Event) : bool :=
  match e with
  | StockfishWorker.Receives (Evaluate _ _) => true
  | StockfishWorker.Receives Stop => true
  | _ => false
  end.


(** ** Engine and worker at rest *)

(** Both sides are ready, no call is pending and no message is under way
    in either direction. *)
Definition quiescent (sys : System.State) (w : StockfishWorker.State) : Prop :=
  System.wk sys = Some w /\
  worker (System.main sys) = true /\ isReady (System.main sys) = true /\
  pendingEvaluations (System.main sys) = [] /\ outbox (System.main sys) = [] /\
  StockfishWorker.stockfish w = true /\ StockfishWorker.isReady w = true /\
  StockfishWorker.toMain w = [].

(** One request and the answer of Stockfish to it: a score line and a
    completion line. *)
Definition exchange (fen : string) (depth : nat) (info best : string) :
    list System.Action :=
  [System.Api (GetEvaluation fen depth); System.WorkerReceives;
   System.StockfishSays info; System.StockfishSays best;
   System.MainReceives; System.MainReceives].

(** ** Restarting *)




(** ** A line that arrives late *)



(** ** Squares *)

(** The name of a square of the board: a file letter and a rank digit. *)
Definition isSquare (sq : string) : bool :=
  match sq with
  | String f (String r EmptyString) => isFile f && isRank r
  | _ => false
  end.

(** Indices of a square of the board. *)
Definition onBoard (i : option ChessUtils.Indices) : Prop :=
  exists f r, i = Some (ChessUtils.mkIndices f (Some r)) /\
              (0 <= f <= 7)%Z /\ (0 <= r <= 7)%Z.

(** ** Sides *)

(** The other side. *)
Definition opposite (c : Color) : Color :=
  match c with White => Black | Black => White end.

(** ** Lines on the board *)

(** No piece stands on the square. *)
Definition vacant (game : ThreatAnalysis.Game) (square : string) : bool :=
  match ThreatAnalysis.get game square with
  | None => true
  | Some _ => false
  end.

(** Two different squares, given by file and rank, on a common file, rank
    or diagonal. *)
Definition aligned (ff fr tf tr : Z) : Prop :=
  (ff <> tf \/ fr <> tr) /\
  (Z.abs (tf - ff) = Z.abs (tr - fr) \/ tf = ff \/ tr = fr).

(** The squares strictly between two aligned squares, from the first
    towards the second. *)
Definition between (ff fr tf tr : Z) : list string :=
  let n := Z.to_nat (Z.max (Z.abs (tf - ff)) (Z.abs (tr - fr))) in
  map (fun k => ThreatAnalysis.squareName
                  (Some (ff + Z.of_nat k * Z.sgn (tf - ff))%Z)
                  (Some (fr + Z.of_nat k * Z.sgn (tr - fr))%Z))
      (seq 1 (n - 1)).

(** A game of which only the position is kept: the side to move and the
    pieces, without the list of legal moves. *)
Definition positionOnly (game : ThreatAnalysis.Game) : ThreatAnalysis.Game :=
  ThreatAnalysis.mkGame (ThreatAnalysis.turn game) (ThreatAnalysis.get game) [].

(** * Properties *)

(** ** Lists and maps *)

Section ListFacts.
Context {A B : Type}.

Lemma filter_all (f : A -> bool) (l : list A) :
  (forall x, In x l -> f x = true) -> filter f l = l.
Proof.
  induction l as [|a l IH]; simpl; intros H; [reflexivity|].
  rewrite (H a (or_introl eq_refl)). f_equal. apply IH. auto.
Qed.

Lemma filter_none (f : A -> bool) (l : list A) :
  (forall x, In x l -> f x = false) -> filter f l = [].
Proof.
  induction l as [|a l IH]; simpl; intros H; [reflexivity|].
  rewrite (H a (or_introl eq_refl)). apply IH. auto.
Qed.

Lemma filter_idem (f : A -> bool) (l : list A) :
  filter f (filter f l) = filter f l.
Proof.
  apply filter_all. intros x Hx. apply filter_In in Hx. tauto.
Qed.

Lemma NoDup_map_filter (g : A -> B) (f : A -> bool) (l : list A) :
  NoDup (map g l) -> NoDup (map g (filter f l)).
Proof.
  induction l as [|a l IH]; simpl; intros H; [constructor|].
  inversion H as [|? ? Hn Hd]; subst.
  destruct (f a); simpl; auto.
  constructor; auto.
  intros Hin. apply Hn. apply in_map_iff in Hin as [x [Hx Hin]].
  apply filter_In in Hin. apply in_map_iff. exists x. tauto.
Qed.

Lemma NoDup_map_inj (g : A -> B) (l : list A) (x y : A) :
  NoDup (map g l) -> In x l -> In y l -> g x = g y -> x = y.
Proof.
  induction l as [|a l IH]; simpl; intros H Hx Hy E; [contradiction|].
  inversion H as [|? ? Hn Hd]; subst.
  destruct Hx as [->|Hx], Hy as [->|Hy]; auto.
  - exfalso. apply Hn. rewrite E. now apply in_map.
  - exfalso. apply Hn. rewrite <- E. now apply in_map.
Qed.

Lemma NoDup_map_app_fresh (g : A -> B) (l : list A) (x : A) :
  NoDup (map g l) -> ~ In (g x) (map g l) -> NoDup (map g (l ++ [x])).
Proof.
  intros H Hn. rewrite map_app. simpl.
  apply NoDup_app; auto.
  - constructor; [intros []|constructor].
  - intros b Hb [<-|[]]. contradiction.
Qed.
End ListFacts.

Section MapFacts.
Context {V : Type}.
Implicit Types m : JsMap.t V.

Lemma get_In k m v : JsMap.get k m = Some v -> In (k, v) m.
Proof.
  induction m as [|[k' v'] m IH]; simpl; [discriminate|].
  destruct (k =? k') eqn:E.
  - apply Nat.eqb_eq in E. subst. intros [= ->]. now left.
  - intros H. right. auto.
Qed.

Lemma get_None k m : JsMap.get k m = None <-> ~ In k (JsMap.keys m).
Proof.
  induction m as [|[k' v'] m IH]; simpl; [tauto|].
  destruct (k =? k') eqn:E.
  - apply Nat.eqb_eq in E. subst. split; [discriminate|]. intros H. exfalso. auto.
  - apply Nat.eqb_neq in E. rewrite IH. split; intros H.
    + intros [H1|H1]; [congruence|auto].
    + auto.
Qed.

Lemma In_get k v m :
  NoDup (JsMap.keys m) -> In (k, v) m -> JsMap.get k m = Some v.
Proof.
  induction m as [|[k' v'] m IH]; simpl; intros H Hin; [contradiction|].
  inversion H as [|? ? Hn Hd]; subst.
  destruct Hin as [[= -> ->]|Hin].
  - now rewrite Nat.eqb_refl.
  - destruct (k =? k') eqn:E; auto.
    apply Nat.eqb_eq in E. subst. exfalso. apply Hn.
    change k' with (fst (k', v)). now apply in_map.
Qed.

Lemma In_key k v m : In (k, v) m -> In k (JsMap.keys m).
Proof. intros H. change k with (fst (k, v)). now apply in_map. Qed.

Lemma key_In k m : In k (JsMap.keys m) -> exists v, In (k, v) m.
Proof.
  intros H. apply in_map_iff in H as [[k' v] [E H]]. simpl in E. subst.
  now exists v.
Qed.

Lemma keys_functional k v v' m :
  NoDup (JsMap.keys m) -> In (k, v) m -> In (k, v') m -> v = v'.
Proof.
  intros H H1 H2.
  assert (E : (k, v) = (k, v')) by (eapply NoDup_map_inj; eauto).
  congruence.
Qed.

Lemma has_true k m : JsMap.has k m = true <-> In k (JsMap.keys m).
Proof.
  unfold JsMap.has. destruct (JsMap.get k m) eqn:E.
  - split; auto. intros _. apply get_In in E. eapply In_key; eauto.
  - split; [discriminate|]. intros H. apply get_None in E. contradiction.
Qed.

Lemma In_delete k e m :
  In e (JsMap.delete k m) <-> In e m /\ fst e <> k.
Proof.
  unfold JsMap.delete. rewrite filter_In.
  destruct (k =? fst e) eqn:E; simpl.
  - apply Nat.eqb_eq in E. split; [intros [_ [=]]|intros [_ H]; congruence].
  - apply Nat.eqb_neq in E. split; intros [H _]; split; auto.
Qed.

Lemma delete_idem k m : JsMap.delete k (JsMap.delete k m) = JsMap.delete k m.
Proof. apply filter_idem. Qed.

Lemma delete_absent k m : ~ In k (JsMap.keys m) -> JsMap.delete k m = m.
Proof.
  intros H. apply filter_all. intros [k' v] Hin. simpl.
  destruct (k =? k') eqn:E; auto.
  apply Nat.eqb_eq in E. subst. exfalso. apply H. eapply In_key; eauto.
Qed.

Lemma set_fresh k v m : ~ In k (JsMap.keys m) -> JsMap.set k v m = m ++ [(k, v)].
Proof.
  induction m as [|[k' v'] m IH]; simpl; intros H; [reflexivity|].
  destruct (k =? k') eqn:E.
  - apply Nat.eqb_eq in E. subst. exfalso. auto.
  - f_equal. apply IH. auto.
Qed.

Lemma keys_set k v m :
  In k (JsMap.keys m) -> JsMap.keys (JsMap.set k v m) = JsMap.keys m.
Proof.
  induction m as [|[k' v'] m IH]; simpl; intros H; [contradiction|].
  destruct (k =? k') eqn:E; simpl.
  - apply Nat.eqb_eq in E. now subst.
  - f_equal. apply IH. destruct H as [H|H]; auto.
    apply Nat.eqb_neq in E. congruence.
Qed.

Lemma In_set k v e m : In e (JsMap.set k v m) -> e = (k, v) \/ In e m.
Proof.
  induction m as [|[k' v'] m IH]; cbn [JsMap.set].
  - intros [<-|[]]. now left.
  - destruct (k =? k').
    + intros [<-|H]; [now left|right; now right].
    + intros [<-|H]; [right; now left|].
      destruct (IH H); [now left|right; now right].
Qed.

Lemma map_set {B} (g : nat * V -> B) k v v0 m :
  JsMap.get k m = Some v0 -> g (k, v) = g (k, v0) ->
  map g (JsMap.set k v m) = map g m.
Proof.
  induction m as [|[k' v'] m IH]; simpl; [discriminate|].
  destruct (k =? k') eqn:E; simpl.
  - apply Nat.eqb_eq in E. subst. intros [= ->] ->. reflexivity.
  - intros H1 H2. f_equal. auto.
Qed.
End MapFacts.

Lemma map_filter_comm {A B} (g : A -> B) (f : A -> bool) (f' : B -> bool) l :
  (forall x, In x l -> f x = f' (g x)) ->
  map g (filter f l) = filter f' (map g l).
Proof.
  induction l as [|a l IH]; simpl; intros H; [reflexivity|].
  rewrite <- (H a (or_introl eq_refl)).
  destruct (f a); simpl; rewrite IH; auto.
Qed.

Lemma map_eq_pointwise {A B} (g h : A -> B) l :
  map g l = map h l -> forall x, In x l -> g x = h x.
Proof.
  induction l as [|a l IH]; simpl; intros E x Hx; [contradiction|].
  injection E as E1 E2. destruct Hx as [<-|Hx]; auto.
Qed.

(** ** The mapping from search ids to evaluation ids *)

Lemma deleteFirst_subset evalId m e :
  In e (deleteFirstMappingTo evalId m) -> In e m.
Proof.
  induction m as [|[sid eid] m IH]; simpl; [tauto|].
  destruct (eid =? evalId); simpl; [tauto|].
  intros [H|H]; auto.
Qed.

Lemma deleteFirst_absent evalId m :
  ~ In evalId (JsMap.values m) -> deleteFirstMappingTo evalId m = m.
Proof.
  induction m as [|[sid eid] m IH]; simpl; intros H; [reflexivity|].
  destruct (eid =? evalId) eqn:E.
  - apply Nat.eqb_eq in E. subst. exfalso. auto.
  - f_equal. apply IH. auto.
Qed.

Lemma deleteFirst_values evalId m :
  NoDup (JsMap.values m) ->
  forall e, In e (JsMap.values (deleteFirstMappingTo evalId m)) <->
            In e (JsMap.values m) /\ e <> evalId.
Proof.
  induction m as [|[sid eid] m IH]; simpl; intros H e; [tauto|].
  inversion H as [|? ? Hn Hd]; subst.
  destruct (eid =? evalId) eqn:E; simpl.
  - apply Nat.eqb_eq in E. subst. split.
    + intros Hin. split; auto. intros ->. contradiction.
    + intros [[H1|H1] H2]; [congruence|auto].
  - apply Nat.eqb_neq in E. rewrite (IH Hd e). split.
    + intros [H1|[H1 H2]]; subst; auto.
    + intros [[H1|H1] H2]; auto.
Qed.

Lemma deleteFirst_NoDup {B} (g : nat * nat -> B) evalId m :
  NoDup (map g m) -> NoDup (map g (deleteFirstMappingTo evalId m)).
Proof.
  induction m as [|[sid eid] m IH]; simpl; intros H; [constructor|].
  inversion H as [|? ? Hn Hd]; subst.
  destruct (eid =? evalId); simpl; auto.
  constructor; auto.
  intros Hin. apply Hn. apply in_map_iff in Hin as [x [Hx Hin]].
  apply in_map_iff. exists x. split; auto. eapply deleteFirst_subset; eauto.
Qed.

Lemma isMapped_true eid s :
  isMapped eid s = true <-> In eid (JsMap.values (searchIdToEvalId s)).
Proof.
  unfold isMapped. rewrite existsb_exists. split.
  - intros [x [Hx E]]. apply Nat.eqb_eq in E. now subst.
  - intros H. exists eid. split; auto. apply Nat.eqb_refl.
Qed.

Lemma isMapped_false eid s :
  isMapped eid s = false <-> ~ In eid (JsMap.values (searchIdToEvalId s)).
Proof.
  rewrite <- isMapped_true. destruct (isMapped eid s); split; congruence.
Qed.

(** ** Promises *)

Lemma outcome_settle c c' o s :
  outcome c' (settle c o s) =
  if c' =? c then match outcome c s with Some o' => Some o' | None => Some o end
  else outcome c' s.
Proof.
  unfold settle. destruct (outcome c s) eqn:E.
  - destruct (c' =? c) eqn:E'; auto. apply Nat.eqb_eq in E'. now subst.
  - unfold outcome in *. simpl. destruct (c' =? c); auto.
Qed.

(** ** The invariant *)

Lemma WF_initial : WF initial.
Proof.
  split; simpl; try constructor; try tauto; try discriminate; try lia.
Qed.

Lemma pending_closure s k p :
  WF s -> In (k, p) (pendingEvaluations s) ->
  In (resolvers p) (closures s) /\ cl_evalId (resolvers p) = k.
Proof.
  intros W H. split.
  - unfold closures. apply in_map_iff. exists (k, p). auto.
  - symmetry. apply (map_eq_pointwise fst (fun e => cl_evalId (resolvers (snd e)))
                       (pendingEvaluations s)) with (x := (k, p)); auto.
    pose proof (wf_closure s W) as E. unfold closures, JsMap.keys in E.
    rewrite map_map in E. exact E.
Qed.

Lemma closure_pending s cl :
  WF s -> In cl (closures s) ->
  exists p, In (cl_evalId cl, p) (pendingEvaluations s) /\ resolvers p = cl.
Proof.
  intros W H. apply in_map_iff in H as [[k p] [E H]]. simpl in E.
  destruct (pending_closure s k p W H) as [_ Hk]. subst. eauto.
Qed.

Lemma closure_by_evalId s c c' :
  WF s -> In c (closures s) -> In c' (closures s) ->
  cl_evalId c = cl_evalId c' -> c = c'.
Proof.
  intros W. apply NoDup_map_inj.
  rewrite <- (wf_closure s W). apply (wf_keys s W).
Qed.

Lemma closure_by_promise s c c' :
  WF s -> In c (closures s) -> In c' (closures s) ->
  cl_promise c = cl_promise c' -> c = c'.
Proof. intros W. apply NoDup_map_inj. apply (wf_calls s W). Qed.

Lemma closure_key s cl :
  WF s -> In cl (closures s) -> In (cl_evalId cl) (JsMap.keys (pendingEvaluations s)).
Proof.
  intros W H. rewrite (wf_closure s W). now apply in_map.
Qed.

Lemma key_closure s k :
  WF s -> In k (JsMap.keys (pendingEvaluations s)) ->
  exists cl, In cl (closures s) /\ cl_evalId cl = k.
Proof.
  intros W H. rewrite (wf_closure s W) in H.
  apply in_map_iff in H as [cl [E H]]. eauto.
Qed.

(** ** What [wrapped] does *)

Section Wrapped.
Variables (cl : Resolvers) (o : Outcome) (s : State).

Lemma wrapped_pending :
  pendingEvaluations (wrapped cl o s) =
  JsMap.delete (cl_evalId cl) (pendingEvaluations s).
Proof. unfold wrapped, settle, outcome. simpl. now destruct lookup. Qed.

Lemma wrapped_mapping :
  searchIdToEvalId (wrapped cl o s) =
  deleteFirstMappingTo (cl_evalId cl) (searchIdToEvalId s).
Proof. unfold wrapped, settle, outcome. simpl. now destruct lookup. Qed.

Lemma wrapped_timers :
  timers (wrapped cl o s) =
  filter (fun t => negb (timerCall t =? cl_promise cl)) (timers s).
Proof. unfold wrapped, settle, outcome. simpl. now destruct lookup. Qed.

Lemma wrapped_outcome c :
  outcome c (wrapped cl o s) =
  if c =? cl_promise cl
  then match outcome c s with Some o' => Some o' | None => Some o end
  else outcome c s.
Proof.
  unfold wrapped. rewrite outcome_settle.
  destruct (c =? cl_promise cl) eqn:E; auto.
  apply Nat.eqb_eq in E. now subst.
Qed.

Lemma wrapped_frame :
  worker (wrapped cl o s) = worker s /\
  isReady (wrapped cl o s) = isReady s /\
  evaluationId (wrapped cl o s) = evaluationId s /\
  promises (wrapped cl o s) = promises s /\
  clock (wrapped cl o s) = clock s /\
  outbox (wrapped cl o s) = outbox s.
Proof. unfold wrapped, settle, outcome. simpl. now destruct lookup. Qed.

Hypothesis W : WF s.
Hypothesis Hcl : In cl (closures s).

Lemma wrapped_closures c :
  In c (closures (wrapped cl o s)) <-> In c (closures s) /\ c <> cl.
Proof.
  unfold closures at 1. rewrite wrapped_pending, in_map_iff. split.
  - intros [[k p] [E H]]. simpl in E. subst c.
    apply In_delete in H as [H Hk]. simpl in Hk.
    destruct (pending_closure s k p W H) as [H1 H2].
    split; auto. intros E. apply Hk. now rewrite <- H2, E.
  - intros [H Hne]. destruct (closure_pending s c W H) as [p [Hp E]].
    exists (cl_evalId c, p). split; auto. apply In_delete. split; auto.
    simpl. intros E'. apply Hne. eapply closure_by_evalId; eauto.
Qed.

Lemma wrapped_keys k :
  In k (JsMap.keys (pendingEvaluations (wrapped cl o s))) <->
  In k (JsMap.keys (pendingEvaluations s)) /\ k <> cl_evalId cl.
Proof.
  rewrite wrapped_pending. split.
  - intros H. apply key_In in H as [v H]. apply In_delete in H as [H Hk].
    split; auto. eapply In_key; eauto.
  - intros [H Hk]. apply key_In in H as [v H].
    apply In_key with (v := v). apply In_delete. auto.
Qed.

Lemma wrapped_WF : WF (wrapped cl o s).
Proof.
  destruct wrapped_frame as (Fw & Fr & Fe & Fp & Fc & Fo).
  split.
  - unfold closures. rewrite map_map. unfold JsMap.keys.
    apply map_ext_in. intros [k p] H. simpl.
    rewrite wrapped_pending in H. apply In_delete in H as [H _].
    symmetry. apply (pending_closure s k p W H).
  - rewrite wrapped_pending. apply NoDup_map_filter, (wf_keys s W).
  - unfold closures. rewrite wrapped_pending, map_map.
    apply NoDup_map_filter. rewrite <- map_map. apply (wf_calls s W).
  - intros k H. apply wrapped_keys in H as [H _]. rewrite Fe.
    now apply (wf_bound s W).
  - intros t H. rewrite wrapped_timers in H. apply filter_In in H as [H E].
    apply wrapped_closures. split; [now apply (wf_timer_pending s W)|].
    intros E'. unfold timerCall in E. rewrite E', Nat.eqb_refl in E. discriminate.
  - intros c H. apply wrapped_closures in H as [H Hne].
    destruct (wf_pending_timer s W c H) as [t [Ht E]].
    exists t. split; auto. rewrite wrapped_timers. apply filter_In. split; auto.
    unfold timerCall. rewrite E. apply negb_true_iff, Nat.eqb_neq.
    intros E'. apply Hne. eapply closure_by_promise; eauto.
  - rewrite wrapped_timers. apply NoDup_map_filter, (wf_timers s W).
  - intros c H. apply wrapped_closures in H as [H Hne].
    rewrite wrapped_outcome.
    destruct (cl_promise c =? cl_promise cl) eqn:E.
    + apply Nat.eqb_eq in E. exfalso. apply Hne. eapply closure_by_promise; eauto.
    + now apply (wf_unsettled s W).
  - intros c H. apply wrapped_closures in H as [H _]. rewrite Fp.
    now apply (wf_created s W).
  - intros c o'. rewrite wrapped_outcome, Fp.
    destruct (c =? cl_promise cl) eqn:E.
    + apply Nat.eqb_eq in E. subst c. intros _. now apply (wf_created s W).
    + apply (wf_settled s W).
  - intros c. rewrite wrapped_outcome, Fp.
    destruct (c =? cl_promise cl) eqn:E.
    + destruct (outcome c s); discriminate.
    + intros H1 H2. pose proof (wf_complete s W c H1 H2) as H.
      apply in_map_iff in H as [c' [E' H]]. apply in_map_iff. exists c'.
      split; auto. apply wrapped_closures. split; auto.
      intros ->. apply Nat.eqb_neq in E. congruence.
  - intros e. rewrite wrapped_mapping.
    rewrite (deleteFirst_values _ _ (wf_map_inj s W)). intros [H Hne].
    apply wrapped_keys. split; auto. now apply (wf_map_vals s W).
  - rewrite wrapped_mapping. apply deleteFirst_NoDup, (wf_map_inj s W).
  - rewrite wrapped_mapping. apply deleteFirst_NoDup, (wf_map_keys s W).
  - rewrite Fw, Fr. intros H. apply (wf_ready s W). intros E. apply H.
    rewrite wrapped_pending, E. reflexivity.
  - rewrite Fw, Fe. apply (wf_noworker s W).
Qed.

Lemma wrapped_settles : outcome (cl_promise cl) (wrapped cl o s) = Some o.
Proof.
  rewrite wrapped_outcome, Nat.eqb_refl, (wf_unsettled s W cl Hcl). reflexivity.
Qed.

Lemma wrapped_removes :
  ~ In (cl_evalId cl) (JsMap.keys (pendingEvaluations (wrapped cl o s))) /\
  ~ In (cl_evalId cl) (JsMap.values (searchIdToEvalId (wrapped cl o s))).
Proof.
  split.
  - intros H. apply wrapped_keys in H. tauto.
  - rewrite wrapped_mapping.
    rewrite (deleteFirst_values _ _ (wf_map_inj s W)). tauto.
Qed.
End Wrapped.

(** ** Loops that reject pending evaluations

    [getEvaluation], [stopEvaluation] and [destroy] each walk over a list
    and reject what is still pending under the keys they meet. *)

Lemma frame_refl s : frame s s.
Proof. repeat split. Qed.

Lemma frame_trans s1 s2 s3 : frame s1 s2 -> frame s2 s3 -> frame s1 s3.
Proof.
  unfold frame. intros (A1 & A2 & A3 & A4 & A5 & A6) (B1 & B2 & B3 & B4 & B5 & B6).
  repeat split; congruence.
Qed.

Section RejectLoop.
Context {X : Type}.
Variables (key : X -> nat) (o : Outcome) (f : State -> X -> State)
          (ok : State -> X -> Prop).

Hypothesis f_absent : forall s x,
  WF s -> ok s x -> ~ In (key x) (JsMap.keys (pendingEvaluations s)) -> f s x = s.
Hypothesis f_present : forall s x,
  WF s -> ok s x -> In (key x) (JsMap.keys (pendingEvaluations s)) ->
  exists cl, In cl (closures s) /\ cl_evalId cl = key x /\ f s x = wrapped cl o s.
Hypothesis ok_wrapped : forall s x cl,
  WF s -> In cl (closures s) -> ok s x -> ok (wrapped cl o s) x.

Lemma reject_loop L : forall s,
  WF s -> (forall x, In x L -> ok s x) ->
  let s' := fold_left f L s in
  WF s' /\ frame s s' /\
  (forall c, In c (closures s') <->
             In c (closures s) /\ ~ In (cl_evalId c) (map key L)) /\
  (forall cl, In cl (closures s) -> In (cl_evalId cl) (map key L) ->
              outcome (cl_promise cl) s' = Some o) /\
  (forall c, outcome c s' = outcome c s \/
             (outcome c s = None /\ outcome c s' = Some o)) /\
  (forall e, In e (JsMap.values (searchIdToEvalId s')) ->
             In e (JsMap.values (searchIdToEvalId s))).
Proof.
  induction L as [|x L IH]; intros s W Hok; simpl.
  - split; [assumption|]. split; [apply frame_refl|].
    split; [intros c; tauto|]. split; [intros cl _ []|]. split; auto.
  - assert (Hx : ok s x) by (apply Hok; now left).
    destruct (in_dec Nat.eq_dec (key x) (JsMap.keys (pendingEvaluations s)))
      as [Hin|Hout].
    + destruct (f_present s x W Hx Hin) as (cl & Hcl & Hk & ->).
      pose proof (wrapped_WF cl o s W Hcl) as W1.
      destruct (IH (wrapped cl o s) W1) as (W' & F & C & O & K & M).
      { intros y Hy. apply ok_wrapped; auto. apply Hok. now right. }
      split; [assumption|].
      split; [eapply frame_trans; [apply wrapped_frame|exact F]|].
      split; [|split; [|split]].
      * intros c. rewrite C, (wrapped_closures cl o s W Hcl). split.
        -- intros [[H1 H2] H3]. split; auto. intros [E|H4]; auto.
           apply H2. apply (closure_by_evalId s c cl W H1 Hcl). congruence.
        -- intros [H1 H2]. split; [split|]; auto. intros ->. apply H2. now left.
      * intros c Hc [E|Hin'].
        -- assert (c = cl) by (apply (closure_by_evalId s c cl W Hc Hcl); congruence).
           subst c. pose proof (wrapped_settles cl o s W Hcl) as S1.
           destruct (K (cl_promise cl)) as [E'|[E' _]]; congruence.
        -- destruct (Nat.eq_dec (cl_promise c) (cl_promise cl)) as [E|Hne].
           ++ assert (c = cl) by (apply (closure_by_promise s c cl W Hc Hcl E)).
              subst c. pose proof (wrapped_settles cl o s W Hcl) as S1.
              destruct (K (cl_promise cl)) as [E'|[E' _]]; congruence.
           ++ apply O; auto. apply wrapped_closures; auto. split; auto.
              intros ->. auto.
      * intros c. destruct (K c) as [E|[E1 E2]];
          rewrite wrapped_outcome in *;
          destruct (c =? cl_promise cl) eqn:Ec.
        -- apply Nat.eqb_eq in Ec. subst c.
           rewrite (wf_unsettled s W cl Hcl) in *. right. auto.
        -- left. assumption.
        -- apply Nat.eqb_eq in Ec. subst c.
           rewrite (wf_unsettled s W cl Hcl) in E1. discriminate.
        -- right. auto.
      * intros e He. apply M in He. rewrite wrapped_mapping in He.
        apply in_map_iff in He as [y [Ey Hy]]. apply deleteFirst_subset in Hy.
        apply in_map_iff. eauto.
    + rewrite (f_absent s x W Hx Hout).
      destruct (IH s W) as (W' & F & C & O & K & M).
      { intros y Hy. apply Hok. now right. }
      split; [assumption|]. split; [assumption|].
      split; [|split; [|split]]; auto.
      * intros c. rewrite C. split.
        -- intros [H1 H2]. split; auto. intros [E|H3]; auto.
           apply Hout. rewrite E. now apply closure_key.
        -- intros [H1 H2]. split; auto.
      * intros c Hc [E|Hin']; auto.
        exfalso. apply Hout. rewrite E. now apply closure_key.
Qed.
End RejectLoop.

Lemma setPending_same s : setPending (pendingEvaluations s) s = s.
Proof. now destruct s. Qed.

Lemma closures_nil s : closures s = [] -> pendingEvaluations s = [].
Proof. unfold closures. apply map_eq_nil. Qed.

(** *** [forEach(({ reject }) => reject(error))] *)

Lemma rejectEach_spec err s :
  WF s ->
  let s' := rejectEach err s in
  WF s' /\ frame s s' /\ pendingEvaluations s' = [] /\
  (forall cl, In cl (closures s) ->
              outcome (cl_promise cl) s' = Some (Rejected err)) /\
  (forall c, outcome c s' = outcome c s \/
             (outcome c s = None /\ outcome c s' = Some (Rejected err))) /\
  (forall e, In e (JsMap.values (searchIdToEvalId s')) ->
             In e (JsMap.values (searchIdToEvalId s))).
Proof.
  intros W. unfold rejectEach.
  set (f := fun (s : State) (e : nat * Pending) =>
              if JsMap.has (fst e) (pendingEvaluations s)
              then wrapped (resolvers (snd e)) (Rejected err) s else s).
  set (ok := fun (s : State) (e : nat * Pending) =>
               cl_evalId (resolvers (snd e)) = fst e /\
               (In (fst e) (JsMap.keys (pendingEvaluations s)) ->
                In (resolvers (snd e)) (closures s))).
  destruct (reject_loop fst (Rejected err) f ok) with (L := pendingEvaluations s) (s := s)
    as (W' & F & C & O & K & M); auto.
  - intros s0 x W0 _ Hout. unfold f.
    destruct (JsMap.has (fst x) (pendingEvaluations s0)) eqn:E; auto.
    apply has_true in E. contradiction.
  - intros s0 x W0 [H1 H2] Hin. exists (resolvers (snd x)). unfold f.
    apply has_true in Hin as Hh. rewrite Hh. auto.
  - intros s0 x cl W0 Hcl [H1 H2]. split; auto. intros Hin.
    apply wrapped_keys in Hin as [Hin Hne].
    apply wrapped_closures; auto. split; auto. intros E. apply Hne.
    now rewrite <- E.
  - intros [k p] Hin. destruct (pending_closure s k p W Hin). split; simpl; auto.
  - split; [assumption|]. split; [assumption|].
    split; [|split; [|split]]; auto.
    + apply closures_nil.
      assert (N : forall c, ~ In c (closures (fold_left f (pendingEvaluations s) s))).
      { intros c Hc. apply C in Hc as [H1 H2]. apply H2. now apply closure_key. }
      destruct (closures (fold_left f (pendingEvaluations s) s)) as [|c l];
        [reflexivity|].
      exfalso. apply (N c). now left.
    + intros cl Hcl. apply O; auto. now apply closure_key.
Qed.

Lemma closures_cleared s :
  closures (setMapping [] (setPending [] s)) = [].
Proof. reflexivity. Qed.

Lemma WF_cleared s :
  WF s -> pendingEvaluations s = [] -> WF (setMapping [] (setPending [] s)).
Proof.
  intros W E. destruct W. split; simpl; unfold closures in *; simpl;
    rewrite ?E in *; simpl in *; auto; try constructor; try tauto.
Qed.

Lemma stopEvaluation_spec s :
  WF s -> worker s = true -> isReady s = true ->
  let s' := stopEvaluation s in
  WF s' /\ pendingEvaluations s' = [] /\ searchIdToEvalId s' = [] /\
  (forall cl, In cl (closures s) ->
              outcome (cl_promise cl) s' = Some (Rejected EvaluationStopped)) /\
  (forall c, outcome c s' = outcome c s \/
             (outcome c s = None /\
              outcome c s' = Some (Rejected EvaluationStopped))) /\
  worker s' = true /\ isReady s' = true /\
  evaluationId s' = evaluationId s /\ promises s' = promises s /\
  timers s' = [] /\ clock s' = clock s.
Proof.
  intros W Hw Hr. unfold stopEvaluation. rewrite Hw, Hr. simpl.
  assert (W0 : WF (postMessage Stop s)) by (destruct W; split; auto).
  destruct (rejectEach_spec EvaluationStopped (postMessage Stop s) W0)
    as (W' & F & P & O & K & M).
  destruct F as (F1 & F2 & F3 & F4 & F5 & F6). simpl in *.
  split; [now apply WF_cleared|].
  split; [reflexivity|]. split; [reflexivity|].
  split; [exact O|]. split; [exact K|].
  repeat split; try congruence.
  destruct (timers (rejectEach EvaluationStopped (postMessage Stop s))) as [|t l] eqn:E;
    [reflexivity|].
  exfalso. pose proof (wf_timer_pending _ W' t) as H. rewrite E in H.
  specialize (H (or_introl eq_refl)). unfold closures in H. rewrite P in H.
  exact H.
Qed.

Lemma no_pending_no_timers s :
  WF s -> pendingEvaluations s = [] -> timers s = [].
Proof.
  intros W E. destruct (timers s) as [|t l] eqn:Et; [reflexivity|].
  exfalso. pose proof (wf_timer_pending s W t) as H. rewrite Et in H.
  specialize (H (or_introl eq_refl)). unfold closures in H. now rewrite E in H.
Qed.

Lemma WF_idle s w r n c ob :
  WF s -> pendingEvaluations s = [] -> (w = false -> n = 0) ->
  WF (mkState w r [] n [] (promises s) (settled s) (timers s) c ob).
Proof.
  intros W E Hn. pose proof (no_pending_no_timers s W E) as Et.
  destruct W. unfold closures, outcome in *. rewrite E in *. rewrite Et in *.
  split; unfold closures, outcome; simpl in *; auto; try constructor; try tauto.
Qed.

Lemma destroy_spec s :
  WF s -> worker s = true ->
  let s' := destroy s in
  WF s' /\ pendingEvaluations s' = [] /\ searchIdToEvalId s' = [] /\
  evaluationId s' = 0 /\ worker s' = false /\ isReady s' = false /\
  promises s' = promises s /\ timers s' = [] /\
  (forall c, outcome c s' = outcome c s \/
             (outcome c s = None /\
              (outcome c s' = Some (Rejected EvaluationStopped) \/
               outcome c s' = Some (Rejected WorkerTerminated)))).
Proof.
  intros W Hw. unfold destroy. rewrite Hw.
  assert (H1 : WF (stopEvaluation s) /\ promises (stopEvaluation s) = promises s /\
               forall c, outcome c (stopEvaluation s) = outcome c s \/
                 (outcome c s = None /\
                  outcome c (stopEvaluation s) = Some (Rejected EvaluationStopped))).
  { destruct (isReady s) eqn:Hr.
    - destruct (stopEvaluation_spec s W Hw Hr) as (A & _ & _ & _ & K & _ & _ & _ & P & _).
      auto.
    - unfold stopEvaluation. rewrite Hw, Hr. simpl. auto. }
  destruct H1 as (W1 & P1 & K1).
  destruct (rejectEach_spec WorkerTerminated (stopEvaluation s) W1)
    as (W2 & F & P & _ & K2 & _).
  destruct F as (F1 & F2 & F3 & F4 & F5 & F6).
  set (s2 := rejectEach WorkerTerminated (stopEvaluation s)) in *.
  pose proof (no_pending_no_timers s2 W2 P) as Et.
  simpl. split; [|repeat split; try congruence].
  - apply (WF_idle s2 false false 0 (clock s2) (outbox s2) W2 P). auto.
  - intros c. unfold outcome in *. simpl.
    destruct (K2 c) as [E2|[E2 E2']], (K1 c) as [E1|[E1 E1']].
    + left. congruence.
    + right. split; auto. left. congruence.
    + right. split; [congruence|]. right. congruence.
    + congruence.
Qed.

Lemma WF_destroy s : WF s -> WF (destroy s).
Proof.
  intros W. destruct (worker s) eqn:Hw.
  - now apply destroy_spec.
  - unfold destroy. now rewrite Hw.
Qed.

Lemma WF_stopEvaluation s : WF s -> WF (stopEvaluation s).
Proof.
  intros W. destruct (worker s && isReady s) eqn:E.
  - apply andb_true_iff in E as [Hw Hr]. now apply stopEvaluation_spec.
  - unfold stopEvaluation. now rewrite E.
Qed.

(** *** The rejections at the start of [getEvaluation] *)

Lemma rejectPrevious_present s k p :
  WF s -> In (k, p) (pendingEvaluations s) ->
  rejectPrevious s k = wrapped (resolvers p) (Rejected CancelledByNewRequest) s.
Proof.
  intros W H. unfold rejectPrevious.
  rewrite (In_get k p _ (wf_keys s W) H).
  destruct (pending_closure s k p W H) as [_ E].
  set (s1 := wrapped (resolvers p) (Rejected CancelledByNewRequest) s).
  assert (H1 : JsMap.delete k (pendingEvaluations s1) = pendingEvaluations s1).
  { unfold s1. rewrite wrapped_pending, E. apply delete_idem. }
  rewrite H1. apply setPending_same.
Qed.

Lemma rejectPrevious_spec L s :
  WF s ->
  let s' := fold_left rejectPrevious L s in
  WF s' /\ frame s s' /\
  (forall c, In c (closures s') <-> In c (closures s) /\ ~ In (cl_evalId c) L) /\
  (forall cl, In cl (closures s) -> In (cl_evalId cl) L ->
              outcome (cl_promise cl) s' = Some (Rejected CancelledByNewRequest)) /\
  (forall c, outcome c s' = outcome c s \/
             (outcome c s = None /\
              outcome c s' = Some (Rejected CancelledByNewRequest))) /\
  (forall e, In e (JsMap.values (searchIdToEvalId s')) ->
             In e (JsMap.values (searchIdToEvalId s))).
Proof.
  intros W.
  destruct (reject_loop (fun k : nat => k) (Rejected CancelledByNewRequest)
              rejectPrevious (fun _ _ => True)) with (L := L) (s := s)
    as (W' & F & C & O & K & M); auto.
  - intros s0 k W0 _ Hout. unfold rejectPrevious.
    apply get_None in Hout. now rewrite Hout.
  - intros s0 k W0 _ Hin. apply key_In in Hin as [p Hp].
    exists (resolvers p). destruct (pending_closure s0 k p W0 Hp).
    repeat split; auto. now apply rejectPrevious_present.
  - rewrite map_id in *.
    split; [exact W'|]. split; [exact F|]. split; [exact C|].
    split; [exact O|]. split; [exact K|exact M].
Qed.

Lemma rejectPrevious_commute n m L : forall s,
  fold_left rejectPrevious L (setEvaluationId n (setPromises m s)) =
  setEvaluationId n (setPromises m (fold_left rejectPrevious L s)).
Proof.
  induction L as [|k L IH]; intros s; simpl; [reflexivity|].
  rewrite <- IH. f_equal.
  unfold rejectPrevious. simpl.
  destruct (JsMap.get k (pendingEvaluations s)); [|reflexivity].
  unfold wrapped, settle, outcome. simpl. now destruct lookup.
Qed.

Lemma rejectPrevious_frame L : forall s, frame s (fold_left rejectPrevious L s).
Proof.
  induction L as [|k L IH]; intros s; simpl; [apply frame_refl|].
  eapply frame_trans; [|apply IH].
  unfold rejectPrevious. destruct (JsMap.get k (pendingEvaluations s)).
  - apply (wrapped_frame (resolvers p) (Rejected CancelledByNewRequest) s).
  - apply frame_refl.
Qed.

(** *** The new entry of [getEvaluation] *)

Lemma getEvaluation_ready fen depth s :
  worker s = true -> isReady s = true ->
  getEvaluation fen depth s =
  enqueue fen depth (fold_left rejectPrevious (previousUnmappedEvaluations s) s).
Proof.
  intros Hw Hr. unfold getEvaluation. simpl. rewrite Hw, Hr. simpl.
  change (previousUnmappedEvaluations
            (setEvaluationId (S (evaluationId s)) (setPromises (S (promises s)) s)))
    with (previousUnmappedEvaluations s).
  rewrite rejectPrevious_commute.
  destruct (rejectPrevious_frame (previousUnmappedEvaluations s) s)
    as (_ & _ & Fe & Fp & _ & _).
  unfold enqueue. simpl. rewrite Fe, Fp. reflexivity.
Qed.

Lemma getEvaluation_not_ready fen depth s :
  worker s && isReady s = false ->
  getEvaluation fen depth s =
  settle (promises s) (Rejected NotInitialized) (setPromises (S (promises s)) s).
Proof.
  intros H. unfold getEvaluation. simpl.
  destruct (worker s), (isReady s); simpl in *; try discriminate; reflexivity.
Qed.

Section Enqueue.
Variables (fen : string) (depth : nat) (s : State).
Hypothesis W : WF s.

Let evalId := S (evaluationId s).
Let cl := mkResolvers evalId (promises s).

Lemma fresh_evalId : ~ In evalId (JsMap.keys (pendingEvaluations s)).
Proof. intros H. apply (wf_bound s W) in H. unfold evalId in H. lia. Qed.

Lemma fresh_promise : outcome (promises s) s = None.
Proof.
  destruct (outcome (promises s) s) eqn:E; auto.
  apply (wf_settled s W) in E. lia.
Qed.

Lemma enqueue_pending :
  pendingEvaluations (enqueue fen depth s) =
  pendingEvaluations s ++ [(evalId, mkPending cl None)].
Proof. unfold enqueue. simpl. apply set_fresh, fresh_evalId. Qed.

Lemma enqueue_closures : closures (enqueue fen depth s) = closures s ++ [cl].
Proof. unfold closures. rewrite enqueue_pending, map_app. reflexivity. Qed.

Lemma enqueue_keys :
  JsMap.keys (pendingEvaluations (enqueue fen depth s)) =
  JsMap.keys (pendingEvaluations s) ++ [evalId].
Proof. unfold JsMap.keys. rewrite enqueue_pending, map_app. reflexivity. Qed.

Lemma enqueue_outcome c : outcome c (enqueue fen depth s) = outcome c s.
Proof. reflexivity. Qed.

Lemma enqueue_WF :
  worker s = true -> isReady s = true -> WF (enqueue fen depth s).
Proof.
  intros Hw Hr. split.
  - rewrite enqueue_keys, enqueue_closures, map_app, (wf_closure s W). reflexivity.
  - rewrite enqueue_keys.
    pose proof (NoDup_map_app_fresh (fun k : nat => k)
                  (JsMap.keys (pendingEvaluations s)) evalId) as H.
    rewrite !map_id in H. apply H; [apply (wf_keys s W)|apply fresh_evalId].
  - rewrite enqueue_closures. apply NoDup_map_app_fresh; [apply (wf_calls s W)|].
    intros H. apply in_map_iff in H as [c [E H]].
    apply (wf_created s W) in H. simpl in E. lia.
  - intros k. rewrite enqueue_keys, in_app_iff. simpl.
    intros [H|[<-|[]]]; [apply (wf_bound s W) in H|]; unfold evalId; lia.
  - intros t. rewrite enqueue_closures, in_app_iff. simpl. rewrite in_app_iff.
    intros [H|[<-|[]]]; [left; now apply (wf_timer_pending s W)|right; now left].
  - intros c. rewrite enqueue_closures, in_app_iff. simpl.
    intros [H|[<-|[]]].
    + destruct (wf_pending_timer s W c H) as [t [Ht E]].
      exists t. split; auto. apply in_app_iff. now left.
    + exists (mkTimer cl (clock s + timeoutMs)%N). split; auto.
      apply in_app_iff. right. now left.
  - simpl. apply NoDup_map_app_fresh; [apply (wf_timers s W)|].
    intros H. apply in_map_iff in H as [t [E H]].
    apply (wf_timer_pending s W) in H. apply (wf_created s W) in H.
    unfold timerCall in E. simpl in E. lia.
  - intros c. rewrite enqueue_closures, in_app_iff, enqueue_outcome. simpl.
    intros [H|[<-|[]]]; [now apply (wf_unsettled s W)|apply fresh_promise].
  - intros c. rewrite enqueue_closures, in_app_iff. simpl.
    intros [H|[<-|[]]]; [apply (wf_created s W) in H|]; simpl; lia.
  - intros c o. rewrite enqueue_outcome. intros H.
    apply (wf_settled s W) in H. simpl. lia.
  - intros c. rewrite enqueue_closures, enqueue_outcome, map_app, in_app_iff.
    simpl. intros H1 H2.
    destruct (Nat.eq_dec c (promises s)) as [->|Hne]; [right; now left|].
    left. apply (wf_complete s W); auto. lia.
  - intros e H. rewrite enqueue_keys, in_app_iff. left.
    now apply (wf_map_vals s W).
  - apply (wf_map_inj s W).
  - apply (wf_map_keys s W).
  - intros _. auto.
  - simpl. congruence.
Qed.
End Enqueue.

Lemma WF_settle_new s o :
  WF s -> WF (settle (promises s) o (setPromises (S (promises s)) s)).
Proof.
  intros W.
  assert (E : forall c, outcome c (settle (promises s) o (setPromises (S (promises s)) s)) =
                        if c =? promises s then Some o else outcome c s).
  { intros c. rewrite outcome_settle.
    change (outcome (promises s) (setPromises (S (promises s)) s))
      with (outcome (promises s) s).
    rewrite (fresh_promise s W). reflexivity. }
  assert (P : settle (promises s) o (setPromises (S (promises s)) s) =
              setSettled ((promises s, o) :: settled s) (setPromises (S (promises s)) s)).
  { unfold settle.
    change (outcome (promises s) (setPromises (S (promises s)) s))
      with (outcome (promises s) s).
    now rewrite (fresh_promise s W). }
  split; try (rewrite P; simpl; apply W).
  - intros cl H. rewrite E. rewrite P in H.
    change (In cl (closures s)) in H.
    pose proof (wf_created s W cl H) as Hc.
    destruct (cl_promise cl =? promises s) eqn:E'.
    + apply Nat.eqb_eq in E'. lia.
    + now apply (wf_unsettled s W).
  - intros cl H. rewrite P in *. change (In cl (closures s)) in H.
    apply (wf_created s W) in H. simpl. lia.
  - intros c o'. rewrite E. destruct (c =? promises s) eqn:E'.
    + apply Nat.eqb_eq in E'. intros _. rewrite P. simpl. lia.
    + intros H. apply (wf_settled s W) in H. rewrite P. simpl. lia.
  - intros c. rewrite E. destruct (c =? promises s) eqn:E'; [discriminate|].
    apply Nat.eqb_neq in E'. rewrite P. simpl. intros H1 H2.
    apply (wf_complete s W); auto. lia.
Qed.

Lemma WF_getEvaluation fen depth s : WF s -> WF (getEvaluation fen depth s).
Proof.
  intros W. destruct (worker s && isReady s) eqn:E.
  - apply andb_true_iff in E as [Hw Hr].
    rewrite getEvaluation_ready; auto.
    destruct (rejectPrevious_spec (previousUnmappedEvaluations s) s W)
      as (W1 & (F1 & F2 & _) & _).
    apply enqueue_WF; auto; congruence.
  - rewrite getEvaluation_not_ready; auto. now apply WF_settle_new.
Qed.

(** *** Correlation and the message handler *)

Lemma WF_setMapping m s :
  WF s ->
  (forall e, In e (JsMap.values m) -> In e (JsMap.keys (pendingEvaluations s))) ->
  NoDup (JsMap.values m) -> NoDup (JsMap.keys m) ->
  WF (setMapping m s).
Proof. intros W H1 H2 H3. destruct W. split; auto. Qed.

Lemma WF_mapping_delete k s :
  WF s -> WF (setMapping (JsMap.delete k (searchIdToEvalId s)) s).
Proof.
  intros W. apply WF_setMapping; auto.
  - intros e H. apply (wf_map_vals s W).
    apply in_map_iff in H as [x [E H]]. apply In_delete in H as [H _].
    apply in_map_iff. eauto.
  - apply NoDup_map_filter, (wf_map_inj s W).
  - apply NoDup_map_filter, (wf_map_keys s W).
Qed.

Lemma WF_setPending m s :
  WF s ->
  JsMap.keys m = JsMap.keys (pendingEvaluations s) ->
  map (fun e => resolvers (snd e)) m = closures s ->
  WF (setPending m s).
Proof.
  intros W H1 H2. destruct W.
  split; unfold closures, outcome in *; simpl; rewrite ?H1, ?H2; auto.
  intros H. apply wf_ready0. intros E. apply H.
  rewrite E in H1. destruct m; [reflexivity|discriminate].
Qed.

Lemma firstUnmapped_spec s eid :
  firstUnmapped s = Some eid ->
  In eid (JsMap.keys (pendingEvaluations s)) /\
  ~ In eid (JsMap.values (searchIdToEvalId s)).
Proof.
  unfold firstUnmapped.
  destruct (find _ (pendingEvaluations s)) as [[k p]|] eqn:E; [|discriminate].
  simpl. intros [= <-]. apply find_some in E as [H1 H2]. simpl in H2.
  split; [eapply In_key; eauto|].
  apply isMapped_false. now apply negb_true_iff.
Qed.

Lemma quiet_refl s : quiet s s.
Proof. repeat split. Qed.

Lemma correlate_spec sid s :
  WF s ->
  WF (snd (correlate sid s)) /\ quiet s (snd (correlate sid s)) /\
  pendingEvaluations (snd (correlate sid s)) = pendingEvaluations s /\
  (forall e, fst (correlate sid s) = Some e ->
             JsMap.get sid (searchIdToEvalId (snd (correlate sid s))) = Some e) /\
  (fst (correlate sid s) = None -> snd (correlate sid s) = s).
Proof.
  intros W. unfold correlate.
  assert (Same : forall r : option nat,
             (forall e, r = Some e -> JsMap.get sid (searchIdToEvalId s) = Some e) ->
             WF s /\ quiet s s /\ pendingEvaluations s = pendingEvaluations s /\
             (forall e, r = Some e -> JsMap.get sid (searchIdToEvalId s) = Some e) /\
             (r = None -> s = s)).
  { intros r H. split; [assumption|]. split; [apply quiet_refl|]. auto. }
  destruct (JsMap.get sid (searchIdToEvalId s)) as [e|] eqn:G; simpl.
  - rewrite G. apply Same. congruence.
  - destruct (0 <? JsMap.size (pendingEvaluations s)); simpl;
      [|rewrite G; apply Same; discriminate].
    destruct (firstUnmapped s) as [eid|] eqn:F; simpl;
      [|rewrite G; apply Same; discriminate].
    apply firstUnmapped_spec in F as [F1 F2].
    apply get_None in G.
    rewrite (set_fresh sid eid _ G).
    split; [|split; [repeat split|split; [reflexivity|split]]].
    + apply WF_setMapping; auto.
      * intros e. unfold JsMap.values. rewrite map_app, in_app_iff. simpl.
        intros [H|[<-|[]]]; auto. now apply (wf_map_vals s W).
      * apply NoDup_map_app_fresh; auto. apply (wf_map_inj s W).
      * apply NoDup_map_app_fresh; auto. apply (wf_map_keys s W).
    + intros e [= <-].
      assert (H : In (sid, eid) (searchIdToEvalId s ++ [(sid, eid)]))
        by (apply in_app_iff; right; now left).
      apply In_get; auto.
      apply NoDup_map_app_fresh; auto. apply (wf_map_keys s W).
    + discriminate.
Qed.

Lemma setEvaluation_spec e ev s :
  WF s -> WF (setEvaluation e ev s) /\ quiet s (setEvaluation e ev s) /\
          searchIdToEvalId (setEvaluation e ev s) = searchIdToEvalId s.
Proof.
  intros W. unfold setEvaluation.
  destruct (JsMap.get e (pendingEvaluations s)) as [p|] eqn:G;
    [|split; [assumption|split; [apply quiet_refl|reflexivity]]].
  assert (K : JsMap.keys (JsMap.set e (mkPending (resolvers p) (Some ev))
                                    (pendingEvaluations s)) =
              JsMap.keys (pendingEvaluations s)).
  { apply (map_set fst) with (v0 := p); auto. }
  assert (C : map (fun x => resolvers (snd x))
                  (JsMap.set e (mkPending (resolvers p) (Some ev))
                             (pendingEvaluations s)) = closures s).
  { apply (map_set (fun x => resolvers (snd x))) with (v0 := p); auto. }
  split; [now apply WF_setPending|].
  split; [|reflexivity]. repeat split; auto.
Qed.

Lemma quiet_trans s1 s2 s3 : quiet s1 s2 -> quiet s2 s3 -> quiet s1 s3.
Proof.
  intros (F1 & A1 & B1 & C1 & D1) (F2 & A2 & B2 & C2 & D2).
  split; [eapply frame_trans; eauto|]. repeat split; congruence.
Qed.

Lemma handleInfo_spec message searchId s :
  WF s -> WF (handleInfo message searchId s) /\
          quiet s (handleInfo message searchId s).
Proof.
  intros W. unfold handleInfo.
  destruct (startsWith "info" message && includes "score" message);
    [|split; [assumption|apply quiet_refl]].
  destruct (scoreMatch message) as [m|]; [|split; [assumption|apply quiet_refl]].
  destruct searchId as [sid|]; [|split; [assumption|apply quiet_refl]].
  destruct (correlate_spec sid s W) as (W1 & Q1 & _).
  destruct (correlate sid s) as [[e|] s1]; simpl in *; auto.
  destruct (setEvaluation_spec e (mkResult (scoreOf m) (pvMatch message)) s1 W1)
    as (W2 & Q2 & _).
  split; auto. eapply quiet_trans; eauto.
Qed.

Lemma handleBestMove_attributed message sid s e p :
  WF s -> startsWith "bestmove" message = true ->
  fst (correlate sid s) = Some e ->
  JsMap.get e (pendingEvaluations s) = Some p ->
  let s1 := snd (correlate sid s) in
  let s2 := wrapped (resolvers p) (completion message p) s1 in
  handleBestMove message (Some sid) s =
  setMapping (JsMap.delete sid (searchIdToEvalId s2)) s2 /\
  WF s2 /\ In (resolvers p) (closures s).
Proof.
  intros W B C G. destruct (correlate_spec sid s W) as (W1 & Q1 & P1 & M1 & _).
  unfold handleBestMove. rewrite B.
  destruct (correlate sid s) as [r s1]. simpl in *. subst r.
  rewrite P1, G.
  apply get_In in G. destruct (pending_closure s e p W G) as [Hc He].
  assert (Hc1 : In (resolvers p) (closures s1)).
  { destruct Q1 as (_ & _ & _ & _ & Q). now rewrite Q. }
  assert (E : forall o, setPending (JsMap.delete e (pendingEvaluations
                          (wrapped (resolvers p) o s1))) (wrapped (resolvers p) o s1) =
                        wrapped (resolvers p) o s1).
  { intros o.
    assert (H : JsMap.delete e (pendingEvaluations (wrapped (resolvers p) o s1)) =
                pendingEvaluations (wrapped (resolvers p) o s1)).
    { rewrite wrapped_pending, He. apply delete_idem. }
    rewrite H. apply setPending_same. }
  split; [|split; [now apply wrapped_WF|assumption]].
  unfold completion.
  destruct (bestMoveMatch message), (evaluation p); rewrite E; reflexivity.
Qed.

Lemma WF_handleBestMove message searchId s :
  WF s -> WF (handleBestMove message searchId s).
Proof.
  intros W.
  destruct (startsWith "bestmove" message) eqn:B;
    [|unfold handleBestMove; now rewrite B].
  destruct searchId as [sid|]; [|unfold handleBestMove; now rewrite B].
  destruct (correlate_spec sid s W) as (W1 & Q1 & P1 & M1 & N1).
  destruct (fst (correlate sid s)) as [e|] eqn:C.
  - destruct (JsMap.get e (pendingEvaluations s)) as [p|] eqn:G.
    + destruct (handleBestMove_attributed message sid s e p W B C G) as (-> & W2 & _).
      now apply WF_mapping_delete.
    + unfold handleBestMove. rewrite B.
      destruct (correlate sid s) as [r s1]. simpl in *. subst r.
      now rewrite P1, G.
  - unfold handleBestMove. rewrite B.
    destruct (correlate sid s) as [r s1]. simpl in *. now subst r.
Qed.

Lemma WF_onmessage m s : WF s -> WF (onmessage m s).
Proof.
  intros W. destruct m as [|data searchId|data]; simpl; auto.
  - destruct W. split; auto. simpl. intros H. apply wf_ready0 in H. tauto.
  - unfold handleStockfishMessage. apply WF_handleBestMove.
    now apply handleInfo_spec.
Qed.

Lemma WF_timerFires c s : WF s -> WF (timerFires c s).
Proof.
  intros W. unfold timerFires. destruct (timerOf c s) as [t|] eqn:E; auto.
  destruct (t_deadline t <=? clock s)%N; auto.
  apply find_some in E as [H _].
  apply wrapped_WF; auto. now apply (wf_timer_pending s W).
Qed.

Lemma WF_initialize s : WF s -> WF (initialize s).
Proof.
  intros W. destruct W. split; auto; simpl.
  - intros H. apply wf_ready0 in H. tauto.
  - discriminate.
Qed.

Lemma WF_step s e : WF s -> WF (step s e).
Proof.
  intros W. destruct e; simpl.
  - now apply WF_initialize.
  - now apply WF_getEvaluation.
  - now apply WF_stopEvaluation.
  - now apply WF_destroy.
  - now apply WF_onmessage.
  - now apply WF_timerFires.
  - destruct W. split; auto.
Qed.

Lemma WF_reachable s : reachable s -> WF s.
Proof.
  induction 1; [apply WF_initial|now apply WF_step].
Qed.

Lemma reachable_run s events : reachable s -> reachable (run s events).
Proof.
  revert s. induction events as [|e l IH]; intros s H; simpl; auto.
  apply IH. now constructor.
Qed.

(** ** What a step can do to promises and timers

    These hold in every state, well-formed or not. *)

Lemma calm_same A s s' :
  settled s' = settled s -> timers s' = timers s -> promises s' = promises s ->
  calm A s s'.
Proof.
  intros H1 H2 H3. split; [|split; auto].
  - intros c. left. unfold outcome. now rewrite H1.
  - rewrite H2. apply incl_refl.
Qed.

Lemma calm_refl A s : calm A s s.
Proof. now apply calm_same. Qed.

Lemma calm_trans A s1 s2 s3 : calm A s1 s2 -> calm A s2 s3 -> calm A s1 s3.
Proof.
  intros (S1 & T1 & P1) (S2 & T2 & P2). split; [|split].
  - intros c. destruct (S2 c) as [E2|(E2 & o & E2' & Ho)], (S1 c) as [E1|(E1 & o' & E1' & Ho')].
    + left. congruence.
    + right. split; auto. exists o'. split; auto. congruence.
    + right. split; [congruence|]. eauto.
    + congruence.
  - eapply incl_tran; eauto.
  - congruence.
Qed.

Lemma calm_weaken (A B : Outcome -> Prop) s s' :
  (forall o, A o -> B o) -> calm A s s' -> calm B s s'.
Proof.
  intros H (S1 & T1 & P1). split; [|split]; auto.
  intros c. destruct (S1 c) as [E|(E & o & E' & Ho)]; [now left|].
  right. split; auto. exists o. auto.
Qed.

Lemma calm_wrapped cl o s : calm (eq o) s (wrapped cl o s).
Proof.
  split; [|split].
  - intros c. rewrite wrapped_outcome.
    destruct (c =? cl_promise cl); [|now left].
    destruct (outcome c s) eqn:E; [now left|]. right. split; auto. now exists o.
  - rewrite wrapped_timers. intros t H. apply filter_In in H. tauto.
  - apply wrapped_frame.
Qed.

Lemma calm_fold {X} A (f : State -> X -> State) L :
  (forall s x, calm A s (f s x)) -> forall s, calm A s (fold_left f L s).
Proof.
  intros H. induction L as [|x L IH]; intros s; simpl; [apply calm_refl|].
  eapply calm_trans; [apply H|apply IH].
Qed.

Lemma calm_rejectEach err s : calm (eq (Rejected err)) s (rejectEach err s).
Proof.
  unfold rejectEach. apply calm_fold. intros s0 x.
  destruct (JsMap.has (fst x) (pendingEvaluations s0));
    [apply calm_wrapped|apply calm_refl].
Qed.

Lemma calm_rejectPrevious L s :
  calm (eq (Rejected CancelledByNewRequest)) s (fold_left rejectPrevious L s).
Proof.
  apply calm_fold. intros s0 k. unfold rejectPrevious.
  destruct (JsMap.get k (pendingEvaluations s0)); [|apply calm_refl].
  eapply calm_trans; [apply calm_wrapped|now apply calm_same].
Qed.

Lemma calm_stopEvaluation s :
  calm (eq (Rejected EvaluationStopped)) s (stopEvaluation s).
Proof.
  unfold stopEvaluation. destruct (worker s && isReady s); [|apply calm_refl].
  eapply calm_trans; [|now apply calm_same].
  eapply calm_trans; [|apply calm_rejectEach]. now apply calm_same.
Qed.

Lemma calm_destroy s :
  calm (fun o => o = Rejected EvaluationStopped \/ o = Rejected WorkerTerminated)
       s (destroy s).
Proof.
  unfold destroy. destruct (worker s); [|apply calm_refl].
  eapply calm_trans; [|now apply calm_same].
  eapply calm_trans.
  - eapply calm_weaken; [|apply calm_stopEvaluation]. intros o <-. now left.
  - eapply calm_weaken; [|apply calm_rejectEach]. intros o <-. now right.
Qed.

Lemma calm_correlate A sid s : calm A s (snd (correlate sid s)).
Proof.
  unfold correlate. destruct (JsMap.get sid (searchIdToEvalId s)); [apply calm_refl|].
  destruct (0 <? JsMap.size (pendingEvaluations s)); [|apply calm_refl].
  destruct (firstUnmapped s); [now apply calm_same|apply calm_refl].
Qed.

Lemma calm_setEvaluation A e ev s : calm A s (setEvaluation e ev s).
Proof.
  unfold setEvaluation. destruct (JsMap.get e (pendingEvaluations s));
    [now apply calm_same|apply calm_refl].
Qed.

Lemma calm_handleInfo message searchId s :
  calm fromCompletion s (handleInfo message searchId s).
Proof.
  unfold handleInfo.
  destruct (startsWith "info" message && includes "score" message);
    [|apply calm_refl].
  destruct (scoreMatch message); [|apply calm_refl].
  destruct searchId as [sid|]; [|apply calm_refl].
  pose proof (calm_correlate fromCompletion sid s) as H.
  destruct (correlate sid s) as [[e|] s1]; simpl in H; auto.
  eapply calm_trans; [exact H|apply calm_setEvaluation].
Qed.

Lemma calm_handleBestMove message searchId s :
  calm fromCompletion s (handleBestMove message searchId s).
Proof.
  unfold handleBestMove.
  destruct (startsWith "bestmove" message); [|apply calm_refl].
  destruct searchId as [sid|]; [|apply calm_refl].
  pose proof (calm_correlate fromCompletion sid s) as H.
  destruct (correlate sid s) as [[e|] s1]; simpl in H; auto.
  destruct (JsMap.get e (pendingEvaluations s1)) as [p|]; auto.
  eapply calm_trans; [exact H|].
  eapply calm_trans; [|now apply calm_same].
  eapply calm_trans; [|now apply calm_same].
  destruct (bestMoveMatch message), (evaluation p);
    (eapply calm_weaken; [|apply calm_wrapped]); intros o <-;
    try (left; eexists; reflexivity); now right.
Qed.

Lemma calm_timerFires c s :
  calm (eq (Rejected EvaluationTimeout)) s (timerFires c s).
Proof.
  unfold timerFires. destruct (timerOf c s); [|apply calm_refl].
  destruct (t_deadline t <=? clock s)%N; [apply calm_wrapped|apply calm_refl].
Qed.

Lemma calm_step s e :
  (forall fen depth, e <> GetEvaluation fen depth) -> calm (allowed e) s (step s e).
Proof.
  intros H. destruct e; simpl.
  - now apply calm_same.
  - exfalso. eapply H; eauto.
  - eapply calm_weaken; [|apply calm_stopEvaluation]. now intros o <-.
  - apply calm_destroy.
  - destruct e as [|data searchId|data]; try now apply calm_same.
    eapply calm_trans; [apply calm_handleInfo|apply calm_handleBestMove].
  - eapply calm_weaken; [|apply calm_timerFires]. now intros o <-.
  - now apply calm_same.
Qed.

Lemma settles_getEvaluation fen depth s :
  settles (allowed (GetEvaluation fen depth)) s (getEvaluation fen depth s).
Proof.
  destruct (worker s && isReady s) eqn:E.
  - apply andb_true_iff in E as [Hw Hr]. rewrite getEvaluation_ready; auto.
    intros c. rewrite enqueue_outcome.
    destruct (calm_rejectPrevious (previousUnmappedEvaluations s) s) as (S1 & _).
    destruct (S1 c) as [E|(E & o & E' & <-)]; [now left|].
    right. split; auto. eexists. split; eauto. now left.
  - rewrite getEvaluation_not_ready; auto. intros c. rewrite outcome_settle.
    change (outcome (promises s) (setPromises (S (promises s)) s))
      with (outcome (promises s) s).
    change (outcome c (setPromises (S (promises s)) s)) with (outcome c s).
    destruct (c =? promises s) eqn:Ec; [|now left].
    apply Nat.eqb_eq in Ec. subst c.
    destruct (outcome (promises s) s); [now left|].
    right. split; auto. eexists. split; eauto. now right.
Qed.

Lemma step_settles s e : settles (allowed e) s (step s e).
Proof.
  destruct e; try (apply calm_step; discriminate).
  apply settles_getEvaluation.
Qed.

(** A settled promise keeps its outcome. *)
Lemma outcome_stable_step s e c o :
  outcome c s = Some o -> outcome c (step s e) = Some o.
Proof.
  intros H. destruct (step_settles s e c) as [E|[E _]]; congruence.
Qed.

Lemma outcome_stable s events c o :
  outcome c s = Some o -> outcome c (run s events) = Some o.
Proof.
  revert s. induction events as [|e l IH]; intros s H; simpl; auto.
  apply IH. now apply outcome_stable_step.
Qed.

Lemma promises_step s e : promises s <= promises (step s e).
Proof.
  destruct e as [|fen depth| | | | |];
    try (match goal with
         | |- context [step s ?ev] =>
             destruct (calm_step s ev ltac:(discriminate)) as (_ & _ & ->); lia
         end).
  change (promises s <= promises (getEvaluation fen depth s)).
  destruct (worker s && isReady s) eqn:E.
  - apply andb_true_iff in E as [Hw Hr]. rewrite getEvaluation_ready; auto.
    destruct (rejectPrevious_frame (previousUnmappedEvaluations s) s)
      as (_ & _ & _ & Fp & _).
    unfold enqueue. simpl. lia.
  - rewrite getEvaluation_not_ready; auto. unfold settle.
    destruct outcome; simpl; lia.
Qed.

Lemma promises_run s events : promises s <= promises (run s events).
Proof.
  revert s. induction events as [|e l IH]; intros s; simpl; auto.
  etransitivity; [apply promises_step|apply IH].
Qed.

(** A timer of a later state was armed earlier or belongs to a newer call. *)
Lemma timers_step s e t :
  In t (timers (step s e)) -> In t (timers s) \/ promises s <= timerCall t.
Proof.
  destruct e as [|fen depth| | | | |];
    try (match goal with
         | |- context [step s ?ev] =>
             destruct (calm_step s ev ltac:(discriminate)) as (_ & T & _);
             intros H; left; now apply T
         end).
  change (step s (GetEvaluation fen depth)) with (getEvaluation fen depth s).
  destruct (worker s && isReady s) eqn:E.
  - apply andb_true_iff in E as [Hw Hr]. rewrite getEvaluation_ready; auto.
    destruct (rejectPrevious_frame (previousUnmappedEvaluations s) s)
      as (_ & _ & _ & Fp & _).
    destruct (calm_rejectPrevious (previousUnmappedEvaluations s) s) as (_ & T & _).
    unfold enqueue. simpl. rewrite in_app_iff. simpl. intros [H|[<-|[]]].
    + left. now apply T.
    + right. unfold timerCall. simpl. lia.
  - rewrite getEvaluation_not_ready; auto. unfold settle.
    destruct outcome; simpl; auto.
Qed.

(** ** Timers of pending calls *)

Lemma find_exists {A} (f : A -> bool) l x :
  In x l -> f x = true -> exists y, find f l = Some y.
Proof.
  intros H E. destruct (find f l) eqn:F; eauto.
  rewrite (find_none f l F x H) in E. discriminate.
Qed.

Lemma timer_of_pending s cl :
  WF s -> In cl (closures s) ->
  exists t, timerOf (cl_promise cl) s = Some t /\ t_callback t = cl.
Proof.
  intros W H. destruct (wf_pending_timer s W cl H) as [t' [Ht' E']].
  destruct (find_exists (fun t => cl_promise (t_callback t) =? cl_promise cl)
              (timers s) t' Ht') as [t Ht].
  { rewrite E'. apply Nat.eqb_refl. }
  exists t. split; auto. apply find_some in Ht as [H1 H2].
  apply Nat.eqb_eq in H2.
  apply (closure_by_promise s); auto. now apply (wf_timer_pending s W).
Qed.

Lemma timer_of_unsettled s c :
  WF s -> c < promises s -> outcome c s = None ->
  exists t, timerOf c s = Some t /\ In (t_callback t) (closures s) /\
            timerCall t = c.
Proof.
  intros W H1 H2. pose proof (wf_complete s W c H1 H2) as H.
  apply in_map_iff in H as [cl [E H]]. subst c.
  destruct (timer_of_pending s cl W H) as [t [Ht E]].
  exists t. unfold timerCall. rewrite E. auto.
Qed.

Lemma timerFires_spec s c t :
  WF s -> timerOf c s = Some t -> (t_deadline t <= clock s)%N ->
  let s' := timerFires c s in
  outcome c s' = Some (Rejected EvaluationTimeout) /\
  ~ In (cl_evalId (t_callback t)) (JsMap.keys (pendingEvaluations s')) /\
  ~ In (cl_evalId (t_callback t)) (JsMap.values (searchIdToEvalId s')).
Proof.
  intros W Ht Hd. unfold timerFires. rewrite Ht.
  apply N.leb_le in Hd. rewrite Hd. simpl.
  apply find_some in Ht as [H1 H2]. apply Nat.eqb_eq in H2. subst c.
  pose proof (wf_timer_pending s W t H1) as Hc.
  split; [now apply wrapped_settles|now apply wrapped_removes].
Qed.

(** ** What [getEvaluation] does on a ready engine *)

Lemma In_previousUnmapped s k :
  In k (previousUnmappedEvaluations s) <->
  In k (JsMap.keys (pendingEvaluations s)) /\ isMapped k s = false.
Proof.
  unfold previousUnmappedEvaluations. rewrite in_map_iff. split.
  - intros [[k' p] [E H]]. simpl in E. subst k'.
    apply filter_In in H as [H1 H2]. simpl in H2. apply negb_true_iff in H2.
    split; auto. eapply In_key; eauto.
  - intros [H1 H2]. apply key_In in H1 as [p Hp]. exists (k, p).
    split; auto. apply filter_In. split; auto. simpl. now rewrite H2.
Qed.

Lemma rejectPrevious_mapping L : forall s,
  WF s -> (forall k, In k L -> ~ In k (JsMap.values (searchIdToEvalId s))) ->
  searchIdToEvalId (fold_left rejectPrevious L s) = searchIdToEvalId s.
Proof.
  induction L as [|k L IH]; intros s W H; simpl; [reflexivity|].
  assert (Hk : ~ In k (JsMap.values (searchIdToEvalId s))) by (apply H; now left).
  destruct (JsMap.get k (pendingEvaluations s)) as [p|] eqn:G.
  - apply get_In in G. destruct (pending_closure s k p W G) as [Hc He].
    rewrite (rejectPrevious_present s k p W G).
    assert (M : searchIdToEvalId (wrapped (resolvers p)
                  (Rejected CancelledByNewRequest) s) = searchIdToEvalId s).
    { rewrite wrapped_mapping, He. now apply deleteFirst_absent. }
    rewrite IH; auto.
    + now apply wrapped_WF.
    + intros k' Hk'. rewrite M. apply H. now right.
  - unfold rejectPrevious at 2. rewrite G. apply IH; auto.
    intros k' Hk'. apply H. now right.
Qed.

Section GetEvaluation.
Variables (fen : string) (depth : nat) (s : State).
Hypothesis W : WF s.
Hypothesis Hw : worker s = true.
Hypothesis Hr : isReady s = true.

Let s' := getEvaluation fen depth s.
Let cl := mkResolvers (S (evaluationId s)) (promises s).
Let loop := fold_left rejectPrevious (previousUnmappedEvaluations s) s.

Lemma getEvaluation_frame :
  worker s' = true /\ isReady s' = true /\ promises s' = S (promises s) /\
  evaluationId s' = S (evaluationId s) /\ clock s' = clock s /\
  searchIdToEvalId s' = searchIdToEvalId s.
Proof.
  unfold s'. rewrite getEvaluation_ready; auto.
  destruct (rejectPrevious_frame (previousUnmappedEvaluations s) s)
    as (F1 & F2 & F3 & F4 & F5 & F6).
  unfold enqueue. simpl. rewrite F1, F2, F3, F4, F5.
  repeat split; auto. apply rejectPrevious_mapping; auto.
  intros k Hk. apply In_previousUnmapped in Hk as [_ Hk].
  now apply isMapped_false.
Qed.

Lemma getEvaluation_closures c :
  In c (closures s') <->
  (In c (closures s) /\ isMapped (cl_evalId c) s = true) \/ c = cl.
Proof.
  unfold s'. rewrite getEvaluation_ready; auto.
  destruct (rejectPrevious_spec (previousUnmappedEvaluations s) s W)
    as (W1 & (_ & _ & F3 & F4 & _) & C & _).
  fold loop in W1, F3, F4, C |- *.
  rewrite (enqueue_closures fen depth loop W1), in_app_iff, C, F3, F4. simpl.
  fold cl. rewrite In_previousUnmapped. split.
  - intros [[H1 H2]|[H|[]]]; auto. left. split; auto.
    destruct (isMapped (cl_evalId c) s) eqn:E; auto.
    exfalso. apply H2. split; auto. now apply closure_key.
  - intros [[H1 H2]|H]; auto. left. split; auto. intros [_ H3]. congruence.
Qed.

Lemma getEvaluation_new :
  In cl (closures s') /\ isMapped (cl_evalId cl) s' = false /\
  outcome (promises s) s' = None /\
  timerOf (promises s) s' = Some (mkTimer cl (clock s + timeoutMs)%N).
Proof.
  pose proof (WF_getEvaluation fen depth s W) as W'. fold s' in W'.
  destruct getEvaluation_frame as (_ & _ & _ & _ & _ & M).
  assert (Hc : In cl (closures s')) by (apply getEvaluation_closures; now right).
  split; [assumption|]. split; [|split].
  - apply isMapped_false. rewrite M. intros H.
    apply (wf_map_vals s W), (wf_bound s W) in H. simpl in H. lia.
  - apply (wf_unsettled s' W' cl Hc).
  - destruct (timer_of_pending s' cl W' Hc) as [t [Ht E]].
    simpl in Ht. rewrite Ht. f_equal.
    apply find_some in Ht as [Hin _]. revert Hin.
    unfold s'. rewrite getEvaluation_ready; auto.
    destruct (rejectPrevious_spec (previousUnmappedEvaluations s) s W)
      as (W1 & (_ & _ & F3 & F4 & F5 & _) & _).
    fold loop in W1, F3, F4, F5 |- *.
    unfold enqueue. simpl. rewrite in_app_iff, F3, F4, F5. simpl. fold cl.
    intros [H|[H|[]]]; [|now symmetry].
    apply (wf_timer_pending loop W1), (wf_created loop W1) in H.
    rewrite E, F4 in H. simpl in H. lia.
Qed.

Lemma getEvaluation_supersedes c :
  In c (closures s) -> isMapped (cl_evalId c) s = false ->
  outcome (cl_promise c) s' = Some (Rejected CancelledByNewRequest).
Proof.
  intros H1 H2. unfold s'. rewrite getEvaluation_ready; auto.
  destruct (rejectPrevious_spec (previousUnmappedEvaluations s) s W)
    as (W1 & _ & _ & O & _).
  rewrite enqueue_outcome. apply O; auto.
  apply In_previousUnmapped. split; auto. now apply closure_key.
Qed.
End GetEvaluation.

(** ** The timer of a call stays armed, unchanged, while the call is pending *)

Lemma timer_kept_step s e c t :
  WF s -> c < promises s -> timerOf c s = Some t ->
  outcome c (step s e) = None -> timerOf c (step s e) = Some t.
Proof.
  intros W Hc Ht Ho.
  pose proof (WF_step s e W) as W'.
  destruct (timer_of_unsettled (step s e) c W') as (t' & Ht' & _ & Hcall); auto.
  { pose proof (promises_step s e). lia. }
  rewrite Ht'. f_equal.
  apply find_some in Ht' as [Hin' _]. apply find_some in Ht as [Hin Hcall0].
  apply Nat.eqb_eq in Hcall0.
  destruct (timers_step s e t' Hin') as [H|H]; [|lia].
  apply (NoDup_map_inj timerCall (timers s)); auto.
  - apply (wf_timers s W).
  - unfold timerCall at 2. congruence.
Qed.

Lemma timer_kept events : forall s c t,
  WF s -> c < promises s -> timerOf c s = Some t ->
  outcome c (run s events) = None -> timerOf c (run s events) = Some t.
Proof.
  induction events as [|e l IH]; intros s c t W Hc Ht Ho; simpl in *; auto.
  assert (Hs : outcome c (step s e) = None).
  { destruct (outcome c (step s e)) eqn:E; auto.
    rewrite (outcome_stable _ l _ _ E) in Ho. discriminate. }
  apply IH; auto.
  - now apply WF_step.
  - pose proof (promises_step s e). lia.
  - now apply timer_kept_step.
Qed.

Lemma WF_run s events : WF s -> WF (run s events).
Proof.
  revert s. induction events as [|e l IH]; intros s W; simpl; auto.
  apply IH. now apply WF_step.
Qed.

(** ** Calls in quick succession *)

Lemma rapid_ready reqs : forall s,
  WF s -> worker s = true -> isReady s = true ->
  worker (run s (calls reqs)) = true /\ isReady (run s (calls reqs)) = true /\
  promises (run s (calls reqs)) = promises s + List.length reqs.
Proof.
  induction reqs as [|[fen depth] l IH]; intros s W Hw Hr; simpl.
  - repeat split; auto.
  - destruct (getEvaluation_frame fen depth s W Hw Hr) as (F1 & F2 & F3 & _).
    destruct (IH (getEvaluation fen depth s)) as (A & B & C); auto.
    + now apply WF_getEvaluation.
    + repeat split; auto. rewrite C, F3. lia.
Qed.

Lemma rapid_superseded reqs : forall s i,
  WF s -> worker s = true -> isReady s = true ->
  S i < List.length reqs ->
  outcome (promises s + i) (run s (calls reqs)) =
  Some (Rejected CancelledByNewRequest).
Proof.
  induction reqs as [|[fen depth] l IH]; intros s i W Hw Hr Hi; simpl in *; [lia|].
  pose proof (WF_getEvaluation fen depth s W) as W1.
  destruct (getEvaluation_frame fen depth s W Hw Hr) as (F1 & F2 & F3 & _).
  destruct i as [|i].
  - destruct l as [|[fen' depth'] l']; simpl in *; [lia|].
    apply outcome_stable. rewrite Nat.add_0_r.
    destruct (getEvaluation_new fen depth s W Hw Hr) as (N1 & N2 & _).
    apply (getEvaluation_supersedes fen' depth' _ W1 F1 F2 _ N1 N2).
  - replace (promises s + S i) with (promises (getEvaluation fen depth s) + i)
      by (rewrite F3; lia).
    apply IH; auto. lia.
Qed.

Lemma rapid_last reqs : forall s i,
  WF s -> worker s = true -> isReady s = true ->
  S i = List.length reqs ->
  outcome (promises s + i) (run s (calls reqs)) = None.
Proof.
  induction reqs as [|[fen depth] l IH]; intros s i W Hw Hr Hi; simpl in *; [lia|].
  pose proof (WF_getEvaluation fen depth s W) as W1.
  destruct (getEvaluation_frame fen depth s W Hw Hr) as (F1 & F2 & F3 & _).
  destruct i as [|i].
  - destruct l; [|discriminate]. simpl. rewrite Nat.add_0_r.
    apply (getEvaluation_new fen depth s W Hw Hr).
  - replace (promises s + S i) with (promises (getEvaluation fen depth s) + i)
      by (rewrite F3; lia).
    apply IH; auto.
Qed.

(** The timer of the last of the calls runs for thirty seconds from the
    time of the calls. *)
Lemma rapid_timer reqs : forall s i,
  WF s -> worker s = true -> isReady s = true ->
  S i = List.length reqs ->
  exists t, timerOf (promises s + i) (run s (calls reqs)) = Some t /\
            t_deadline t = (clock s + timeoutMs)%N.
Proof.
  induction reqs as [|[fen depth] l IH]; intros s i W Hw Hr Hi; simpl in *; [lia|].
  pose proof (WF_getEvaluation fen depth s W) as W1.
  destruct (getEvaluation_frame fen depth s W Hw Hr) as (F1 & F2 & F3 & _ & F5 & _).
  destruct i as [|i].
  - destruct l; [|discriminate]. simpl. rewrite Nat.add_0_r.
    destruct (getEvaluation_new fen depth s W Hw Hr) as (_ & _ & _ & T).
    eexists. split; [exact T|reflexivity].
  - replace (promises s + S i) with (promises (getEvaluation fen depth s) + i)
      by (rewrite F3; lia).
    rewrite <- F5. apply IH; auto.
Qed.

(** ** A mapped evaluation stays mapped while it is pending *)

Lemma wrapped_keeps_mapped cl' o s cl :
  WF s -> In cl' (closures s) -> In cl (closures s) -> cl <> cl' ->
  mapped cl s -> mapped cl (wrapped cl' o s).
Proof.
  intros W H' H Hne M. unfold mapped. rewrite wrapped_mapping.
  apply (deleteFirst_values _ _ (wf_map_inj s W)). split; auto.
  intros E. apply Hne. now apply (closure_by_evalId s).
Qed.

Lemma correlate_mapping sid s e :
  In e (JsMap.values (searchIdToEvalId s)) ->
  In e (JsMap.values (searchIdToEvalId (snd (correlate sid s)))).
Proof.
  intros H. unfold correlate.
  destruct (JsMap.get sid (searchIdToEvalId s)) eqn:G; auto.
  destruct (0 <? JsMap.size (pendingEvaluations s)); auto.
  destruct (firstUnmapped s); auto. simpl.
  apply get_None in G. rewrite (set_fresh _ _ _ G).
  unfold JsMap.values. rewrite map_app, in_app_iff. now left.
Qed.

Lemma setEvaluation_mapping e ev s :
  searchIdToEvalId (setEvaluation e ev s) = searchIdToEvalId s.
Proof.
  unfold setEvaluation. now destruct (JsMap.get e (pendingEvaluations s)).
Qed.

Lemma handleInfo_mapping message searchId s e :
  In e (JsMap.values (searchIdToEvalId s)) ->
  In e (JsMap.values (searchIdToEvalId (handleInfo message searchId s))).
Proof.
  intros H. unfold handleInfo.
  destruct (startsWith "info" message && includes "score" message); auto.
  destruct (scoreMatch message); auto. destruct searchId as [sid|]; auto.
  pose proof (correlate_mapping sid s e H) as H1.
  destruct (correlate sid s) as [[e'|] s1]; simpl in H1; auto.
  now rewrite setEvaluation_mapping.
Qed.

Lemma handleBestMove_keeps_mapped message searchId s cl :
  WF s -> In cl (closures s) -> mapped cl s ->
  In cl (closures (handleBestMove message searchId s)) ->
  mapped cl (handleBestMove message searchId s).
Proof.
  intros W Hc M.
  destruct (startsWith "bestmove" message) eqn:B;
    [|unfold handleBestMove; now rewrite B].
  destruct searchId as [sid|]; [|unfold handleBestMove; now rewrite B].
  destruct (correlate_spec sid s W) as (W1 & Q1 & P1 & M1 & N1).
  pose proof (correlate_mapping sid s _ M) as M'.
  destruct (fst (correlate sid s)) as [e|] eqn:C.
  - destruct (JsMap.get e (pendingEvaluations s)) as [p|] eqn:G.
    + destruct (handleBestMove_attributed message sid s e p W B C G) as (-> & W2 & Hp).
      set (s1 := snd (correlate sid s)) in *.
      set (s2 := wrapped (resolvers p) (completion message p) s1) in *.
      change (closures (setMapping (JsMap.delete sid (searchIdToEvalId s2)) s2))
        with (closures s2).
      assert (Q : closures s1 = closures s) by apply Q1.
      assert (Hp1 : In (resolvers p) (closures s1)) by now rewrite Q.
      intros H. unfold s2 in H. apply wrapped_closures in H as [H Hne]; auto.
      assert (M2 : mapped cl s2) by (apply wrapped_keeps_mapped; auto).
      unfold mapped in *. simpl.
      apply in_map_iff in M2 as [[sid' e'] [E Hin]]. simpl in E. subst e'.
      apply in_map_iff. exists (sid', cl_evalId cl). split; auto.
      apply In_delete. split; auto. simpl. intros ->.
      assert (Hin1 : In (sid, cl_evalId cl) (searchIdToEvalId s1)).
      { unfold s2 in Hin. rewrite wrapped_mapping in Hin.
        eapply deleteFirst_subset; eauto. }
      apply (In_get _ _ _ (wf_map_keys s1 W1)) in Hin1.
      rewrite (M1 e eq_refl) in Hin1. injection Hin1 as ->.
      apply get_In in G. destruct (pending_closure s _ p W G) as [_ He].
      apply Hne. apply (closure_by_evalId s1); auto.
    + unfold handleBestMove. rewrite B.
      destruct (correlate sid s) as [r s1]. simpl in *. subst r.
      now rewrite P1, G.
  - unfold handleBestMove. rewrite B.
    destruct (correlate sid s) as [r s1]. simpl in *. now subst r.
Qed.

Lemma still_mapped s e cl :
  WF s -> In cl (closures s) -> mapped cl s ->
  In cl (closures (step s e)) -> mapped cl (step s e).
Proof.
  intros W Hc M. destruct e as [|fen depth| | |m|c|ms]; simpl; auto.
  - destruct (worker s && isReady s) eqn:E.
    + apply andb_true_iff in E as [Hw Hr]. intros _. unfold mapped.
      destruct (getEvaluation_frame fen depth s W Hw Hr) as (_ & _ & _ & _ & _ & ->).
      exact M.
    + rewrite getEvaluation_not_ready; auto. intros _. unfold mapped, settle.
      now destruct outcome.
  - destruct (worker s && isReady s) eqn:E.
    + apply andb_true_iff in E as [Hw Hr].
      destruct (stopEvaluation_spec s W Hw Hr) as (_ & P & _).
      unfold closures. now rewrite P.
    + unfold stopEvaluation. now rewrite E.
  - destruct (worker s) eqn:Hw.
    + destruct (destroy_spec s W Hw) as (_ & P & _).
      unfold closures. now rewrite P.
    + unfold destroy. now rewrite Hw.
  - destruct m as [|data searchId|data]; simpl; auto.
    unfold handleStockfishMessage. intros H.
    destruct (handleInfo_spec data searchId s W) as (W1 & Q1).
    apply handleBestMove_keeps_mapped; auto.
    + destruct Q1 as (_ & _ & _ & _ & ->). exact Hc.
    + now apply handleInfo_mapping.
  - unfold timerFires. destruct (timerOf c s) as [t|] eqn:Ht; auto.
    destruct (t_deadline t <=? clock s)%N; auto.
    apply find_some in Ht as [Hin _].
    pose proof (wf_timer_pending s W t Hin) as Ht.
    intros H. apply wrapped_closures in H as [_ Hne]; auto.
    apply wrapped_keeps_mapped; auto.
Qed.

Lemma mapped_never_superseded events : forall s cl,
  WF s -> In cl (closures s) -> mapped cl s ->
  outcome (cl_promise cl) (run s events) <> Some (Rejected CancelledByNewRequest).
Proof.
  induction events as [|e l IH]; intros s cl W Hc M; simpl.
  - rewrite (wf_unsettled s W cl Hc). discriminate.
  - pose proof (WF_step s e W) as W'.
    destruct (outcome (cl_promise cl) (step s e)) as [o|] eqn:E.
    + rewrite (outcome_stable _ l _ _ E). intros [= ->].
      destruct (step_settles s e (cl_promise cl)) as [E'|(_ & o & E' & Ho)].
      * rewrite (wf_unsettled s W cl Hc) in E'. congruence.
      * rewrite E in E'. injection E' as <-.
        destruct e as [|fen depth| | | | |]; simpl in Ho;
          try (destruct Ho as [Ho|Ho]); try discriminate; try contradiction.
        -- (* getEvaluation rejects only what is unmapped *)
           change (step s (GetEvaluation fen depth)) with (getEvaluation fen depth s) in *.
           destruct (worker s && isReady s) eqn:R.
           ++ apply andb_true_iff in R as [Hw Hr].
              assert (H : In cl (closures (getEvaluation fen depth s))).
              { apply getEvaluation_closures; auto. left. split; auto.
                now apply isMapped_true. }
              rewrite (wf_unsettled _ W' cl H) in E. discriminate.
           ++ rewrite getEvaluation_not_ready in E; auto.
              rewrite outcome_settle in E.
              change (outcome (cl_promise cl) (setPromises (S (promises s)) s))
                with (outcome (cl_promise cl) s) in E.
              rewrite (wf_unsettled s W cl Hc) in E.
              destruct (cl_promise cl =? promises s) eqn:Eq; [|discriminate].
              apply Nat.eqb_eq in Eq. pose proof (wf_created s W cl Hc). lia.
        -- destruct Ho as [r Ho]. discriminate.
    + assert (H : In cl (closures (step s e))).
      { pose proof (wf_complete _ W' (cl_promise cl)) as H.
        apply in_map_iff in H as [cl' [Ecl H]]; auto.
        - assert (In cl' (closures s) \/ promises s <= cl_promise cl') as [H1|H1].
          { destruct (timer_of_pending _ cl' W' H) as [t [Ht Et]].
            apply find_some in Ht as [Hin _].
            destruct (timers_step s e t Hin) as [H1|H1].
            - left. rewrite <- Et. now apply (wf_timer_pending s W).
            - right. unfold timerCall in H1. now rewrite Et in H1. }
          + assert (cl' = cl) by (apply (closure_by_promise s); auto). now subst.
          + pose proof (wf_created s W cl Hc). lia.
        - pose proof (promises_step s e). pose proof (wf_created s W cl Hc). lia. }
      apply IH; auto. now apply still_mapped.
Qed.

(** ** Lines of the protocol *)

Lemma after_prefix p q : forall s r,
  after (p ++ q)%string s = Some r -> String.prefix p s = true.
Proof.
  induction p as [|a p IH]; intros s r; simpl.
  - now destruct s.
  - destruct s as [|b s]; [discriminate|].
    destruct (a =? b)%char eqn:E; [|discriminate].
    apply Ascii.eqb_eq in E. subst b. simpl.
    destruct (ascii_dec a a); [|contradiction]. apply IH.
Qed.

Lemma search_includes {A} (at_ : string -> option A) p :
  (forall s r, at_ s = Some r -> String.prefix p s = true) ->
  forall s r, search at_ s = Some r -> includes p s = true.
Proof.
  intros H. induction s as [|c s IH]; intros r; cbn [search includes].
  - destruct (at_ "") eqn:E; [|discriminate]. intros _.
    now rewrite (H _ _ E).
  - destruct (at_ (String c s)) eqn:E.
    + intros _. now rewrite (H _ _ E).
    + intros Hs. rewrite (IH _ Hs). apply orb_true_r.
Qed.

Lemma scoreMatch_includes message m :
  scoreMatch message = Some m -> includes "score" message = true.
Proof.
  apply search_includes. intros s r. unfold scoreAt.
  destruct (after "score " s) eqn:E; [|discriminate]. intros _.
  apply (after_prefix "score" " " s s0 E).
Qed.

Lemma bestmove_not_info message :
  startsWith "bestmove" message = true -> startsWith "info" message = false.
Proof.
  unfold startsWith. destruct message as [|c m]; cbn [String.prefix];
    [discriminate|].
  destruct (ascii_dec "b" c) as [<-|]; [intros _|discriminate].
  destruct (ascii_dec "i" "b"); [discriminate|reflexivity].
Qed.

Lemma info_not_bestmove message :
  startsWith "info" message = true -> startsWith "bestmove" message = false.
Proof.
  unfold startsWith. destruct message as [|c m]; cbn [String.prefix];
    [discriminate|].
  destruct (ascii_dec "i" c) as [<-|]; [intros _|discriminate].
  destruct (ascii_dec "b" "i"); [discriminate|reflexivity].
Qed.

(** ** One pending evaluation, one search *)

Lemma single_roundtrip s e c ev0 sid info best m :
  pendingEvaluations s = [(e, mkPending (mkResolvers e c) ev0)] ->
  searchIdToEvalId s = [] \/ searchIdToEvalId s = [(sid, e)] ->
  outcome c s = None ->
  startsWith "info" info = true -> scoreMatch info = Some m ->
  startsWith "bestmove" best = true ->
  outcome c (run s [OnMessage (Message info (Some sid));
                    OnMessage (Message best (Some sid))]) =
  Some (Resolved (reported info best m)).
Proof.
  intros P M O I1 I2 B1.
  pose proof (scoreMatch_includes _ _ I2) as I3.
  pose proof (info_not_bestmove _ I1) as I4.
  pose proof (bestmove_not_info _ B1) as B2.
  destruct s as [w r pend eid map pr st tm ck ob]. simpl in *. subst pend.
  unfold outcome in O. simpl in O.
  set (cl := mkResolvers e c).
  set (s1 := mkState w r [(e, mkPending cl (Some (mkResult (scoreOf m) (pvMatch info))))]
                     eid [(sid, e)] pr st tm ck ob).
  assert (E1 : handleInfo info (Some sid)
                 (mkState w r [(e, mkPending cl ev0)] eid map pr st tm ck ob) = s1).
  { unfold handleInfo. rewrite I1, I3, I2. simpl.
    destruct M as [-> | ->]; unfold correlate, firstUnmapped, isMapped, setEvaluation;
      simpl; rewrite ?Nat.eqb_refl; simpl; rewrite ?Nat.eqb_refl; reflexivity. }
  assert (E2 : handleBestMove info (Some sid) s1 = s1).
  { unfold handleBestMove. now rewrite I4. }
  assert (E3 : handleInfo best (Some sid) s1 = s1).
  { unfold handleInfo. now rewrite B2. }
  unfold handleStockfishMessage. rewrite E1, E2, E3. clear E1 E2 E3.
  unfold reported. subst s1 cl.
  destruct (bestMoveMatch best) eqn:BM;
    unfold handleBestMove; rewrite B1, BM; unfold correlate; simpl;
    rewrite !Nat.eqb_refl; simpl; rewrite !Nat.eqb_refl; simpl;
    unfold wrapped, settle, outcome; simpl; rewrite O; simpl;
    rewrite Nat.eqb_refl; reflexivity.
Qed.

Lemma legacy_roundtrip l e cl sid sid' info best m :
  Legacy.pendingEvaluations l = [(e, cl)] ->
  Legacy.outcome (Legacy.cl_promise cl) l = None ->
  startsWith "info" info = true -> scoreMatch info = Some m ->
  startsWith "bestmove" best = true ->
  Legacy.outcome (Legacy.cl_promise cl)
    (Legacy.run l [Legacy.OnMessage (Message info sid);
                   Legacy.OnMessage (Message best sid')]) =
  Some (Resolved (reported info best m)).
Proof.
  intros P O I1 I2 B1.
  pose proof (scoreMatch_includes _ _ I2) as I3.
  pose proof (info_not_bestmove _ I1) as I4.
  pose proof (bestmove_not_info _ B1) as B2.
  destruct l as [w r pend eid cur pr st tm ck ob]. simpl in *. subst pend.
  unfold Legacy.outcome in O. simpl in O.
  set (s1 := Legacy.mkState w r [(e, cl)] eid
               (Some (mkResult (scoreOf m) (pvMatch info))) pr st tm ck ob).
  assert (E1 : Legacy.handleInfo info
                 (Legacy.mkState w r [(e, cl)] eid cur pr st tm ck ob) = s1).
  { unfold Legacy.handleInfo. now rewrite I1, I3, I2. }
  assert (E2 : Legacy.handleBestMove info s1 = s1).
  { unfold Legacy.handleBestMove. now rewrite I4. }
  assert (E3 : Legacy.handleInfo best s1 = s1).
  { unfold Legacy.handleInfo. now rewrite B2. }
  unfold Legacy.handleStockfishMessage. rewrite E1, E2, E3. clear E1 E2 E3.
  unfold reported. subst s1.
  destruct (bestMoveMatch best) eqn:BM;
    unfold Legacy.handleBestMove; rewrite B1, BM; simpl;
    unfold Legacy.wrapped, Legacy.settle, Legacy.outcome; simpl; rewrite O; simpl;
    rewrite Nat.eqb_refl; reflexivity.
Qed.

(** ** The engine of [src/lib/chessEngine.ts]: promises are created once *)

Module LegacyFacts.
Import Legacy.

Lemma Known_same l l' :
  Known l -> settled l' = settled l -> promises l' = promises l ->
  incl (pendingEvaluations l') (pendingEvaluations l) ->
  incl (timers l') (timers l) -> Known l'.
Proof.
  intros [K1 K2 K3] E1 E2 I1 I2. split; unfold outcome; rewrite ?E1, E2; auto.
Qed.

Lemma Known_settle c o l :
  Known l -> c < promises l ->
  Known (settle c o l) /\ promises (settle c o l) = promises l.
Proof.
  intros [K1 K2 K3] H. unfold settle. destruct (outcome c l) eqn:E.
  - split; [split|]; auto.
  - split; [split|]; simpl; auto. unfold outcome. simpl.
    intros c' o'. destruct (c' =? c) eqn:Ec; [|apply K1].
    apply Nat.eqb_eq in Ec. now subst.
Qed.

Lemma Known_wrapped cl o l :
  Known l -> cl_promise cl < promises l ->
  Known (wrapped cl o l) /\ promises (wrapped cl o l) = promises l.
Proof.
  intros K H. unfold wrapped.
  set (l1 := setPending (JsMap.delete (cl_evalId cl)
               (pendingEvaluations (clearTimeout (cl_promise cl) l)))
               (clearTimeout (cl_promise cl) l)).
  assert (K1 : Known l1).
  { apply (Known_same l); auto; simpl; intros x Hx; apply filter_In in Hx; tauto. }
  destruct (Known_settle (cl_promise cl) o l1 K1 H) as [K2 P2].
  split; auto.
Qed.

Lemma Known_rejectList err L : forall l,
  Known l -> (forall e, In e L -> cl_promise (snd e) < promises l) ->
  let l' := fold_left
              (fun s e => if JsMap.has (fst e) (pendingEvaluations s)
                          then wrapped (snd e) (Rejected err) s else s) L l in
  Known l' /\ promises l' = promises l.
Proof.
  induction L as [|x L IH]; intros l K H; simpl; [auto|].
  assert (Hx : cl_promise (snd x) < promises l) by (apply H; now left).
  destruct (JsMap.has (fst x) (pendingEvaluations l)).
  - destruct (Known_wrapped (snd x) (Rejected err) l K Hx) as [K' P'].
    destruct (IH (wrapped (snd x) (Rejected err) l) K') as [K'' P''].
    + intros e He. rewrite P'. apply H. now right.
    + split; auto. congruence.
  - apply IH; auto. intros e He. apply H. now right.
Qed.

Lemma Known_rejectEach err l :
  Known l -> Known (rejectEach err l) /\ promises (rejectEach err l) = promises l.
Proof.
  intros K. apply Known_rejectList; auto. apply (known_pending l K).
Qed.

Lemma Known_stopEvaluation l :
  Known l -> Known (stopEvaluation l) /\ promises (stopEvaluation l) = promises l.
Proof.
  intros K. unfold stopEvaluation. destruct (worker l && isReady l); auto.
  destruct (Known_rejectEach EvaluationStopped (postMessage Stop l)) as [K' P'].
  - eapply Known_same; eauto; apply incl_refl.
  - split; auto. eapply Known_same; eauto; try apply incl_refl.
    intros x [].
Qed.

Lemma Known_step l e : Known l -> Known (step l e).
Proof.
  intros K. destruct e as [|fen depth| | |m|c|ms]; simpl.
  - eapply Known_same; eauto; apply incl_refl.
  - unfold getEvaluation. simpl.
    assert (K0 : Known (setPromises (S (promises l)) l)).
    { destruct K as [K1 K2 K3]. split; simpl.
      - intros c o H. apply K1 in H. lia.
      - intros e He. apply K2 in He. lia.
      - intros t Ht. apply K3 in Ht. lia. }
    destruct (negb (worker l) || negb (isReady l)).
    + apply Known_settle; auto.
    + destruct K0 as [K1 K2 K3]. split; simpl in *; auto.
      * intros e He.
        assert (H : e = (S (evaluationId l), mkResolvers (S (evaluationId l)) (promises l))
                    \/ In e (pendingEvaluations l)).
        { now apply In_set. }
        destruct H as [->|H]; [simpl; lia|]. now apply K2.
      * intros t Ht. apply in_app_iff in Ht as [Ht|[<-|[]]]; [|simpl; lia].
        now apply K3.
  - now apply Known_stopEvaluation.
  - unfold destroy. destruct (worker l); auto.
    destruct (Known_stopEvaluation l K) as [K1 P1].
    destruct (Known_rejectEach WorkerTerminated (stopEvaluation l) K1) as [K2 P2].
    eapply Known_same; eauto; try apply incl_refl. intros x [].
  - destruct m as [|data searchId|data]; simpl; auto.
    + eapply Known_same; eauto; apply incl_refl.
    + unfold handleStockfishMessage.
      assert (K1 : Known (handleInfo data l)).
      { unfold handleInfo.
        destruct (startsWith "info" data && includes "score" data); auto.
        destruct (scoreMatch data); auto.
        eapply Known_same; eauto; apply incl_refl. }
      revert K1. generalize (handleInfo data l). intros l1 K1.
      unfold handleBestMove. destruct (startsWith "bestmove" data); auto.
      set (l2 := match bestMoveMatch data, currentEvaluation l1 with
                 | Some mv, Some ev => setCurrent (Some (mkResult (score ev) (Some mv))) l1
                 | _, _ => l1
                 end).
      assert (K2 : Known l2 /\ pendingEvaluations l2 = pendingEvaluations l1).
      { unfold l2. destruct (bestMoveMatch data), (currentEvaluation l1); auto.
        split; auto. eapply Known_same; eauto; apply incl_refl. }
      destruct K2 as [K2 P2].
      destruct (JsMap.values (pendingEvaluations l2)) as [|cl rest] eqn:V; auto.
      destruct (currentEvaluation l2); auto.
      assert (Hcl : cl_promise cl < promises l2).
      { unfold JsMap.values in V.
        destruct (pendingEvaluations l2) as [|[k v] m] eqn:P; [discriminate|].
        simpl in V. injection V as <- _.
        apply (known_pending l2 K2 (k, v)). rewrite P. now left. }
      destruct (Known_wrapped cl (Resolved e) l2 K2 Hcl) as [K3 P3].
      eapply Known_same; eauto; try apply incl_refl. intros x [].
  - unfold timerFires. destruct (timerOf c l) as [t|] eqn:Ht; auto.
    destruct (t_deadline t <=? clock l)%N; auto.
    apply find_some in Ht as [Hin _].
    apply Known_wrapped.
    + eapply Known_same; eauto; try apply incl_refl.
      simpl. intros x Hx. apply filter_In in Hx. tauto.
    + simpl. now apply (known_timers l K).
  - eapply Known_same; eauto; apply incl_refl.
Qed.

Lemma Known_reachable l : reachable l -> Known l.
Proof.
  induction 1; [|now apply Known_step].
  split; simpl; try tauto. discriminate.
Qed.

Lemma legacy_fresh_promise l : reachable l -> outcome (promises l) l = None.
Proof.
  intros R. destruct (outcome (promises l) l) eqn:E; auto.
  apply (known_settled l (Known_reachable l R)) in E. lia.
Qed.

Lemma legacy_reachable_run l events : reachable l -> reachable (run l events).
Proof.
  revert l. induction events as [|e t IH]; intros l H; simpl; auto.
  apply IH. now constructor.
Qed.
End LegacyFacts.

(** ** The engine inside the system *)

Lemma WF_setOutbox l s : WF s -> WF (System.setOutbox l s).
Proof. intros W. destruct W. split; auto. Qed.

Lemma WF_system_step sys a :
  WF (System.main sys) -> WF (System.main (System.step sys a)).
Proof.
  intros W. destruct a as [e| | |line]; simpl.
  - destruct e; simpl; auto.
    + now apply WF_initialize.
    + now apply WF_getEvaluation.
    + now apply WF_stopEvaluation.
    + destruct (worker (System.main sys)); simpl; auto.
      now apply WF_setOutbox, WF_destroy.
    + now apply WF_timerFires.
    + destruct W. split; auto.
  - destruct (System.wk sys); auto.
    destruct (outbox (System.main sys)); simpl; auto.
    now apply WF_setOutbox.
  - destruct (System.wk sys) as [w|]; auto.
    destruct (StockfishWorker.toMain w); simpl; auto.
    now apply WF_onmessage.
  - destruct (System.wk sys) as [w|]; auto.
    destruct (StockfishWorker.stockfish w); auto.
Qed.

Lemma WF_system sys : System.reachable sys -> WF (System.main sys).
Proof.
  induction 1; [apply WF_initial|now apply WF_system_step].
Qed.

Lemma system_reachable_run sys actions :
  System.reachable sys -> System.reachable (System.run sys actions).
Proof.
  revert sys. induction actions as [|a l IH]; intros sys H; simpl; auto.
  apply IH. now constructor.
Qed.

Lemma idle_ignores data searchId s :
  pendingEvaluations s = [] -> searchIdToEvalId s = [] ->
  handleStockfishMessage data searchId s = s.
Proof.
  intros P M.
  assert (C : forall sid, correlate sid s = (None, s)).
  { intros sid. unfold correlate. now rewrite M, P. }
  assert (I : handleInfo data searchId s = s).
  { unfold handleInfo.
    destruct (startsWith "info" data && includes "score" data); auto.
    destruct (scoreMatch data); auto. destruct searchId as [sid|]; auto.
    now rewrite C. }
  unfold handleStockfishMessage. rewrite I. unfold handleBestMove.
  destruct (startsWith "bestmove" data); auto.
  destruct searchId as [sid|]; auto. now rewrite C.
Qed.

Lemma idle_unmapped s :
  WF s -> pendingEvaluations s = [] -> searchIdToEvalId s = [].
Proof.
  intros W P. destruct (searchIdToEvalId s) as [|[sid e] m] eqn:E; auto.
  exfalso. pose proof (wf_map_vals s W e) as H. rewrite E, P in H.
  apply H. now left.
Qed.

(** ** The only pending evaluation and the lines of its search *)

Lemma engine_reports s sid c info best m :
  onlyPending s sid c ->
  startsWith "info" info = true -> scoreMatch info = Some m ->
  startsWith "bestmove" best = true ->
  outcome c (run s [OnMessage (Message info (Some sid));
                    OnMessage (Message best (Some sid))]) =
  Some (Resolved (reported info best m)).
Proof.
  intros (e & [cl ev0] & P & Ecl & M & O). simpl in Ecl. subst cl.
  now apply single_roundtrip with (e := e) (ev0 := ev0).
Qed.

Lemma legacy_reports l sid sid' c info best m :
  legacyOnlyPending l c ->
  startsWith "info" info = true -> scoreMatch info = Some m ->
  startsWith "bestmove" best = true ->
  Legacy.outcome c (Legacy.run l [Legacy.OnMessage (Message info sid);
                                  Legacy.OnMessage (Message best sid')]) =
  Some (Resolved (reported info best m)).
Proof.
  intros (e & cl & P & <- & O). now apply legacy_roundtrip with (e := e).
Qed.

(** ** The shape of the lines *)

Lemma after_app p : forall u x r,
  after p u = Some r -> after p (u ++ x)%string = Some (r ++ x)%string.
Proof.
  induction p as [|a p IH]; intros u x r; simpl.
  - now intros [= ->].
  - destruct u as [|b u]; [discriminate|]. simpl.
    destruct (a =? b)%char; [apply IH|discriminate].
Qed.

Lemma after_short p : forall u rest,
  noS p = true -> after p u = None ->
  after p (u ++ String "s" rest)%string = None.
Proof.
  induction p as [|a p IH]; intros u rest; cbn [noS after]; [discriminate|].
  intros H. apply andb_true_iff in H as [Ha Hp].
  destruct u as [|b u]; cbn [append after].
  - intros _. apply negb_true_iff in Ha. now rewrite Ha.
  - destruct (a =? b)%char; auto.
Qed.

Lemma digits_before_s n rest : digits (n ++ String "s" rest) = digits n.
Proof.
  induction n as [|c n IH]; simpl; [reflexivity|].
  destruct (isDigit c); [now rewrite IH|reflexivity].
Qed.

Lemma numberAt_before_s n rest : numberAt (n ++ String "s" rest) = numberAt n.
Proof.
  destruct n as [|c n]; [reflexivity|].
  change ((String c n ++ String "s" rest)%string)
    with (String c (n ++ String "s" rest)%string).
  unfold numberAt. rewrite digits_before_s.
  change (String c (n ++ String "s" rest)%string)
    with ((String c n ++ String "s" rest)%string).
  now rewrite digits_before_s.
Qed.

Lemma after_cons a p b s :
  after (String a p) (String b s) = if (a =? b)%char then after p s else None.
Proof. reflexivity. Qed.

(** A match that starts before an [s] does not reach it. *)
Lemma scoreAt_before_s c u rest :
  scoreAt (String c u ++ String "s" rest) = scoreAt (String c u).
Proof.
  unfold scoreAt.
  destruct (after "score " (String c u)) as [r|] eqn:E.
  - rewrite (after_app _ _ (String "s" rest) _ E).
    destruct (after "cp " r) as [n|] eqn:E1.
    + rewrite (after_app _ _ (String "s" rest) _ E1).
      now rewrite numberAt_before_s.
    + rewrite (after_short "cp " r rest eq_refl E1).
      destruct (after "mate " r) as [n|] eqn:E2.
      * rewrite (after_app _ _ (String "s" rest) _ E2).
        now rewrite numberAt_before_s.
      * now rewrite (after_short "mate " r rest eq_refl E2).
  - change ((String c u ++ String "s" rest)%string)
      with (String c (u ++ String "s" rest)%string).
    rewrite (after_cons "s" "core ") in E |- *.
    destruct ("s" =? c)%char; [|reflexivity].
    now rewrite (after_short "core " u rest eq_refl E).
Qed.

Lemma scoreMatch_skip pre rest :
  scoreMatch pre = None ->
  scoreMatch (pre ++ String "s" rest) = scoreMatch (String "s" rest).
Proof.
  unfold scoreMatch. induction pre as [|c pre IH]; [reflexivity|].
  change ((String c pre ++ String "s" rest)%string)
    with (String c (pre ++ String "s" rest)%string).
  cbn [search]. destruct (scoreAt (String c pre)) eqn:E; [discriminate|].
  intros H.
  change (scoreAt (String c (pre ++ String "s" rest)%string))
    with (scoreAt (String c pre ++ String "s" rest)%string).
  rewrite scoreAt_before_s, E. now apply IH.
Qed.

Lemma digits_exact d post :
  allDigits d = true -> endsNumber post = true -> digits (d ++ post) = d.
Proof.
  intros H E. induction d as [|c d IH]; simpl in *.
  - destruct post as [|c post]; [reflexivity|]. simpl in *.
    apply negb_true_iff in E. now rewrite E.
  - apply andb_true_iff in H as [Hc Hd]. rewrite Hc. now rewrite IH.
Qed.

Lemma numberAt_exact d post :
  isNumber d = true -> endsNumber post = true -> numberAt (d ++ post) = Some d.
Proof.
  intros H E. destruct d as [|c d]; [discriminate|].
  change ((String c d ++ post)%string) with (String c (d ++ post)%string).
  unfold numberAt, isNumber in *. destruct (c =? "-")%char.
  - apply andb_true_iff in H as [Hd Hn]. rewrite (digits_exact d post Hd E).
    destruct d; [discriminate|reflexivity].
  - change (String c (d ++ post)%string) with ((String c d ++ post)%string).
    now rewrite (digits_exact _ post H E).
Qed.


Lemma scoreMatch_mate pre d post :
  scoreMatch pre = None -> isNumber d = true -> endsNumber post = true ->
  scoreMatch (pre ++ "score mate " ++ d ++ post) = Some (mate, d).
Proof.
  intros H1 H2 H3.
  change ("score mate " ++ d ++ post)%string
    with (String "s" ("core mate " ++ d ++ post)%string).
  rewrite (scoreMatch_skip _ _ H1).
  unfold scoreMatch. cbn [search]. unfold scoreAt.
  change (after "score " (String "s" ("core mate " ++ d ++ post)%string))
    with (Some (("mate " ++ d ++ post)%string)).
  cbv beta iota.
  change (after "cp " ("mate " ++ d ++ post)%string) with (@None string).
  cbv beta iota.
  change (after "mate " ("mate " ++ d ++ post)%string) with (Some ((d ++ post)%string)).
  cbv beta iota.
  now rewrite (numberAt_exact d post H2 H3).
Qed.

Lemma startsWith_app p rest : startsWith p (p ++ rest) = true.
Proof.
  unfold startsWith. induction p as [|a p IH]; simpl; [now destruct rest|].
  destruct (ascii_dec a a); [assumption|contradiction].
Qed.



Lemma bestMoveMatch_f7f8q tail :
  bestMoveMatch ("bestmove f7f8q" ++ tail) = Some "f7f8q".
Proof. reflexivity. Qed.

(** A call on an idle, ready engine is the only pending evaluation. *)
Lemma idle_call s fen depth sid :
  reachable s -> worker s = true -> isReady s = true ->
  pendingEvaluations s = [] ->
  onlyPending (step s (GetEvaluation fen depth)) sid (promises s).
Proof.
  intros R Hw Hr P. pose proof (WF_reachable s R) as W.
  change (step s (GetEvaluation fen depth)) with (getEvaluation fen depth s).
  rewrite getEvaluation_ready; auto.
  unfold previousUnmappedEvaluations. rewrite P. simpl.
  exists (S (evaluationId s)),
         (mkPending (mkResolvers (S (evaluationId s)) (promises s)) None).
  unfold enqueue. simpl. rewrite P. simpl.
  split; [reflexivity|]. split; [reflexivity|]. split.
  - left. now apply idle_unmapped.
  - apply (fresh_promise s W).
Qed.

Lemma legacy_idle_call l fen depth :
  Legacy.reachable l -> Legacy.worker l = true -> Legacy.isReady l = true ->
  Legacy.pendingEvaluations l = [] ->
  legacyOnlyPending (Legacy.step l (Legacy.GetEvaluation fen depth))
                    (Legacy.promises l).
Proof.
  intros R Hw Hr P. simpl. unfold Legacy.getEvaluation. simpl.
  rewrite Hw, Hr, P. simpl.
  exists (S (Legacy.evaluationId l)),
         (Legacy.mkResolvers (S (Legacy.evaluationId l)) (Legacy.promises l)).
  repeat split. apply (LegacyFacts.legacy_fresh_promise l R).
Qed.

(** ** The scenarios are reachable *)

Lemma ready_reachable : reachable ready.
Proof. apply reachable_run, reach_initial. Qed.

Lemma legacyReady_reachable : Legacy.reachable legacyReady.
Proof. apply LegacyFacts.legacy_reachable_run, Legacy.reach_initial. Qed.

Lemma booted_reachable : System.reachable booted.
Proof. apply system_reachable_run, System.reach_initial. Qed.

(** * Further properties of the engine *)

(** ** getStatus *)

Lemma unsettled_spec s c :
  In c (unsettled s) <-> c < promises s /\ outcome c s = None.
Proof.
  unfold unsettled. rewrite filter_In, in_seq.
  destruct (outcome c s); split; intros H; try (destruct H; discriminate).
  - destruct H. split; [lia|reflexivity].
  - destruct H. split; [lia|reflexivity].
Qed.

(** X1: [getStatus().pendingCount] is the number of calls of
    [getEvaluation] whose promise is not settled yet: no call is pending
    without an entry, and no entry outlives its call. *)
Theorem pendingCount_counts_unsettled (s : State) :
  reachable s -> pendingCount (getStatus s) = List.length (unsettled s).
Proof.
  intros R. pose proof (WF_reachable s R) as W.
  cbn [getStatus pendingCount]. unfold JsMap.size.
  assert (E : List.length (pendingEvaluations s) =
              List.length (map cl_promise (closures s))).
  { unfold closures. now rewrite !length_map. }
  rewrite E. apply Nat.le_antisymm.
  - apply NoDup_incl_length; [apply (wf_calls s W)|].
    intros c Hc. apply unsettled_spec.
    apply in_map_iff in Hc as (cl & <- & Hcl). split.
    + now apply (wf_created s W).
    + now apply (wf_unsettled s W).
  - apply NoDup_incl_length.
    + unfold unsettled. apply NoDup_filter, seq_NoDup.
    + intros c Hc. apply unsettled_spec in Hc as [H1 H2].
      now apply (wf_complete s W).
Qed.

Lemma pendingCount_counts_unsettled_witness :
  reachable (run ready (calls threeCalls)) /\
  unsettled (run ready (calls threeCalls)) = [2] /\
  pendingCount (getStatus (run ready (calls threeCalls))) = 1.
Proof.
  assert (R : reachable (run ready (calls threeCalls)))
    by apply reachable_run, ready_reachable.
  split; [exact R|]. split; [reflexivity|].
  rewrite (pendingCount_counts_unsettled _ R). reflexivity.
Defined.

(** ** destroy *)

(** When [destroy()] reaches its own loop over [pendingEvaluations],
    [stopEvaluation()] has emptied the map, or the map was empty all along
    because the engine was not ready. *)
Lemma destroy_settles s c :
  WF s ->
  outcome c (destroy s) = outcome c s \/
  (outcome c s = None /\
   outcome c (destroy s) = Some (Rejected EvaluationStopped)).
Proof.
  intros W. unfold destroy. destruct (worker s) eqn:Hw; [|now left].
  assert (P : pendingEvaluations (stopEvaluation s) = []).
  { destruct (isReady s) eqn:Hr.
    - now destruct (stopEvaluation_spec s W Hw Hr) as (_ & P & _).
    - unfold stopEvaluation. rewrite Hw, Hr. simpl.
      destruct (pendingEvaluations s) eqn:E; auto.
      destruct (wf_ready s W) as [_ H]; [now rewrite E|congruence]. }
  assert (E : rejectEach WorkerTerminated (stopEvaluation s) = stopEvaluation s).
  { unfold rejectEach. now rewrite P. }
  rewrite E.
  change (outcome c (setEvaluationId 0 (setReady false (setWorker false
            (setMapping [] (setPending [] (stopEvaluation s)))))))
    with (outcome c (stopEvaluation s)).
  destruct (calm_stopEvaluation s) as (K & _).
  destruct (K c) as [H|(H & o & H' & <-)]; [now left|now right].
Qed.

(** X2: no call is ever rejected with 'Worker terminated': the loop of
    [destroy()] that rejects with this error never finds an entry. *)
Theorem never_rejected_as_terminated (s : State) (c : nat) :
  reachable s -> outcome c s <> Some (Rejected WorkerTerminated).
Proof.
  induction 1 as [|s e R IH]; [discriminate|].
  pose proof (WF_reachable s R) as W.
  assert (K : outcome c (step s e) = outcome c s \/
              exists o, outcome c (step s e) = Some o /\
                        o <> Rejected WorkerTerminated).
  { destruct e.
    - destruct (step_settles s Initialize c) as [H|(_ & o & _ & [])]. now left.
    - destruct (step_settles s (GetEvaluation fen depth) c)
        as [H|(_ & o & H & [->| ->])]; [now left| |];
        right; eexists; (split; [exact H|discriminate]).
    - destruct (step_settles s StopEvaluation c) as [H|(_ & o & H & ->)];
        [now left|]. right. eexists. split; [exact H|discriminate].
    - destruct (destroy_settles s c W) as [H|[_ H]]; [now left|].
      right. eexists. split; [exact H|discriminate].
    - destruct (step_settles s (OnMessage e) c)
        as [H|(_ & o & H & [[r ->]| ->])]; [now left| |];
        right; eexists; (split; [exact H|discriminate]).
    - destruct (step_settles s (TimerFires call) c) as [H|(_ & o & H & ->)];
        [now left|]. right. eexists. split; [exact H|discriminate].
    - destruct (step_settles s (Elapse ms) c) as [H|(_ & o & _ & [])]. now left. }
  destruct K as [-> |(o & -> & Ho)]; [exact IH|congruence].
Qed.

Lemma never_rejected_as_terminated_witness :
  reachable (run oneUnmapped [Destroy]) /\
  outcome 0 (run oneUnmapped [Destroy]) = Some (Rejected EvaluationStopped) /\
  outcome 0 (run oneUnmapped [Destroy]) <> Some (Rejected WorkerTerminated).
Proof.
  assert (R : reachable (run oneUnmapped [Destroy])).
  { apply reachable_run. unfold oneUnmapped. apply reachable_run, ready_reachable. }
  split; [exact R|]. split; [reflexivity|].
  apply (never_rejected_as_terminated _ 0 R).
Defined.

(** ** Timers and the search-id mapping *)

(** X3: the timeout of a call is armed exactly as long as the call's
    promise is not settled: every way of settling clears it, and no call
    waits without it. *)
Theorem timer_armed_iff_unsettled (s : State) (c : nat) :
  reachable s ->
  ((exists t, In t (timers s) /\ timerCall t = c) <->
   (c < promises s /\ outcome c s = None)).
Proof.
  intros R. pose proof (WF_reachable s R) as W. split.
  - intros (t & Ht & <-). pose proof (wf_timer_pending s W t Ht) as Hcl.
    split; [now apply (wf_created s W)|now apply (wf_unsettled s W)].
  - intros [Hc Ho]. pose proof (wf_complete s W c Hc Ho) as H.
    apply in_map_iff in H as (cl & <- & Hcl).
    destruct (wf_pending_timer s W cl Hcl) as (t & Ht & <-).
    exists t. split; [exact Ht|reflexivity].
Qed.

Lemma timer_armed_iff_unsettled_witness :
  reachable (run ready (calls threeCalls)) /\
  (exists t, In t (timers (run ready (calls threeCalls))) /\ timerCall t = 2) /\
  ~ (exists t, In t (timers (run ready (calls threeCalls))) /\ timerCall t = 1).
Proof.
  assert (R : reachable (run ready (calls threeCalls)))
    by apply reachable_run, ready_reachable.
  split; [exact R|]. split.
  - apply (timer_armed_iff_unsettled _ 2 R). split; [simpl; lia|reflexivity].
  - intros H. apply (timer_armed_iff_unsettled _ 1 R) in H as [_ H].
    discriminate H.
Defined.

(** X4: a search id is mapped only to an evaluation that is pending, and
    no two search ids are mapped to the same evaluation (which is why the
    clean-up loops of [wrappedResolve] and [wrappedReject] may stop at the
    first entry they delete). *)
Theorem mapping_of_pending (s : State) (sid e : nat) :
  reachable s -> JsMap.get sid (searchIdToEvalId s) = Some e ->
  JsMap.has e (pendingEvaluations s) = true /\
  forall sid', JsMap.get sid' (searchIdToEvalId s) = Some e -> sid' = sid.
Proof.
  intros R G. pose proof (WF_reachable s R) as W.
  apply get_In in G. split.
  - apply has_true. apply (wf_map_vals s W).
    unfold JsMap.values. apply in_map_iff. now exists (sid, e).
  - intros sid' G'. apply get_In in G'.
    assert (E : (sid', e) = (sid, e)).
    { apply (NoDup_map_inj snd (searchIdToEvalId s)); auto.
      apply (wf_map_inj s W). }
    congruence.
Qed.

Lemma mapping_of_pending_witness :
  reachable (run oneUnmapped waited) /\
  JsMap.get 1 (searchIdToEvalId (run oneUnmapped waited)) = Some 1 /\
  JsMap.has 1 (pendingEvaluations (run oneUnmapped waited)) = true.
Proof.
  assert (R : reachable (run oneUnmapped waited)).
  { apply reachable_run. unfold oneUnmapped. apply reachable_run, ready_reachable. }
  split; [exact R|]. split; [reflexivity|].
  apply (mapping_of_pending _ 1 1 R eq_refl).
Defined.

(** ** restart *)

(** X5: after [restart()] of an engine that had a worker, a call of
    [getEvaluation] made before the new worker has reported 'ready' is
    rejected as not initialized and sends nothing to the worker; once
    'ready' has arrived a call is accepted, as evaluation 1 again. *)
Theorem call_after_restart (s : State) (fen : string) (depth : nat) :
  reachable s -> worker s = true ->
  let s1 := restart s in
  let early := getEvaluation fen depth s1 in
  let late := getEvaluation fen depth (onmessage Ready s1) in
  outcome (promises s) early = Some (Rejected NotInitialized) /\
  pendingEvaluations early = [] /\ outbox early = outbox s1 /\
  outcome (promises s) late = None /\
  JsMap.keys (pendingEvaluations late) = [1] /\
  outbox late = outbox s1 ++ [Evaluate ("fen " ++ fen) depth].
Proof.
  intros R Hw s1 early late. pose proof (WF_reachable s R) as W.
  destruct (destroy_spec s W Hw) as (W' & P & M & E & Hw' & Hr' & Pr & T & _).
  assert (W1 : WF s1) by (apply WF_initialize; exact W').
  assert (P1 : pendingEvaluations s1 = []) by exact P.
  assert (Pr1 : promises s1 = promises s) by exact Pr.
  assert (F1 : outcome (promises s) s1 = None).
  { rewrite <- Pr1. apply (fresh_promise s1 W1). }
  assert (Ee : early = settle (promises s1) (Rejected NotInitialized)
                              (setPromises (S (promises s1)) s1)).
  { apply getEvaluation_not_ready.
    change (isReady s1) with (isReady (destroy s)). rewrite Hr'.
    apply andb_false_r. }
  assert (El : late = enqueue fen depth (onmessage Ready s1)).
  { unfold late. rewrite getEvaluation_ready; [|reflexivity|reflexivity].
    unfold previousUnmappedEvaluations.
    change (pendingEvaluations (onmessage Ready s1)) with (pendingEvaluations s1).
    now rewrite P1. }
  split; [|split; [|split; [|split; [|split]]]].
  - rewrite Ee, outcome_settle, Pr1, Nat.eqb_refl.
    change (outcome (promises s) (setPromises (S (promises s)) s1))
      with (outcome (promises s) s1).
    now rewrite F1.
  - rewrite Ee. unfold settle.
    destruct (outcome (promises s1) (setPromises (S (promises s1)) s1));
      exact P1.
  - rewrite Ee. unfold settle.
    destruct (outcome (promises s1) (setPromises (S (promises s1)) s1));
      reflexivity.
  - rewrite El, enqueue_outcome. exact F1.
  - rewrite El. unfold enqueue.
    match goal with
    | |- JsMap.keys (pendingEvaluations
           (postMessage _ (setTimers _ (setPending ?p _)))) = _ =>
        change (JsMap.keys p = [1])
    end.
    change (pendingEvaluations (onmessage Ready s1)) with (pendingEvaluations s1).
    change (evaluationId (onmessage Ready s1)) with (evaluationId (destroy s)).
    rewrite P1, E. reflexivity.
  - rewrite El. reflexivity.
Qed.

Lemma call_after_restart_witness :
  reachable oneUnmapped /\ worker oneUnmapped = true /\
  outcome 1 (getEvaluation fenE4 15 (restart oneUnmapped)) =
  Some (Rejected NotInitialized).
Proof.
  assert (R : reachable oneUnmapped) by apply reachable_run, ready_reachable.
  split; [exact R|]. split; [reflexivity|].
  apply (call_after_restart oneUnmapped fenE4 15 R eq_refl).
Defined.

(** ** The results delivered *)

Lemma moveAt_isUciMove s mv : moveAt s = Some mv -> isUciMove mv = true.
Proof.
  destruct s as [|f1 [|r1 [|f2 [|r2 rest]]]]; try discriminate. unfold moveAt.
  destruct (isFile f1 && isRank r1 && isFile f2 && isRank r2) eqn:E;
    [|discriminate].
  intros [= <-]. cbn [isUciMove]. rewrite E. cbn [andb].
  destruct rest as [|p rest]; [reflexivity|].
  destruct (isPromo p) eqn:Ep; [exact Ep|reflexivity].
Qed.

Lemma search_found {A} (at_ : string -> option A) s r :
  search at_ s = Some r -> exists s', at_ s' = Some r.
Proof.
  induction s as [|c s IH]; cbn [search].
  - destruct (at_ EmptyString) eqn:E; [|discriminate].
    intros [= <-]. now exists EmptyString.
  - destruct (at_ (String c s)) eqn:E; [|exact IH].
    intros [= <-]. now exists (String c s).
Qed.

Lemma pvMatch_isUciMove message mv :
  pvMatch message = Some mv -> isUciMove mv = true.
Proof.
  intros H. apply search_found in H as (s' & H).
  destruct (after "pv " s'); [|discriminate]. now apply moveAt_isUciMove in H.
Qed.

Lemma bestMoveMatch_isUciMove message mv :
  bestMoveMatch message = Some mv -> isUciMove mv = true.
Proof.
  intros H. apply search_found in H as (s' & H).
  destruct (after "bestmove " s'); [|discriminate].
  now apply moveAt_isUciMove in H.
Qed.

Lemma noNewPartial_refl s : noNewPartial s s.
Proof. intros x H. now left. Qed.

Lemma noNewPartial_trans s1 s2 s3 :
  noNewPartial s1 s2 -> noNewPartial s2 s3 -> noNewPartial s1 s3.
Proof.
  intros H1 H2 x H. destruct (H2 x H) as [H'|H']; [now apply H1|now right].
Qed.

Lemma noNewPartial_sub s s' :
  incl (pendingEvaluations s') (pendingEvaluations s) -> noNewPartial s s'.
Proof. intros H x Hx. left. now apply H. Qed.

Lemma noNewPartial_wrapped cl o s : noNewPartial s (wrapped cl o s).
Proof.
  apply noNewPartial_sub. rewrite wrapped_pending. intros x Hx.
  now apply In_delete in Hx.
Qed.

Lemma noNewPartial_fold {X} (f : State -> X -> State) L :
  (forall s x, noNewPartial s (f s x)) ->
  forall s, noNewPartial s (fold_left f L s).
Proof.
  intros H. induction L as [|x L IH]; intros s; simpl;
    [apply noNewPartial_refl|].
  eapply noNewPartial_trans; [apply H|apply IH].
Qed.

Lemma noNewPartial_rejectPrevious s eid : noNewPartial s (rejectPrevious s eid).
Proof.
  unfold rejectPrevious.
  destruct (JsMap.get eid (pendingEvaluations s)) as [p|];
    [|apply noNewPartial_refl].
  eapply noNewPartial_trans;
    [apply (noNewPartial_wrapped (resolvers p) (Rejected CancelledByNewRequest))|].
  apply noNewPartial_sub. intros x Hx. apply In_delete in Hx as [Hx _].
  exact Hx.
Qed.

Lemma noNewPartial_rejectEach err s : noNewPartial s (rejectEach err s).
Proof.
  unfold rejectEach. apply noNewPartial_fold. intros s0 x.
  destruct (JsMap.has (fst x) (pendingEvaluations s0));
    [apply noNewPartial_wrapped|apply noNewPartial_refl].
Qed.

Lemma noNewPartial_empty s s' : pendingEvaluations s' = [] -> noNewPartial s s'.
Proof. intros E x Hx. rewrite E in Hx. destruct Hx. Qed.

Lemma noNewPartial_step s e :
  (forall m, e <> OnMessage m) -> noNewPartial s (step s e).
Proof.
  intros He. destruct e; cbn [step].
  - apply noNewPartial_sub. intros x Hx. exact Hx.
  - destruct (worker s && isReady s) eqn:E.
    + apply andb_true_iff in E as [Hw Hr]. rewrite getEvaluation_ready; auto.
      apply noNewPartial_trans
        with (s2 := fold_left rejectPrevious (previousUnmappedEvaluations s) s).
      * apply (noNewPartial_fold rejectPrevious). apply noNewPartial_rejectPrevious.
      * intros x Hx. unfold enqueue in Hx.
        cbn [pendingEvaluations postMessage setTimers setPending] in Hx.
        apply In_set in Hx as [->|Hx]; [right; reflexivity|now left].
    + rewrite getEvaluation_not_ready; auto. apply noNewPartial_sub.
      unfold settle. destruct outcome; apply incl_refl.
  - unfold stopEvaluation. destruct (worker s && isReady s);
      [now apply noNewPartial_empty|apply noNewPartial_refl].
  - unfold destroy. destruct (worker s);
      [now apply noNewPartial_empty|apply noNewPartial_refl].
  - now destruct (He e).
  - unfold timerFires. destruct (timerOf call s) as [t|];
      [|apply noNewPartial_refl].
    destruct (t_deadline t <=? clock s)%N;
      [apply noNewPartial_wrapped|apply noNewPartial_refl].
  - apply noNewPartial_sub. intros x Hx. exact Hx.
Qed.

Lemma resultsWellFormed_same s s' :
  pendingEvaluations s' = pendingEvaluations s -> settled s' = settled s ->
  resultsWellFormed s -> resultsWellFormed s'.
Proof.
  intros P S [A B]. unfold resultsWellFormed, outcome. rewrite P, S.
  split; assumption.
Qed.

Lemma resultsWellFormed_correlate sid s :
  WF s -> resultsWellFormed s -> resultsWellFormed (snd (correlate sid s)).
Proof.
  intros W H. destruct (correlate_spec sid s W) as (_ & Q & P & _).
  destruct Q as (_ & S & _). now apply (resultsWellFormed_same s).
Qed.

Lemma resultsWellFormed_handleInfo message searchId s :
  WF s -> resultsWellFormed s ->
  resultsWellFormed (handleInfo message searchId s).
Proof.
  intros W H. unfold handleInfo.
  destruct (startsWith "info" message && includes "score" message); auto.
  destruct (scoreMatch message) as [m|]; auto.
  destruct searchId as [sid|]; auto.
  pose proof (resultsWellFormed_correlate sid s W H) as H1.
  destruct (correlate sid s) as [[e|] s1]; cbn [snd] in H1; auto.
  unfold setEvaluation.
  destruct (JsMap.get e (pendingEvaluations s1)) as [p|]; auto.
  destruct H1 as [A B]. split.
  - intros x ev Hx Hev. cbn [pendingEvaluations setPending] in Hx.
    apply In_set in Hx as [->|Hx]; [|now apply (A x)].
    cbn [snd evaluation] in Hev. injection Hev as <-.
    intros mv Hmv. now apply (pvMatch_isUciMove message).
  - exact B.
Qed.

Lemma completion_wellFormed message p r :
  (forall ev, evaluation p = Some ev -> wellFormed ev) ->
  completion message p = Resolved r -> wellFormed r.
Proof.
  intros A. unfold completion.
  destruct (bestMoveMatch message) as [mv|] eqn:M.
  - assert (K : forall z, wellFormed (mkResult z (Some mv))).
    { intros z mv' [= <-]. now apply (bestMoveMatch_isUciMove message). }
    destruct (evaluation p); intros [= <-]; apply K.
  - destruct (evaluation p) as [old|]; [|discriminate].
    intros [= <-]. now apply A.
Qed.

Lemma resultsWellFormed_handleBestMove message searchId s :
  WF s -> resultsWellFormed s ->
  resultsWellFormed (handleBestMove message searchId s).
Proof.
  intros W H.
  destruct (startsWith "bestmove" message) eqn:B;
    [|unfold handleBestMove; now rewrite B].
  destruct searchId as [sid|]; [|unfold handleBestMove; now rewrite B].
  pose proof (resultsWellFormed_correlate sid s W H) as H1.
  destruct (correlate_spec sid s W) as (_ & _ & P & _).
  destruct (fst (correlate sid s)) as [e|] eqn:C.
  - destruct (JsMap.get e (pendingEvaluations s)) as [p|] eqn:G.
    + destruct (handleBestMove_attributed message sid s e p W B C G)
        as (-> & _ & _).
      destruct H1 as [A1 B1]. split.
      * intros x ev Hx. cbn [pendingEvaluations setMapping] in Hx.
        rewrite wrapped_pending in Hx. apply In_delete in Hx as [Hx _].
        now apply A1.
      * intros c r.
        change (outcome c (setMapping ?m ?x)) with (outcome c x).
        rewrite wrapped_outcome.
        destruct (c =? cl_promise (resolvers p)); [|apply B1].
        destruct (outcome c (snd (correlate sid s))) as [o|] eqn:O.
        -- intros [= ->]. now apply (B1 c).
        -- intros [= Hc]. apply (completion_wellFormed message p); auto.
           intros ev Hev. destruct H as [A _].
           apply (A (e, p)); [now apply get_In|exact Hev].
    + unfold handleBestMove. rewrite B.
      destruct (correlate sid s) as [x s1]. cbn [fst snd] in *. subst x.
      now rewrite P, G.
  - unfold handleBestMove. rewrite B.
    destruct (correlate sid s) as [x s1]. cbn [fst snd] in *. now subst x.
Qed.

Lemma resultsWellFormed_step s e :
  WF s -> resultsWellFormed s -> resultsWellFormed (step s e).
Proof.
  intros W H.
  assert (K : forall m, e = OnMessage m -> resultsWellFormed (step s e)).
  { intros [| data searchId | data] ->; cbn [step onmessage]; auto.
    unfold handleStockfishMessage.
    apply resultsWellFormed_handleBestMove.
    - now apply handleInfo_spec.
    - now apply resultsWellFormed_handleInfo. }
  assert (N : (forall m, e <> OnMessage m) -> resultsWellFormed (step s e)).
  { intros He. destruct H as [A B]. split.
    - intros x ev Hx Hev.
      destruct (noNewPartial_step s e He x Hx) as [Hx'|Hx']; [|congruence].
      now apply (A x).
    - intros c r Hr. destruct (step_settles s e c) as [E|(_ & o & E & Ho)].
      + rewrite E in Hr. now apply (B c).
      + rewrite E in Hr. injection Hr as ->.
        destruct e; cbn [allowed] in Ho;
          try (destruct Ho as [Ho|Ho]); try discriminate; try contradiction.
        now destruct (He e). }
  destruct e; try (apply N; discriminate). now apply (K e).
Qed.

Lemma resultsWellFormed_reachable s : reachable s -> resultsWellFormed s.
Proof.
  induction 1 as [|s e R IH].
  - split; [intros x ev []|discriminate].
  - apply resultsWellFormed_step; auto. now apply WF_reachable.
Qed.

(** X6: the best move of every result a call is resolved with is [null]
    or a move in UCI notation: two squares, and at most one promotion
    piece. *)
Theorem resolved_move_is_uci (s : State) (c : nat) (r : EvaluationResult)
    (mv : string) :
  reachable s -> outcome c s = Some (Resolved r) -> bestMove r = Some mv ->
  isUciMove mv = true.
Proof.
  intros R H. destruct (resultsWellFormed_reachable s R) as [_ B].
  apply (B c r H).
Qed.

Lemma resolved_move_is_uci_witness :
  let s := run oneUnmapped
             (waited ++ [OnMessage (Message "bestmove e7e8q ponder a7a6" (Some 1))]) in
  reachable s /\
  outcome 0 s = Some (Resolved (mkResult 50 (Some "e7e8q"))) /\
  isUciMove "e7e8q" = true.
Proof.
  assert (R : reachable (run oneUnmapped
             (waited ++ [OnMessage (Message "bestmove e7e8q ponder a7a6" (Some 1))]))).
  { apply reachable_run. unfold oneUnmapped. apply reachable_run, ready_reachable. }
  split; [exact R|]. split; [reflexivity|].
  apply (resolved_move_is_uci _ 0 (mkResult 50 (Some "e7e8q")) "e7e8q" R);
    reflexivity.
Defined.

(** ** Several score lines *)

Lemma score_line_keeps_only s sid c info m :
  onlyPending s sid c ->
  startsWith "info" info = true -> scoreMatch info = Some m ->
  onlyPending (step s (OnMessage (Message info (Some sid)))) sid c.
Proof.
  intros (e & [cl ev0] & P & Ecl & M & O) I1 I2. cbn [resolvers] in Ecl. subst cl.
  pose proof (scoreMatch_includes _ _ I2) as I3.
  pose proof (info_not_bestmove _ I1) as I4.
  destruct s as [w r pend eid map pr st tm ck ob]. simpl in P, M. subst pend.
  unfold outcome in O. simpl in O.
  set (cl := mkResolvers e c).
  set (s1 := mkState w r [(e, mkPending cl (Some (mkResult (scoreOf m) (pvMatch info))))]
                     eid [(sid, e)] pr st tm ck ob).
  assert (E1 : handleInfo info (Some sid)
                 (mkState w r [(e, mkPending cl ev0)] eid map pr st tm ck ob) = s1).
  { unfold handleInfo. rewrite I1, I3, I2. simpl.
    destruct M as [-> | ->]; unfold correlate, firstUnmapped, isMapped, setEvaluation;
      simpl; rewrite ?Nat.eqb_refl; simpl; rewrite ?Nat.eqb_refl; reflexivity. }
  assert (E2 : handleBestMove info (Some sid) s1 = s1).
  { unfold handleBestMove. now rewrite I4. }
  cbn [step onmessage]. unfold handleStockfishMessage. rewrite E1, E2.
  exists e, (mkPending cl (Some (mkResult (scoreOf m) (pvMatch info)))).
  split; [reflexivity|]. split; [reflexivity|]. split; [now right|exact O].
Qed.

Lemma legacy_score_line_keeps_only l sid c info :
  legacyOnlyPending l c -> startsWith "info" info = true ->
  legacyOnlyPending (Legacy.step l (Legacy.OnMessage (Message info sid))) c.
Proof.
  intros (e & cl & P & Ec & O) I1.
  pose proof (info_not_bestmove _ I1) as I4.
  cbn [Legacy.step Legacy.onmessage]. unfold Legacy.handleStockfishMessage.
  assert (E2 : forall x, Legacy.handleBestMove info x = x).
  { intros x. unfold Legacy.handleBestMove. now rewrite I4. }
  rewrite E2. exists e, cl. unfold Legacy.handleInfo.
  destruct (startsWith "info" info && includes "score" info);
    [destruct (scoreMatch info)|]; repeat split; assumption.
Qed.

(** X7: of several score lines of a search the last one counts: the call
    is resolved with the score of the last score line, and with the move
    of the completion line or else the first move of the last line's
    principal variation. Both engines do so. *)
Theorem last_score_line_counts (s : State) (l : Legacy.State) (sid c cL : nat)
    (earlier : list string) (info best : string) (m : ScoreKind * string) :
  onlyPending s sid c -> legacyOnlyPending l cL ->
  Forall (fun i => startsWith "info" i = true /\ scoreMatch i <> None) earlier ->
  startsWith "info" info = true -> scoreMatch info = Some m ->
  startsWith "bestmove" best = true ->
  outcome c
    (run s (map (fun i => OnMessage (Message i (Some sid)))
                (earlier ++ [info; best]))) =
  Some (Resolved (reported info best m)) /\
  Legacy.outcome cL
    (Legacy.run l (map (fun i => Legacy.OnMessage (Message i (Some sid)))
                       (earlier ++ [info; best]))) =
  Some (Resolved (reported info best m)).
Proof.
  intros P PL F I1 I2 B1. revert s l P PL.
  induction F as [|i earlier [Hi Hm] F IH]; intros s l P PL.
  - split; [now apply engine_reports|now apply legacy_reports].
  - destruct (scoreMatch i) as [mi|] eqn:E; [|contradiction].
    cbn [app map run Legacy.run fold_left]. apply IH.
    + now apply score_line_keeps_only with (m := mi).
    + now apply legacy_score_line_keeps_only.
Qed.

Lemma last_score_line_counts_witness :
  onlyPending oneUnmapped 1 0 /\ legacyOnlyPending legacyOne 0 /\
  outcome 0
    (run oneUnmapped
       (map (fun i => OnMessage (Message i (Some 1)))
            (["info depth 1 score cp 50 nodes 20 pv a2a3"] ++
             ["info depth 2 score cp -7 nodes 90"; "bestmove (none)"]))) =
  Some (Resolved (mkResult (-7) None)).
Proof.
  assert (P : onlyPending oneUnmapped 1 0).
  { exists 1, (mkPending (mkResolvers 1 0) None).
    split; [reflexivity|]. split; [reflexivity|]. split; [now left|reflexivity]. }
  assert (PL : legacyOnlyPending legacyOne 0).
  { exists 1, (Legacy.mkResolvers 1 0). repeat split. }
  split; [exact P|]. split; [exact PL|].
  refine (proj1 (last_score_line_counts oneUnmapped legacyOne 1 0 0
                   ["info depth 1 score cp 50 nodes 20 pv a2a3"]
                   "info depth 2 score cp -7 nodes 90" "bestmove (none)"
                   (cp, "-7") P PL _ eq_refl eq_refl eq_refl)).
  constructor; [|constructor]. split; [reflexivity|discriminate].
Defined.

(** ** A score line that precedes the request *)

Lemma bestmove_completes s sid k p message :
  WF s -> startsWith "bestmove" message = true ->
  fst (correlate sid s) = Some k ->
  JsMap.get k (pendingEvaluations s) = Some p ->
  outcome (cl_promise (resolvers p))
          (step s (OnMessage (Message message (Some sid)))) =
  Some (completion message p).
Proof.
  intros W B C G. cbn [step onmessage]. unfold handleStockfishMessage.
  assert (I : handleInfo message (Some sid) s = s).
  { unfold handleInfo. now rewrite (bestmove_not_info _ B). }
  rewrite I.
  destruct (handleBestMove_attributed message sid s k p W B C G) as (-> & _ & Hc).
  destruct (correlate_spec sid s W) as (W1 & Q1 & _).
  change (outcome (cl_promise (resolvers p)) (setMapping ?m ?x))
    with (outcome (cl_promise (resolvers p)) x).
  apply wrapped_settles; auto.
  destruct Q1 as (_ & _ & _ & _ & ->). exact Hc.
Qed.

(** X8: a score line that arrives while no call is pending is dropped by
    the engine with search-id correlation, so the next call, completed by
    a bare 'bestmove' line, is resolved with score 0; the engine of
    [src/lib/chessEngine.ts] keeps the line in [currentEvaluation] and
    resolves the next call with its score. *)
Theorem score_line_before_request (s : State) (l : Legacy.State)
    (fen : string) (depth sid : nat) (info best : string)
    (m : ScoreKind * string) (mv : string) :
  reachable s -> worker s = true -> isReady s = true ->
  pendingEvaluations s = [] ->
  Legacy.reachable l -> Legacy.worker l = true -> Legacy.isReady l = true ->
  Legacy.pendingEvaluations l = [] ->
  startsWith "info" info = true -> scoreMatch info = Some m ->
  startsWith "bestmove" best = true -> bestMoveMatch best = Some mv ->
  outcome (promises s)
    (run s [OnMessage (Message info (Some sid)); GetEvaluation fen depth;
            OnMessage (Message best (Some sid))]) =
  Some (Resolved (mkResult 0 (Some mv))) /\
  Legacy.outcome (Legacy.promises l)
    (Legacy.run l [Legacy.OnMessage (Message info (Some sid));
                   Legacy.GetEvaluation fen depth;
                   Legacy.OnMessage (Message best (Some sid))]) =
  Some (Resolved (mkResult (scoreOf m) (Some mv))).
Proof.
  intros R Hw Hr P RL HwL HrL PL I1 I2 B1 BM. split.
  - pose proof (WF_reachable s R) as W.
    pose proof (idle_unmapped s W P) as M.
    cbn [run fold_left].
    change (step s (OnMessage (Message info (Some sid))))
      with (handleStockfishMessage info (Some sid) s).
    rewrite (idle_ignores info (Some sid) s P M).
    set (cl := mkResolvers (S (evaluationId s)) (promises s)).
    assert (E : step s (GetEvaluation fen depth) = enqueue fen depth s).
    { cbn [step]. rewrite getEvaluation_ready; auto.
      unfold previousUnmappedEvaluations. now rewrite P. }
    rewrite E.
    assert (W1 : WF (enqueue fen depth s)).
    { rewrite <- E. now apply WF_step. }
    assert (P1 : pendingEvaluations (enqueue fen depth s) =
                 [(S (evaluationId s), mkPending cl None)]).
    { unfold enqueue. cbn [pendingEvaluations postMessage setTimers setPending].
      change (pendingEvaluations (setEvaluationId _ (setPromises _ s)))
        with (pendingEvaluations s).
      now rewrite P. }
    assert (C : fst (correlate sid (enqueue fen depth s)) = Some (S (evaluationId s))).
    { unfold correlate, firstUnmapped, isMapped. rewrite P1.
      change (searchIdToEvalId (enqueue fen depth s)) with (searchIdToEvalId s).
      rewrite M. reflexivity. }
    assert (G : JsMap.get (S (evaluationId s))
                  (pendingEvaluations (enqueue fen depth s)) =
                Some (mkPending cl None)).
    { rewrite P1. cbn [JsMap.get]. now rewrite Nat.eqb_refl. }
    pose proof (bestmove_completes _ sid _ _ best W1 B1 C G) as H.
    cbn [resolvers cl_promise cl] in H. rewrite H.
    unfold completion. now rewrite BM.
  - pose proof (LegacyFacts.legacy_fresh_promise l RL) as O.
    pose proof (scoreMatch_includes _ _ I2) as I3.
    pose proof (info_not_bestmove _ I1) as I4.
    pose proof (bestmove_not_info _ B1) as B2.
    destruct l as [w r pend eid cur pr st tm ck ob].
    cbn [Legacy.worker Legacy.isReady Legacy.pendingEvaluations Legacy.promises] in *.
    subst w r pend. unfold Legacy.outcome in O. cbn [Legacy.settled] in O.
    cbn [Legacy.run fold_left Legacy.step Legacy.onmessage].
    unfold Legacy.handleStockfishMessage.
    set (ev := mkResult (scoreOf m) (pvMatch info)).
    assert (E1 : Legacy.handleInfo info
                   (Legacy.mkState true true [] eid cur pr st tm ck ob) =
                 Legacy.mkState true true [] eid (Some ev) pr st tm ck ob).
    { unfold Legacy.handleInfo. now rewrite I1, I3, I2. }
    rewrite E1.
    assert (E2 : forall x, Legacy.handleBestMove info x = x).
    { intros x. unfold Legacy.handleBestMove. now rewrite I4. }
    rewrite E2.
    assert (E3 : forall x, Legacy.handleInfo best x = x).
    { intros x. unfold Legacy.handleInfo. now rewrite B2. }
    rewrite E3.
    unfold Legacy.getEvaluation. simpl.
    unfold Legacy.handleBestMove. rewrite B1, BM. simpl.
    unfold Legacy.wrapped, Legacy.settle, Legacy.outcome. simpl. rewrite O. simpl.
    now rewrite Nat.eqb_refl.
Qed.

Lemma score_line_before_request_witness :
  outcome 0
    (run ready [OnMessage (Message "info depth 1 score cp 50 nodes 20 pv a2a3" (Some 1));
                GetEvaluation fenE4 15;
                OnMessage (Message "bestmove e7e5" (Some 1))]) =
  Some (Resolved (mkResult 0 (Some "e7e5"))) /\
  Legacy.outcome 0
    (Legacy.run legacyReady
       [Legacy.OnMessage (Message "info depth 1 score cp 50 nodes 20 pv a2a3" (Some 1));
        Legacy.GetEvaluation fenE4 15;
        Legacy.OnMessage (Message "bestmove e7e5" (Some 1))]) =
  Some (Resolved (mkResult 50 (Some "e7e5"))).
Proof.
  apply (score_line_before_request ready legacyReady fenE4 15 1
           "info depth 1 score cp 50 nodes 20 pv a2a3" "bestmove e7e5"
           (cp, "50") "e7e5"
           ready_reachable eq_refl eq_refl eq_refl
           legacyReady_reachable eq_refl eq_refl eq_refl
           eq_refl eq_refl eq_refl eq_refl).
Defined.

(** * Further properties of the engine of [src/lib/chessEngine.ts] *)

Module LegacyTimers.
Import Legacy.

Lemma legacy_outcome_settle c c' o l :
  outcome c' (settle c o l) =
  if c' =? c then match outcome c l with Some o' => Some o' | None => Some o end
  else outcome c' l.
Proof.
  unfold settle. destruct (outcome c l) eqn:E.
  - destruct (c' =? c) eqn:Ec; auto. apply Nat.eqb_eq in Ec. now subst.
  - unfold outcome. simpl. destruct (c' =? c) eqn:Ec; auto.
Qed.

Lemma legacy_wrapped_timers cl o l :
  timers (wrapped cl o l) =
  filter (fun t => negb (legacyCall t =? cl_promise cl)) (timers l).
Proof. unfold wrapped, settle, outcome. simpl. now destruct Engine.lookup. Qed.

Lemma legacy_wrapped_pending cl o l :
  pendingEvaluations (wrapped cl o l) =
  JsMap.delete (cl_evalId cl) (pendingEvaluations l).
Proof. unfold wrapped, settle, outcome. simpl. now destruct Engine.lookup. Qed.

Lemma legacy_wrapped_promises cl o l : promises (wrapped cl o l) = promises l.
Proof. unfold wrapped, settle, outcome. simpl. now destruct Engine.lookup. Qed.

Lemma legacy_wrapped_outcome cl o l c :
  outcome c (wrapped cl o l) =
  if c =? cl_promise cl
  then match outcome c l with Some o' => Some o' | None => Some o end
  else outcome c l.
Proof.
  unfold wrapped. rewrite legacy_outcome_settle.
  destruct (c =? cl_promise cl) eqn:E; auto.
  apply Nat.eqb_eq in E. now subst.
Qed.

Lemma legacy_wrapped_other cl o l c :
  c <> cl_promise cl -> outcome c (wrapped cl o l) = outcome c l.
Proof.
  intros H. rewrite legacy_wrapped_outcome. apply Nat.eqb_neq in H. now rewrite H.
Qed.

Lemma NoDup_keys_delete {V} k (m : JsMap.t V) :
  NoDup (JsMap.keys m) -> NoDup (JsMap.keys (JsMap.delete k m)).
Proof. apply NoDup_map_filter. Qed.

Lemma NoDup_keys_set {V} k (v : V) m :
  NoDup (JsMap.keys m) -> NoDup (JsMap.keys (JsMap.set k v m)).
Proof.
  intros H. destruct (in_dec Nat.eq_dec k (JsMap.keys m)) as [Hin|Hn].
  - now rewrite keys_set.
  - rewrite set_fresh; auto. apply (NoDup_map_app_fresh fst); auto.
Qed.

(** A state with the same promises and timers and fewer entries. *)
Lemma Armed_sub l l' :
  Armed l -> settled l' = settled l -> promises l' = promises l ->
  timers l' = timers l ->
  incl (pendingEvaluations l') (pendingEvaluations l) ->
  NoDup (JsMap.keys (pendingEvaluations l')) -> Armed l'.
Proof.
  intros [K U C P E T N] Es Ep Et I N'.
  split; unfold outcome in *; rewrite ?Es, ?Ep, ?Et; auto.
  apply (LegacyFacts.Known_same l); auto. rewrite Et. apply incl_refl.
Qed.

Lemma Armed_wrapped cl o l :
  Armed l -> cl_promise cl < promises l ->
  (forall e', In e' (pendingEvaluations l) ->
              cl_promise (snd e') = cl_promise cl -> fst e' = cl_evalId cl) ->
  Armed (wrapped cl o l).
Proof.
  intros [K U C P E T N] Hc Side. split.
  - now apply LegacyFacts.Known_wrapped.
  - intros t Ht. rewrite legacy_wrapped_timers in Ht. apply filter_In in Ht as [Ht Hn].
    apply negb_true_iff, Nat.eqb_neq in Hn. rewrite legacy_wrapped_other; auto.
  - intros c Hlt Ho. rewrite legacy_wrapped_promises in Hlt.
    rewrite legacy_wrapped_outcome in Ho. destruct (c =? cl_promise cl) eqn:Ec.
    + destruct (outcome c l); discriminate.
    + destruct (C c Hlt Ho) as (t & Ht & Hp). exists t. split; auto.
      rewrite legacy_wrapped_timers. apply filter_In. split; auto.
      now rewrite Hp, Ec.
  - intros e He. rewrite legacy_wrapped_pending in He. apply In_delete in He as [He Hk].
    rewrite legacy_wrapped_outcome.
    destruct (cl_promise (snd e) =? cl_promise cl) eqn:Ec; [|now apply P].
    apply Nat.eqb_eq in Ec. now destruct Hk; apply Side.
  - intros e e' He He'. rewrite legacy_wrapped_pending in He, He'.
    apply In_delete in He as [He _], He' as [He' _]. now apply E.
  - intros t e' Ht He'. rewrite legacy_wrapped_timers in Ht. rewrite legacy_wrapped_pending in He'.
    apply filter_In in Ht as [Ht _]. apply In_delete in He' as [He' _].
    now apply T.
  - rewrite legacy_wrapped_pending. now apply NoDup_keys_delete.
Qed.

Lemma Armed_rejectList err L : forall l,
  Armed l ->
  (forall x, In x L ->
     cl_promise (snd x) < promises l /\
     forall e', In e' (pendingEvaluations l) ->
                cl_promise (snd e') = cl_promise (snd x) ->
                fst e' = cl_evalId (snd x)) ->
  let l' := fold_left
              (fun s e => if JsMap.has (fst e) (pendingEvaluations s)
                          then wrapped (snd e) (Rejected err) s else s) L l in
  Armed l' /\ promises l' = promises l.
Proof.
  induction L as [|x L IH]; intros l A H; simpl; [auto|].
  destruct (H x (or_introl eq_refl)) as [Hx Sx].
  destruct (JsMap.has (fst x) (pendingEvaluations l)).
  - destruct (IH (wrapped (snd x) (Rejected err) l)) as [A' P'].
    + now apply Armed_wrapped.
    + intros y Hy. destruct (H y (or_intror Hy)) as [Hy1 Hy2].
      rewrite legacy_wrapped_promises. split; auto.
      intros e' He'. rewrite legacy_wrapped_pending in He'.
      apply In_delete in He' as [He' _]. now apply Hy2.
    + split; auto. now rewrite P', legacy_wrapped_promises.
  - apply IH; auto. intros y Hy. apply H. now right.
Qed.

Lemma Armed_rejectEach err l :
  Armed l -> Armed (rejectEach err l) /\ promises (rejectEach err l) = promises l.
Proof.
  intros A. apply Armed_rejectList; auto. intros x Hx. split.
  - apply (known_pending l (armed_known l A) x Hx).
  - intros e' He' Hp. now apply (armed_entry l A x e').
Qed.

(** An emptied map. *)
Lemma Armed_cleared l l' :
  Armed l -> settled l' = settled l -> promises l' = promises l ->
  timers l' = timers l -> pendingEvaluations l' = [] -> Armed l'.
Proof.
  intros A Es Ep Et P. apply (Armed_sub l); auto; rewrite P.
  - intros x [].
  - constructor.
Qed.

(** The same promises, timers and entries. *)
Lemma Armed_same l l' :
  Armed l -> settled l' = settled l -> promises l' = promises l ->
  timers l' = timers l -> pendingEvaluations l' = pendingEvaluations l ->
  Armed l'.
Proof.
  intros A Es Ep Et P. apply (Armed_sub l); auto; rewrite P.
  - apply incl_refl.
  - apply (armed_keys l A).
Qed.

Lemma Armed_stopEvaluation l :
  Armed l -> Armed (stopEvaluation l) /\ promises (stopEvaluation l) = promises l.
Proof.
  intros A. unfold stopEvaluation. destruct (worker l && isReady l); auto.
  destruct (Armed_rejectEach EvaluationStopped (postMessage Stop l)) as [A' P'].
  - now apply (Armed_same l).
  - split; auto. now apply (Armed_cleared (rejectEach EvaluationStopped (postMessage Stop l))).
Qed.

Lemma getEvaluation_accepted fen depth l :
  worker l = true -> isReady l = true ->
  let k := S (evaluationId l) in
  let cl := mkResolvers k (promises l) in
  getEvaluation fen depth l =
  postMessage (Evaluate ("fen " ++ fen) depth)
    (setTimers (timers l ++ [mkTimer cl (clock l + timeoutMs)%N])
       (setPending (JsMap.set k cl (pendingEvaluations l))
          (setEvaluationId k (setPromises (S (promises l)) l)))).
Proof. intros Hw Hr. unfold getEvaluation. simpl. now rewrite Hw, Hr. Qed.

Lemma getEvaluation_refused fen depth l :
  worker l && isReady l = false ->
  getEvaluation fen depth l =
  settle (promises l) (Rejected NotInitialized) (setPromises (S (promises l)) l).
Proof.
  intros H. unfold getEvaluation. simpl.
  destruct (worker l), (isReady l); simpl in *; try discriminate; reflexivity.
Qed.

Lemma Armed_getEvaluation fen depth l : Armed l -> Armed (getEvaluation fen depth l).
Proof.
  intros A. pose proof (armed_known l A) as K.
  pose proof (LegacyFacts.Known_step l (GetEvaluation fen depth) K) as K'.
  cbn [step] in K'.
  destruct A as [_ U C P E T N].
  assert (F : outcome (promises l) l = None).
  { destruct (outcome (promises l) l) eqn:Eo; auto.
    apply (known_settled l K) in Eo. lia. }
  assert (Old : forall t, In t (timers l) -> legacyCall t <> promises l).
  { intros t Ht. pose proof (known_timers l K t Ht). unfold legacyCall. lia. }
  assert (OldP : forall e, In e (pendingEvaluations l) ->
                           cl_promise (snd e) <> promises l).
  { intros e He. pose proof (known_pending l K e He). lia. }
  destruct (worker l && isReady l) eqn:B.
  - apply andb_true_iff in B as [Hw Hr].
    rewrite (getEvaluation_accepted fen depth l Hw Hr) in *.
    set (k := S (evaluationId l)) in *. set (cl := mkResolvers k (promises l)) in *.
    split; auto.
    + intros t Ht. cbn [timers postMessage setTimers] in Ht.
      apply in_app_iff in Ht as [Ht|[<-|[]]]; [now apply U|exact F].
    + intros c Hc Ho. cbn [promises postMessage setTimers setPending setEvaluationId setPromises] in Hc.
      cbn [timers postMessage setTimers].
      destruct (Nat.eq_dec c (promises l)) as [->|Hn].
      * exists (mkTimer cl (clock l + timeoutMs)%N). split; [|reflexivity].
        apply in_app_iff. right. now left.
      * destruct (C c ltac:(lia) Ho) as (t & Ht & Hp). exists t. split; auto.
        apply in_app_iff. now left.
    + intros e He. cbn [pendingEvaluations postMessage setTimers setPending] in He.
      apply In_set in He as [->|He]; [exact F|now apply P].
    + intros e e' He He'.
      cbn [pendingEvaluations postMessage setTimers setPending] in He, He'.
      apply In_set in He as [->|He]; apply In_set in He' as [->|He']; cbn [fst snd cl_promise cl_evalId cl].
      * reflexivity.
      * intros H. now destruct (OldP e' He').
      * intros H. symmetry in H. now destruct (OldP e He).
      * now apply E.
    + intros t e' Ht He'. cbn [timers postMessage setTimers] in Ht.
      cbn [pendingEvaluations postMessage setTimers setPending] in He'.
      apply in_app_iff in Ht as [Ht|[<-|[]]]; apply In_set in He' as [->|He'];
        cbn [fst snd cl_promise cl_evalId cl t_callback legacyCall].
      * intros H. symmetry in H. now destruct (Old t Ht).
      * now apply T.
      * reflexivity.
      * intros H. now destruct (OldP e' He').
    + cbn [pendingEvaluations postMessage setTimers setPending].
      now apply NoDup_keys_set.
  - rewrite (getEvaluation_refused fen depth l B) in *.
    assert (O : forall c, outcome c (settle (promises l) (Rejected NotInitialized)
                                       (setPromises (S (promises l)) l)) =
                          if c =? promises l then Some (Rejected NotInitialized)
                          else outcome c l).
    { intros c. rewrite legacy_outcome_settle.
      change (outcome (promises l) (setPromises (S (promises l)) l))
        with (outcome (promises l) l).
      now rewrite F. }
    assert (Same : forall c, c <> promises l ->
              outcome c (settle (promises l) (Rejected NotInitialized)
                           (setPromises (S (promises l)) l)) = outcome c l).
    { intros c Hc. rewrite O. apply Nat.eqb_neq in Hc. now rewrite Hc. }
    assert (Et : timers (settle (promises l) (Rejected NotInitialized)
                           (setPromises (S (promises l)) l)) = timers l).
    { unfold settle. now destruct outcome. }
    assert (Epd : pendingEvaluations (settle (promises l) (Rejected NotInitialized)
                           (setPromises (S (promises l)) l)) = pendingEvaluations l).
    { unfold settle. now destruct outcome. }
    assert (Epr : promises (settle (promises l) (Rejected NotInitialized)
                           (setPromises (S (promises l)) l)) = S (promises l)).
    { unfold settle. now destruct outcome. }
    split; auto; rewrite ?Et, ?Epd, ?Epr; auto.
    + intros t Ht. rewrite Same; auto.
    + intros c Hc Ho. rewrite O in Ho. destruct (c =? promises l) eqn:Ec;
        [discriminate|]. apply Nat.eqb_neq in Ec. apply C; auto. lia.
    + intros e He. rewrite Same; auto.
Qed.

Lemma Armed_handleBestMove message l : Armed l -> Armed (handleBestMove message l).
Proof.
  intros A. unfold handleBestMove.
  destruct (startsWith "bestmove" message); auto.
  set (l1 := match bestMoveMatch message, currentEvaluation l with
             | Some mv, Some ev => setCurrent (Some (mkResult (score ev) (Some mv))) l
             | _, _ => l
             end).
  assert (A1 : Armed l1).
  { unfold l1. destruct (bestMoveMatch message), (currentEvaluation l); auto.
    now apply (Armed_same l). }
  destruct (JsMap.values (pendingEvaluations l1)) as [|cl rest] eqn:V; auto.
  destruct (currentEvaluation l1) as [ev|]; auto.
  destruct (pendingEvaluations l1) as [|[k v] m] eqn:P; [discriminate|].
  cbn in V. injection V as <- _.
  assert (Hin : In (k, v) (pendingEvaluations l1)) by (rewrite P; now left).
  assert (A2 : Armed (wrapped v (Resolved ev) l1)).
  { apply Armed_wrapped; auto.
    - apply (known_pending l1 (armed_known l1 A1) (k, v) Hin).
    - intros e' He' Hp. now apply (armed_entry l1 A1 (k, v) e'). }
  now apply (Armed_cleared (wrapped v (Resolved ev) l1)).
Qed.

Lemma Armed_timerFires c l : Armed l -> Armed (timerFires c l).
Proof.
  intros A. unfold timerFires. destruct (timerOf c l) as [t|] eqn:Ht; auto.
  destruct (t_deadline t <=? clock l)%N; auto.
  apply find_some in Ht as [Hin _].
  set (l1 := setPending (JsMap.delete (cl_evalId (t_callback t))
                                      (pendingEvaluations l)) l).
  assert (A1 : Armed l1).
  { apply (Armed_sub l); auto.
    - intros x Hx. cbn in Hx. now apply In_delete in Hx.
    - apply NoDup_keys_delete, (armed_keys l A). }
  apply Armed_wrapped; auto.
  - apply (known_timers l (armed_known l A) t Hin).
  - intros e' He' Hp. cbn [l1 pendingEvaluations setPending] in He'.
    apply In_delete in He' as [He' _]. now apply (armed_timer l A t e').
Qed.

Lemma Armed_step l e : Armed l -> Armed (step l e).
Proof.
  intros A. destruct e as [|fen depth| | |m|c|ms]; cbn [step].
  - now apply (Armed_same l).
  - now apply Armed_getEvaluation.
  - now apply Armed_stopEvaluation.
  - unfold destroy. destruct (worker l); auto.
    destruct (Armed_stopEvaluation l A) as [A1 _].
    destruct (Armed_rejectEach WorkerTerminated (stopEvaluation l) A1) as [A2 _].
    now apply (Armed_cleared (rejectEach WorkerTerminated (stopEvaluation l))).
  - destruct m as [|data searchId|data]; cbn [onmessage]; auto.
    + now apply (Armed_same l).
    + unfold handleStockfishMessage. apply Armed_handleBestMove.
      unfold handleInfo.
      destruct (startsWith "info" data && includes "score" data); auto.
      destruct (scoreMatch data); auto. now apply (Armed_same l).
  - now apply Armed_timerFires.
  - now apply (Armed_same l).
Qed.

Lemma Armed_reachable l : reachable l -> Armed l.
Proof.
  induction 1 as [|l e R IH]; [|now apply Armed_step].
  split.
  - apply LegacyFacts.Known_reachable. constructor.
  - intros t [].
  - cbn. intros c Hc. lia.
  - intros e [].
  - intros e e' [].
  - intros t e' [].
  - constructor.
Qed.

End LegacyTimers.

(** X9: in the engine of [src/lib/chessEngine.ts] too, no call waits for
    ever: a call whose promise is not settled has its timer armed, and the
    timer rejects it with 'Evaluation timeout' once its delay has passed. *)
Theorem legacy_call_times_out (l : Legacy.State) (c : nat) :
  Legacy.reachable l -> c < Legacy.promises l -> Legacy.outcome c l = None ->
  exists t, Legacy.timerOf c l = Some t /\
    ((Legacy.t_deadline t <= Legacy.clock l)%N ->
     Legacy.outcome c (Legacy.step l (Legacy.TimerFires c)) =
     Some (Rejected EvaluationTimeout)).
Proof.
  intros R Hc Ho. pose proof (LegacyTimers.Armed_reachable l R) as A.
  destruct (armed_complete l A c Hc Ho) as (t0 & Ht0 & Hp0).
  destruct (Legacy.timerOf c l) as [t|] eqn:F.
  - exists t. split; [reflexivity|]. intros Hd.
    cbn [Legacy.step]. unfold Legacy.timerFires. rewrite F.
    apply N.leb_le in Hd. rewrite Hd.
    apply find_some in F as [_ Hp]. apply Nat.eqb_eq in Hp.
    rewrite LegacyTimers.legacy_wrapped_outcome, Hp, Nat.eqb_refl.
    change (Legacy.outcome c (Legacy.setPending ?m l)) with (Legacy.outcome c l).
    now rewrite Ho.
  - exfalso. unfold Legacy.timerOf in F.
    apply (find_none _ _ F) in Ht0. unfold legacyCall in Hp0.
    rewrite Hp0, Nat.eqb_refl in Ht0. discriminate.
Qed.

Lemma legacy_call_times_out_witness :
  let l := Legacy.run legacyOne [Legacy.Elapse 30000] in
  Legacy.reachable l /\ Legacy.outcome 0 l = None /\
  Legacy.outcome 0 (Legacy.step l (Legacy.TimerFires 0)) =
  Some (Rejected EvaluationTimeout).
Proof.
  assert (R : Legacy.reachable (Legacy.run legacyOne [Legacy.Elapse 30000])).
  { apply LegacyFacts.legacy_reachable_run. unfold legacyOne.
    apply LegacyFacts.legacy_reachable_run, legacyReady_reachable. }
  split; [exact R|]. split; [reflexivity|].
  destruct (legacy_call_times_out _ 0 R ltac:(simpl; lia) eq_refl) as (t & Ht & H).
  apply H. vm_compute in Ht. injection Ht as <-. vm_compute. discriminate.
Defined.

(** X10: in the engine of [src/lib/chessEngine.ts] a completion line
    resolves the oldest pending call with the shared [currentEvaluation]
    and clears the whole map: every other call that was pending keeps its
    promise unsettled and its timer armed, but has no entry any more, so
    that only its timeout can end it. *)
Theorem legacy_completion_drops_the_rest (l : Legacy.State) (e1 : nat)
    (cl1 : Legacy.Resolvers) (rest : JsMap.t Legacy.Resolvers)
    (ev : EvaluationResult) (best : string) (sid : option nat) :
  Legacy.reachable l ->
  Legacy.pendingEvaluations l = (e1, cl1) :: rest ->
  Legacy.currentEvaluation l = Some ev ->
  startsWith "bestmove" best = true ->
  let l' := Legacy.step l (Legacy.OnMessage (Message best sid)) in
  Legacy.pendingCount l' = 0 /\
  Legacy.outcome (Legacy.cl_promise cl1) l' =
    Some (Resolved (mkResult (score ev)
                      (match bestMoveMatch best with
                       | Some mv => Some mv
                       | None => bestMove ev
                       end))) /\
  forall x, In x rest ->
    Legacy.outcome (Legacy.cl_promise (snd x)) l' = None /\
    exists t, In t (Legacy.timers l') /\ legacyCall t = Legacy.cl_promise (snd x).
Proof.
  intros R P Cur B l'.
  pose proof (LegacyTimers.Armed_reachable l R) as A.
  assert (A' : Armed l').
  { apply LegacyTimers.Armed_reachable. now constructor. }
  set (r := mkResult (score ev) (match bestMoveMatch best with
                                 | Some mv => Some mv
                                 | None => bestMove ev
                                 end)).
  set (l1 := match bestMoveMatch best with
             | Some mv => Legacy.setCurrent (Some (mkResult (score ev) (Some mv))) l
             | None => l
             end).
  assert (C1 : Legacy.currentEvaluation l1 = Some r).
  { unfold l1, r. destruct (bestMoveMatch best); [reflexivity|].
    rewrite Cur. now destruct ev. }
  assert (S1 : forall c, Legacy.outcome c l1 = Legacy.outcome c l).
  { unfold l1. now destruct (bestMoveMatch best). }
  assert (P1 : Legacy.pendingEvaluations l1 = (e1, cl1) :: rest).
  { unfold l1. now destruct (bestMoveMatch best). }
  assert (Pr1 : Legacy.promises l1 = Legacy.promises l).
  { unfold l1. now destruct (bestMoveMatch best). }
  assert (E : l' = Legacy.setCurrent None
                     (Legacy.setPending [] (Legacy.wrapped cl1 (Resolved r) l1))).
  { unfold l'. cbn [Legacy.step Legacy.onmessage].
    unfold Legacy.handleStockfishMessage, Legacy.handleInfo.
    rewrite (bestmove_not_info _ B). cbn [andb].
    unfold Legacy.handleBestMove. rewrite B, Cur. fold l1.
    now rewrite P1, C1. }
  assert (O : forall c, Legacy.outcome c l' =
                        Legacy.outcome c (Legacy.wrapped cl1 (Resolved r) l1)).
  { intros c. now rewrite E. }
  assert (H1 : In (e1, cl1) (Legacy.pendingEvaluations l))
    by (rewrite P; now left).
  split; [now rewrite E|]. split.
  - rewrite O, LegacyTimers.legacy_wrapped_outcome, Nat.eqb_refl, S1.
    pose proof (armed_pending l A (e1, cl1) H1) as U. cbn [snd] in U.
    now rewrite U.
  - intros x Hx.
    assert (Hin : In x (Legacy.pendingEvaluations l)) by (rewrite P; now right).
    assert (Hn : Legacy.cl_promise (snd x) <> Legacy.cl_promise cl1).
    { intros Heq. pose proof (armed_entry l A (e1, cl1) x H1 Hin Heq) as K1.
      pose proof (armed_entry l A (e1, cl1) (e1, cl1) H1 H1 eq_refl) as K2.
      cbn [fst snd] in K1, K2.
      pose proof (armed_keys l A) as N. rewrite P in N. cbn in N.
      inversion N as [|? ? Hnot _]. apply Hnot.
      apply in_map_iff. exists x. split; [congruence|exact Hx]. }
    assert (Ho : Legacy.outcome (Legacy.cl_promise (snd x)) l' = None).
    { rewrite O, LegacyTimers.legacy_wrapped_other, S1; auto.
      apply (armed_pending l A x Hin). }
    split; [exact Ho|].
    apply (armed_complete l' A'); [|exact Ho].
    rewrite E. cbn [Legacy.promises Legacy.setCurrent Legacy.setPending].
    rewrite LegacyTimers.legacy_wrapped_promises, Pr1.
    apply (known_pending l (armed_known l A) x Hin).
Qed.

Lemma legacy_completion_drops_the_rest_witness :
  let l := Legacy.run legacyReady
             [Legacy.GetEvaluation fenStart 15; Legacy.GetEvaluation fenE4 15;
              Legacy.OnMessage (Message "info depth 1 score cp 50 nodes 20 pv a2a3" None)] in
  let l' := Legacy.step l (Legacy.OnMessage (Message "bestmove a2a3" None)) in
  Legacy.reachable l /\ Legacy.pendingCount l = 2 /\
  Legacy.pendingCount l' = 0 /\
  Legacy.outcome 0 l' = Some (Resolved (mkResult 50 (Some "a2a3"))) /\
  Legacy.outcome 1 l' = None.
Proof.
  assert (R : Legacy.reachable (Legacy.run legacyReady
             [Legacy.GetEvaluation fenStart 15; Legacy.GetEvaluation fenE4 15;
              Legacy.OnMessage (Message "info depth 1 score cp 50 nodes 20 pv a2a3" None)]))
    by apply LegacyFacts.legacy_reachable_run, legacyReady_reachable.
  split; [exact R|]. split; [reflexivity|].
  destruct (legacy_completion_drops_the_rest _ 1 (Legacy.mkResolvers 1 0)
              [(2, Legacy.mkResolvers 2 1)] (mkResult 50 (Some "a2a3"))
              "bestmove a2a3" None R eq_refl eq_refl eq_refl) as (H1 & H2 & H3).
  split; [exact H1|]. split; [exact H2|].
  apply (H3 (2, Legacy.mkResolvers 2 1)). now left.
Defined.

(** * Properties of the worker script *)

Module WorkerFacts.
Import StockfishWorker.

Lemma ready_stays w e : isReady w = true -> isReady (step w e) = true.
Proof.
  intros H. destruct e as [m|line]; cbn [step].
  - unfold onmessage. destruct (negb (stockfish w)); [exact H|].
    destruct m; rewrite ?H; cbn; exact H.
  - destruct (stockfish w); [|exact H]. unfold fromStockfish.
    destruct (line =? "uciok")%string; [reflexivity|exact H].
Qed.

Lemma loaded_stays w e : stockfish (step w e) = stockfish w.
Proof.
  destruct e as [m|line]; cbn [step].
  - unfold onmessage. destruct (negb (stockfish w)); [reflexivity|].
    destruct m; [destruct (negb (isReady w))|destruct (isReady w)
                |destruct (isReady w)]; reflexivity.
  - destruct (stockfish w) eqn:E; [|exact E]. unfold fromStockfish.
    destruct (line =? "uciok")%string; exact E.
Qed.

Lemma ready_is_loaded w : reachable w -> isReady w = true -> stockfish w = true.
Proof.
  induction 1 as [[|]|w e R IH]; try discriminate.
  intros H. rewrite loaded_stays.
  destruct (stockfish w) eqn:E; [reflexivity|]. apply IH.
  destruct e as [m|line]; cbn [step] in H; unfold onmessage in H;
    rewrite E in H; exact H.
Qed.

End WorkerFacts.

(** X11: until Stockfish has answered 'uciok' the worker sends it nothing
    but 'uci': no search is started, the search id stays 0, and the main
    thread is not told that the engine is ready. *)
Theorem worker_waits_for_uciok (w : StockfishWorker.State) :
  StockfishWorker.reachable w -> StockfishWorker.isReady w = false ->
  (forall cmd, In cmd (StockfishWorker.toStockfish w) -> cmd = "uci") /\
  StockfishWorker.currentSearchId w = 0 /\
  StockfishWorker.searches w = [] /\
  ~ In Ready (StockfishWorker.toMain w).
Proof.
  induction 1 as [[|]|w e R IH].
  - intros _. cbn. repeat split; try tauto. intros cmd [<-|[]]. reflexivity.
  - intros _. cbn. repeat split; tauto.
  - intros H.
    assert (H0 : StockfishWorker.isReady w = false).
    { destruct (StockfishWorker.isReady w) eqn:E; [|reflexivity].
      now rewrite (WorkerFacts.ready_stays w e E) in H. }
    destruct (IH H0) as (I1 & I2 & I3 & I4).
    destruct e as [m|line]; cbn [StockfishWorker.step] in *.
    + unfold StockfishWorker.onmessage in *.
      destruct (negb (StockfishWorker.stockfish w)).
      * cbn. repeat split; auto. intros Hin. apply in_app_iff in Hin as [Hin|[Hin|[]]];
          [now apply I4|discriminate].
      * destruct m; rewrite H0 in *; cbn.
        -- repeat split; auto. intros cmd Hin.
           apply in_app_iff in Hin as [Hin|[<-|[]]]; [now apply I1|reflexivity].
        -- repeat split; auto. intros Hin.
           apply in_app_iff in Hin as [Hin|[Hin|[]]]; [now apply I4|discriminate].
        -- repeat split; auto.
    + destruct (StockfishWorker.stockfish w); [|repeat split; auto].
      unfold StockfishWorker.fromStockfish in *.
      destruct (line =? "uciok")%string; [discriminate|].
      cbn. repeat split; auto. intros Hin.
      apply in_app_iff in Hin as [Hin|[Hin|[]]]; [now apply I4|discriminate].
Qed.

Lemma worker_waits_for_uciok_witness :
  let w := StockfishWorker.run (StockfishWorker.load true)
             [StockfishWorker.Receives Init;
              StockfishWorker.Receives (Evaluate ("fen " ++ fenStart) 15);
              StockfishWorker.Says "id name Stockfish"] in
  StockfishWorker.reachable w /\ StockfishWorker.isReady w = false /\
  StockfishWorker.toStockfish w = ["uci"; "uci"] /\
  StockfishWorker.currentSearchId w = 0.
Proof.
  assert (R : StockfishWorker.reachable
                (StockfishWorker.run (StockfishWorker.load true)
                   [StockfishWorker.Receives Init;
                    StockfishWorker.Receives (Evaluate ("fen " ++ fenStart) 15);
                    StockfishWorker.Says "id name Stockfish"])).
  { repeat constructor. }
  split; [exact R|]. split; [reflexivity|]. split; [reflexivity|].
  apply (worker_waits_for_uciok _ R eq_refl).
Defined.

Lemma searchIds_app l1 l2 : searchIds (l1 ++ l2) = searchIds l1 ++ searchIds l2.
Proof. unfold searchIds. apply flat_map_app. Qed.

Lemma sorted_snoc l x :
  StronglySorted le l -> Forall (fun k => k <= x) l ->
  StronglySorted le (l ++ [x]).
Proof.
  induction 1 as [|a l S IH F]; intros B; cbn.
  - repeat constructor.
  - inversion B as [|? ? Ha Hl]; subst. constructor; [now apply IH|].
    apply Forall_app. split; [exact F|]. now repeat constructor.
Qed.

Lemma searchId_grows w e :
  StockfishWorker.currentSearchId w <=
  StockfishWorker.currentSearchId (StockfishWorker.step w e).
Proof.
  destruct e as [m|line]; cbn [StockfishWorker.step].
  - unfold StockfishWorker.onmessage.
    destruct (negb (StockfishWorker.stockfish w)); [cbn; lia|].
    destruct m; [destruct (negb (StockfishWorker.isReady w))
                |destruct (StockfishWorker.isReady w)
                |destruct (StockfishWorker.isReady w)]; cbn; lia.
  - destruct (StockfishWorker.stockfish w); [|lia].
    unfold StockfishWorker.fromStockfish.
    destruct (line =? "uciok")%string; cbn; lia.
Qed.

(** What a step adds to the channel to the main thread: nothing, an
    error, or a line with the search id the worker has before the step. *)
Lemma forwarded_by_step w e :
  exists new,
    StockfishWorker.toMain (StockfishWorker.step w e) =
    StockfishWorker.toMain w ++ new /\
    (searchIds new = [] \/
     searchIds new = [StockfishWorker.currentSearchId w]) /\
    (forall d t, In (Message d t) new ->
                 t = Some (StockfishWorker.currentSearchId w)).
Proof.
  destruct e as [m|line]; cbn [StockfishWorker.step].
  - assert (Err : forall txt,
              exists new,
                StockfishWorker.toMain (StockfishWorker.postMessage (Error txt) w) =
                StockfishWorker.toMain w ++ new /\
                (searchIds new = [] \/
                 searchIds new = [StockfishWorker.currentSearchId w]) /\
                (forall d t, In (Message d t) new ->
                             t = Some (StockfishWorker.currentSearchId w))).
    { intros txt. exists [Error txt]. split; [reflexivity|]. split; [now left|].
      intros d t [Hin|[]]. discriminate. }
    assert (Nil : forall w', StockfishWorker.toMain w' = StockfishWorker.toMain w ->
              exists new,
                StockfishWorker.toMain w' = StockfishWorker.toMain w ++ new /\
                (searchIds new = [] \/
                 searchIds new = [StockfishWorker.currentSearchId w]) /\
                (forall d t, In (Message d t) new ->
                             t = Some (StockfishWorker.currentSearchId w))).
    { intros w' E. exists []. rewrite app_nil_r. split; [exact E|].
      split; [now left|]. intros d t []. }
    unfold StockfishWorker.onmessage.
    destruct (negb (StockfishWorker.stockfish w)); [apply Err|].
    destruct m.
    + destruct (negb (StockfishWorker.isReady w)); now apply Nil.
    + destruct (StockfishWorker.isReady w); [now apply Nil|apply Err].
    + destruct (StockfishWorker.isReady w); now apply Nil.
  - destruct (StockfishWorker.stockfish w).
    + unfold StockfishWorker.fromStockfish.
      destruct (line =? "uciok")%string.
      * exists [Message line (Some (StockfishWorker.currentSearchId w)); Ready].
        cbn. rewrite <- app_assoc. split; [reflexivity|]. split; [now right|].
        intros d t [Hin|[Hin|[]]]; [|discriminate]. now injection Hin as _ <-.
      * exists [Message line (Some (StockfishWorker.currentSearchId w))].
        cbn. split; [reflexivity|]. split; [now right|].
        intros d t [Hin|[]]. now injection Hin as _ <-.
    + exists []. rewrite app_nil_r. split; [reflexivity|].
      split; [now left|]. intros d t [].
Qed.

(** X12: every line the worker forwards carries a search id; the id is at
    most the worker's current search id, and along the channel to the
    main thread the ids never decrease. *)
Theorem worker_search_ids_ordered (w : StockfishWorker.State) :
  StockfishWorker.reachable w ->
  (forall d t, In (Message d t) (StockfishWorker.toMain w) ->
     exists k, t = Some k /\ k <= StockfishWorker.currentSearchId w) /\
  StronglySorted le (searchIds (StockfishWorker.toMain w)).
Proof.
  intros R.
  assert (H : (forall d t, In (Message d t) (StockfishWorker.toMain w) ->
                 exists k, t = Some k /\ k <= StockfishWorker.currentSearchId w) /\
              StronglySorted le (searchIds (StockfishWorker.toMain w)) /\
              Forall (fun k => k <= StockfishWorker.currentSearchId w)
                     (searchIds (StockfishWorker.toMain w))).
  { induction R as [[|]|w e R IH].
    - cbn. split; [intros d t []|]. split; constructor.
    - cbn. split; [intros d t []|]. split; constructor.
    - destruct IH as (I1 & I2 & I3).
      pose proof (searchId_grows w e) as G.
      destruct (forwarded_by_step w e) as (new & E & Hn & Hm).
      rewrite E, searchIds_app.
      assert (I3' : Forall (fun k => k <= StockfishWorker.currentSearchId
                                            (StockfishWorker.step w e))
                           (searchIds (StockfishWorker.toMain w))).
      { eapply Forall_impl; [|exact I3]. cbn. intros k Hk. lia. }
      split; [|split].
      + intros d t Hin. apply in_app_iff in Hin as [Hin|Hin].
        * destruct (I1 d t Hin) as (k & -> & Hk). exists k. split; [reflexivity|lia].
        * rewrite (Hm d t Hin). eexists. split; [reflexivity|exact G].
      + destruct Hn as [-> | ->]; [now rewrite app_nil_r|].
        now apply sorted_snoc.
      + apply Forall_app. split; [exact I3'|].
        destruct Hn as [-> | ->]; constructor; [exact G|constructor]. }
  destruct H as (H1 & H2 & _). now split.
Qed.

Lemma worker_search_ids_ordered_witness :
  let w := StockfishWorker.run (StockfishWorker.load true)
             [StockfishWorker.Says "uciok";
              StockfishWorker.Receives (Evaluate ("fen " ++ fenStart) 15);
              StockfishWorker.Says "info depth 1 score cp 50 nodes 20 pv a2a3";
              StockfishWorker.Receives (Evaluate ("fen " ++ fenE4) 15);
              StockfishWorker.Says "bestmove a2a3"] in
  StockfishWorker.reachable w /\
  searchIds (StockfishWorker.toMain w) = [0; 1; 2] /\
  StronglySorted le (searchIds (StockfishWorker.toMain w)).
Proof.
  assert (R : StockfishWorker.reachable
                (StockfishWorker.run (StockfishWorker.load true)
                   [StockfishWorker.Says "uciok";
                    StockfishWorker.Receives (Evaluate ("fen " ++ fenStart) 15);
                    StockfishWorker.Says "info depth 1 score cp 50 nodes 20 pv a2a3";
                    StockfishWorker.Receives (Evaluate ("fen " ++ fenE4) 15);
                    StockfishWorker.Says "bestmove a2a3"])).
  { repeat constructor. }
  split; [exact R|]. split; [reflexivity|].
  apply (worker_search_ids_ordered _ R).
Defined.

(** X13: a ready worker counts one search for every 'evaluate' and every
    'stop' request it receives, whatever Stockfish prints in between. *)
Theorem worker_counts_requests (w : StockfishWorker.State)
    (events : list StockfishWorker.Event) :
  StockfishWorker.stockfish w = true -> StockfishWorker.isReady w = true ->
  StockfishWorker.currentSearchId (StockfishWorker.run w events) =
  StockfishWorker.currentSearchId w +
  List.length (filter countsAsSearch events).
Proof.
  revert w. induction events as [|e events IH]; intros w Hs Hr; cbn [StockfishWorker.run fold_left].
  - cbn. lia.
  - change (fold_left StockfishWorker.step events (StockfishWorker.step w e))
      with (StockfishWorker.run (StockfishWorker.step w e) events).
    rewrite IH.
    + assert (E : StockfishWorker.currentSearchId (StockfishWorker.step w e) =
                  StockfishWorker.currentSearchId w +
                  (if countsAsSearch e then 1 else 0)).
      { destruct e as [m|line]; cbn [StockfishWorker.step countsAsSearch].
        - unfold StockfishWorker.onmessage. rewrite Hs, Hr. cbn [negb].
          destruct m; cbn; lia.
        - rewrite Hs. unfold StockfishWorker.fromStockfish.
          destruct (line =? "uciok")%string; cbn; lia. }
      rewrite E. cbn [filter]. destruct (countsAsSearch e); cbn [List.length]; lia.
    + now rewrite WorkerFacts.loaded_stays.
    + now apply WorkerFacts.ready_stays.
Qed.

Lemma worker_counts_requests_witness :
  let w := StockfishWorker.run (StockfishWorker.load true)
             [StockfishWorker.Says "uciok"] in
  StockfishWorker.stockfish w = true /\ StockfishWorker.isReady w = true /\
  StockfishWorker.currentSearchId
    (StockfishWorker.run w
       [StockfishWorker.Receives (Evaluate ("fen " ++ fenStart) 15);
        StockfishWorker.Says "bestmove a2a3";
        StockfishWorker.Receives Stop;
        StockfishWorker.Receives Init;
        StockfishWorker.Receives (Evaluate ("fen " ++ fenE4) 15)]) = 3.
Proof.
  split; [reflexivity|]. split; [reflexivity|].
  apply (worker_counts_requests
           (StockfishWorker.run (StockfishWorker.load true)
              [StockfishWorker.Says "uciok"])
           [StockfishWorker.Receives (Evaluate ("fen " ++ fenStart) 15);
            StockfishWorker.Says "bestmove a2a3";
            StockfishWorker.Receives Stop;
            StockfishWorker.Receives Init;
            StockfishWorker.Receives (Evaluate ("fen " ++ fenE4) 15)]
           eq_refl eq_refl).
Defined.


(** * Engine and worker together *)

Lemma not_uciok p line :
  startsWith p line = true -> startsWith p "uciok" = false ->
  (line =? "uciok")%string = false.
Proof.
  intros H1 H2. destruct (line =? "uciok")%string eqn:E; [|reflexivity].
  apply String.eqb_eq in E. subst. congruence.
Qed.

Lemma call_at_rest s fen depth sid :
  WF s -> worker s = true -> isReady s = true -> pendingEvaluations s = [] ->
  getEvaluation fen depth s = enqueue fen depth s /\
  onlyPending (getEvaluation fen depth s) sid (promises s).
Proof.
  intros W Hw Hr P.
  assert (E : getEvaluation fen depth s = enqueue fen depth s).
  { rewrite getEvaluation_ready; auto.
    unfold previousUnmappedEvaluations. now rewrite P. }
  split; [exact E|]. rewrite E.
  exists (S (evaluationId s)),
         (mkPending (mkResolvers (S (evaluationId s)) (promises s)) None).
  unfold enqueue. simpl. rewrite P. simpl.
  split; [reflexivity|]. split; [reflexivity|]. split.
  - left. now apply idle_unmapped.
  - apply (fresh_promise s W).
Qed.

Lemma worker_receives s w m rest :
  outbox s = m :: rest ->
  System.step (System.mkState s (Some w)) System.WorkerReceives =
  System.mkState (System.setOutbox rest s) (Some (StockfishWorker.onmessage m w)).
Proof. intros E. cbn [System.step System.wk System.main]. now rewrite E. Qed.

Lemma stockfish_says s w line :
  StockfishWorker.stockfish w = true ->
  System.step (System.mkState s (Some w)) (System.StockfishSays line) =
  System.mkState s (Some (StockfishWorker.fromStockfish line w)).
Proof. intros E. cbn [System.step System.wk System.main]. now rewrite E. Qed.

Lemma main_receives s w e rest :
  StockfishWorker.toMain w = e :: rest ->
  System.step (System.mkState s (Some w)) System.MainReceives =
  System.mkState (onmessage e s) (Some (System.setToMain rest w)).
Proof. intros E. cbn [System.step System.wk System.main]. now rewrite E. Qed.

(** X15: from rest, one request runs through all three parts: the engine
    posts it, the worker turns it into 'stop', 'position fen ...' and
    'go depth ...' (depth 15 when the depth given is 0), Stockfish answers
    with a score line and a completion line, and the call is resolved with
    the score of the one and the move of the other; no message stays
    under way. *)
Theorem exchange_from_rest (sys : System.State) (w : StockfishWorker.State)
    (fen : string) (depth : nat) (info best : string) (m : ScoreKind * string) :
  System.reachable sys -> quiescent sys w ->
  startsWith "info" info = true -> scoreMatch info = Some m ->
  startsWith "bestmove" best = true ->
  let sys' := System.run sys (exchange fen depth info best) in
  outcome (promises (System.main sys)) (System.main sys') =
    Some (Resolved (reported info best m)) /\
  option_map StockfishWorker.toStockfish (System.wk sys') =
    Some (StockfishWorker.toStockfish w ++
          ["stop"; ("position fen " ++ fen)%string;
           ("go depth " ++
            StockfishWorker.showNat (if (depth =? 0)%nat then 15 else depth))%string]) /\
  option_map StockfishWorker.toMain (System.wk sys') = Some [].
Proof.
  intros R (Hwk & Hw & Hr & P & Ob & Ws & Wr & Wm) I1 I2 B1 sys'.
  pose proof (WF_system sys R) as W.
  pose proof (not_uciok "info" info I1 eq_refl) as U1.
  pose proof (not_uciok "bestmove" best B1 eq_refl) as U2.
  destruct sys as [s wk0]. cbn [System.main System.wk] in *. subst wk0.
  set (sid := S (StockfishWorker.currentSearchId w)).
  destruct (call_at_rest s fen depth sid W Hw Hr P) as [E1 Only].
  set (s1 := getEvaluation fen depth s) in *.
  assert (Ob1 : outbox s1 = [Evaluate ("fen " ++ fen) depth]).
  { rewrite E1. unfold enqueue. cbn [outbox postMessage].
    change (outbox (setTimers _ (setPending _ (setEvaluationId _ (setPromises _ s)))))
      with (outbox s).
    now rewrite Ob. }
  set (w1 := StockfishWorker.onmessage (Evaluate ("fen " ++ fen) depth) w).
  assert (F1 : StockfishWorker.stockfish w1 = true /\
               StockfishWorker.currentSearchId w1 = sid /\
               StockfishWorker.toMain w1 = [] /\
               StockfishWorker.toStockfish w1 =
               StockfishWorker.toStockfish w ++
               ["stop"; ("position fen " ++ fen)%string;
                ("go depth " ++
                 StockfishWorker.showNat (if (depth =? 0)%nat then 15 else depth))%string]).
  { unfold w1, StockfishWorker.onmessage. rewrite Ws, Wr. cbn.
    rewrite <- !app_assoc. repeat split; auto. }
  destruct F1 as (Ws1 & Id1 & Wm1 & Cmd1).
  set (w2 := StockfishWorker.fromStockfish info w1).
  assert (E2 : w2 = StockfishWorker.postMessage (Message info (Some sid)) w1).
  { unfold w2, StockfishWorker.fromStockfish. now rewrite U1, Id1. }
  set (w3 := StockfishWorker.fromStockfish best w2).
  assert (E3 : w3 = StockfishWorker.postMessage (Message best (Some sid)) w2).
  { assert (Id2 : StockfishWorker.currentSearchId w2 = sid)
      by (rewrite E2; exact Id1).
    unfold w3, StockfishWorker.fromStockfish. now rewrite U2, Id2. }
  assert (Wm3 : StockfishWorker.toMain w3 =
                [Message info (Some sid); Message best (Some sid)]).
  { rewrite E3, E2. cbn. now rewrite Wm1. }
  assert (Cmd3 : StockfishWorker.toStockfish w3 = StockfishWorker.toStockfish w1).
  { rewrite E3, E2. reflexivity. }
  assert (Ws2 : StockfishWorker.stockfish w2 = true) by (rewrite E2; exact Ws1).
  assert (Run : sys' =
    System.mkState
      (run (System.setOutbox [] s1)
           [OnMessage (Message info (Some sid)); OnMessage (Message best (Some sid))])
      (Some (System.setToMain []
               (System.setToMain [Message best (Some sid)] w3)))).
  { unfold sys', exchange. cbn [System.run fold_left].
    change (System.step (System.mkState s (Some w))
              (System.Api (GetEvaluation fen depth)))
      with (System.mkState s1 (Some w)).
    rewrite (worker_receives s1 w _ [] Ob1). fold w1.
    rewrite (stockfish_says _ w1 info Ws1). fold w2.
    rewrite (stockfish_says _ w2 best Ws2). fold w3.
    rewrite (main_receives _ w3 _ _ Wm3).
    rewrite (main_receives _ (System.setToMain [Message best (Some sid)] w3)
               (Message best (Some sid)) [] eq_refl).
    reflexivity. }
  rewrite Run. cbn [System.main System.wk option_map].
  split; [|split].
  - apply engine_reports; auto.
  - cbn [System.setToMain StockfishWorker.toStockfish].
    now rewrite Cmd3, Cmd1.
  - reflexivity.
Qed.

Lemma exchange_from_rest_witness :
  let sys' := System.run booted
                (exchange fenE4 0
                   "info depth 15 seldepth 20 multipv 1 score cp -31 nodes 9000 pv e7e5 g1f3"
                   "bestmove e7e5 ponder g1f3") in
  System.reachable booted /\
  outcome 0 (System.main sys') = Some (Resolved (mkResult (-31) (Some "e7e5"))) /\
  option_map StockfishWorker.toStockfish (System.wk sys') =
  Some ["uci"; "uci"; "setoption name Skill Level value 20";
        "setoption name MultiPV value 1"; "stop";
        "position fen rnbqkbnr/pppppppp/8/8/4P3/8/PPPP1PPP/RNBQKBNR b KQkq e3 0 1";
        "go depth 15"].
Proof.
  split; [exact booted_reachable|].
  assert (Q : quiescent booted
                (StockfishWorker.mkState true true 0
                   ["uci"; "uci"; "setoption name Skill Level value 20";
                    "setoption name MultiPV value 1"] [] [])).
  { repeat split. }
  destruct (exchange_from_rest booted _ fenE4 0
              "info depth 15 seldepth 20 multipv 1 score cp -31 nodes 9000 pv e7e5 g1f3"
              "bestmove e7e5 ponder g1f3" (cp, "-31")
              booted_reachable Q eq_refl eq_refl eq_refl) as (H1 & H2 & _).
  split; [exact H1|exact H2].
Defined.

(** * Moves and squares *)

(** X16: a move in UCI notation that is turned into a move object and
    back keeps its two squares and loses what follows them: a move of four
    characters comes back unchanged, the promotion piece of a longer one
    is dropped. *)
Theorem uci_to_move_and_back (u : string) :
  4 <= String.length u ->
  ChessUtils.moveToUci (ChessUtils.uciToMove (Some u)) = Some (substring 0 4 u) /\
  (String.length u = 4 -> substring 0 4 u = u).
Proof.
  intros H. destruct u as [|a [|b [|c [|d rest]]]]; cbn in H; try lia.
  split.
  - unfold ChessUtils.uciToMove. cbn [ChessUtils.falsy String.eqb orb String.length].
    cbn [Nat.ltb Nat.leb]. cbn [substring].
    assert (E0 : forall s, substring 0 0 s = EmptyString) by (now intros [|? ?]).
    rewrite !E0. reflexivity.
  - intros E. destruct rest; [reflexivity|discriminate].
Qed.

Lemma uci_to_move_and_back_witness :
  ChessUtils.moveToUci (ChessUtils.uciToMove (Some "e7e8q")) = Some "e7e8" /\
  ChessUtils.moveToUci (ChessUtils.uciToMove (Some "e2e4")) = Some "e2e4".
Proof.
  split.
  - apply (uci_to_move_and_back "e7e8q"). cbn. lia.
  - destruct (uci_to_move_and_back "e2e4" ltac:(cbn; lia)) as [H1 H2].
    rewrite H1. now rewrite H2.
Defined.

(** X17: a move object with two squares that is turned into UCI notation
    and back keeps [from] and [to]; the promotion piece is not read
    back. *)
Theorem move_to_uci_and_back (f t : string) (p : option string) :
  String.length f = 2 -> String.length t = 2 ->
  ChessUtils.uciToMove
    (ChessUtils.moveToUci (Some (ChessUtils.mkMove f t p))) =
  Some (ChessUtils.mkMove f t None).
Proof.
  intros Hf Ht.
  destruct f as [|f1 [|f2 [|? ?]]]; try discriminate.
  destruct t as [|t1 [|t2 [|? ?]]]; try discriminate.
  assert (E0 : forall s, substring 0 0 s = EmptyString) by (now intros [|? ?]).
  unfold ChessUtils.moveToUci. cbn [ChessUtils.from ChessUtils.to ChessUtils.promotion
    ChessUtils.falsy String.eqb orb].
  destruct (ChessUtils.falsy p); [|destruct p as [q|]];
    unfold ChessUtils.uciToMove; cbn; now rewrite ?E0.
Qed.

Lemma move_to_uci_and_back_witness :
  ChessUtils.moveToUci (Some (ChessUtils.mkMove "e7" "e8" (Some "Q"))) = Some "e7e8q" /\
  ChessUtils.uciToMove
    (ChessUtils.moveToUci (Some (ChessUtils.mkMove "e7" "e8" (Some "Q")))) =
  Some (ChessUtils.mkMove "e7" "e8" None).
Proof.
  split; [reflexivity|].
  apply (move_to_uci_and_back "e7" "e8" (Some "Q")); reflexivity.
Defined.

Lemma file_index c :
  isFile c = true -> (0 <= Z.of_nat (nat_of_ascii c) - 97 <= 7)%Z.
Proof.
  unfold isFile, charIn. intros H. apply andb_true_iff in H as [H1 H2].
  apply Nat.leb_le in H1, H2.
  change (nat_of_ascii "a") with 97 in H1. change (nat_of_ascii "h") with 104 in H2.
  lia.
Qed.

Lemma rank_index c :
  isRank c = true ->
  exists d, ChessUtils.parseDigit c = Some d /\ (0 <= d - 1 <= 7)%Z.
Proof.
  unfold isRank, charIn. intros H. apply andb_true_iff in H as [H1 H2].
  apply Nat.leb_le in H1, H2.
  change (nat_of_ascii "1") with 49 in H1. change (nat_of_ascii "8") with 56 in H2.
  exists (digitValue c). split.
  - unfold ChessUtils.parseDigit, isDigit, charIn.
    change (nat_of_ascii "0") with 48. change (nat_of_ascii "9") with 57.
    assert (E1 : (48 <=? nat_of_ascii c) = true) by (apply Nat.leb_le; lia).
    assert (E2 : (nat_of_ascii c <=? 57) = true) by (apply Nat.leb_le; lia).
    now rewrite E1, E2.
  - unfold digitValue. lia.
Qed.

Lemma square_on_board f r :
  isFile f = true -> isRank r = true ->
  onBoard (ChessUtils.moveToSquare (Some (String f (String r EmptyString)))).
Proof.
  intros Hf Hr. destruct (rank_index r Hr) as (d & Ed & Hd).
  exists (Z.of_nat (nat_of_ascii f) - 97)%Z, (d - 1)%Z.
  split; [|split; [now apply file_index|exact Hd]].
  cbn [ChessUtils.moveToSquare]. now rewrite Ed.
Qed.

Lemma uci_move_squares mv :
  isUciMove mv = true ->
  exists m, ChessUtils.uciToMove (Some mv) = Some m /\
            isSquare (ChessUtils.from m) = true /\
            isSquare (ChessUtils.to m) = true /\
            onBoard (ChessUtils.moveToSquare (Some (ChessUtils.from m))) /\
            onBoard (ChessUtils.moveToSquare (Some (ChessUtils.to m))).
Proof.
  destruct mv as [|f1 [|r1 [|f2 [|r2 rest]]]]; try discriminate.
  cbn [isUciMove]. intros H.
  apply andb_true_iff in H as [H _].
  apply andb_true_iff in H as [H Hr2]. apply andb_true_iff in H as [H Hf2].
  apply andb_true_iff in H as [Hf1 Hr1].
  assert (E0 : forall s, substring 0 0 s = EmptyString) by (now intros [|? ?]).
  exists (ChessUtils.mkMove (String f1 (String r1 EmptyString))
                            (String f2 (String r2 EmptyString)) None).
  split; [|split; [|split; [|split]]].
  - unfold ChessUtils.uciToMove. cbn. now rewrite !E0.
  - cbn. now rewrite Hf1, Hr1.
  - cbn. now rewrite Hf2, Hr2.
  - now apply square_on_board.
  - now apply square_on_board.
Qed.

(** X18: the best move of a result the engine delivers is one that
    [uciToMove] accepts, and its two squares are squares of the board:
    [moveToSquare] gives both a file and a rank between 0 and 7. *)
Theorem resolved_move_has_squares (s : State) (c : nat) (r : EvaluationResult)
    (mv : string) :
  reachable s -> outcome c s = Some (Resolved r) -> bestMove r = Some mv ->
  exists m, ChessUtils.uciToMove (Some mv) = Some m /\
            onBoard (ChessUtils.moveToSquare (Some (ChessUtils.from m))) /\
            onBoard (ChessUtils.moveToSquare (Some (ChessUtils.to m))).
Proof.
  intros R H Hmv. destruct (resultsWellFormed_reachable s R) as [_ B].
  destruct (uci_move_squares mv (B c r H mv Hmv)) as (m & E & _ & _ & H1 & H2).
  exists m. auto.
Qed.

Lemma resolved_move_has_squares_witness :
  let s := run oneUnmapped
             [OnMessage (Message "bestmove g1f3 ponder g8f6" (Some 1))] in
  reachable s /\
  outcome 0 s = Some (Resolved (mkResult 0 (Some "g1f3"))) /\
  ChessUtils.moveToSquare (Some "g1") =
    Some (ChessUtils.mkIndices 6 (Some 0%Z)) /\
  exists m, ChessUtils.uciToMove (Some "g1f3") = Some m /\
            onBoard (ChessUtils.moveToSquare (Some (ChessUtils.from m))) /\
            onBoard (ChessUtils.moveToSquare (Some (ChessUtils.to m))).
Proof.
  assert (R : reachable (run oneUnmapped
             [OnMessage (Message "bestmove g1f3 ponder g8f6" (Some 1))])).
  { apply reachable_run. unfold oneUnmapped. apply reachable_run, ready_reachable. }
  split; [exact R|]. split; [reflexivity|]. split; [reflexivity|].
  apply (resolved_move_has_squares _ 0 (mkResult 0 (Some "g1f3")) "g1f3" R);
    reflexivity.
Defined.

(** * The coach's comments *)

(** X19: when a move was made (the side to move has changed), the blunder
    popup and the coach's comment agree: whenever the popup is shown the
    comment is an 'error', a 'warning' or a 'caution', and whenever the
    comment is an 'error' or a 'warning' the popup is shown. *)
Theorem blunder_popup_and_comment (toFixed1 : Z -> string)
    (evaluation previousEval : Z) (turn : Color) (draw : nat) :
  let popup := App.blunderDetected evaluation previousEval (opposite turn) in
  let comment := App.coachComment toFixed1 evaluation previousEval turn draw in
  (popup = true ->
   exists c, comment = Some c /\
             (CoachComments.type c = CoachComments.error \/
              CoachComments.type c = CoachComments.warning \/
              CoachComments.type c = CoachComments.caution)) /\
  (forall c, comment = Some c ->
             CoachComments.type c = CoachComments.error \/
             CoachComments.type c = CoachComments.warning ->
             popup = true).
Proof.
  cbn zeta. unfold App.blunderDetected, App.coachComment,
    CoachComments.generateCoachComment.
  set (change := (evaluation - previousEval)%Z).
  assert (E : ((change * (if match opposite turn with White => true | Black => false end
                          then 1 else -1)) =
               (change * (if match turn with White => true | Black => false end
                          then -1 else 1)))%Z) by (now destruct turn).
  rewrite E.
  set (adj := (change * (if match turn with White => true | Black => false end
                         then -1 else 1))%Z).
  split.
  - intros H. apply Z.ltb_lt in H.
    destruct (adj <? -300)%Z eqn:E1; [eexists; split; [reflexivity|now left]|].
    destruct (adj <? -200)%Z eqn:E2; [eexists; split; [reflexivity|right; now left]|].
    destruct (adj <? -100)%Z eqn:E3; [eexists; split; [reflexivity|right; now right]|].
    apply Z.ltb_ge in E3. lia.
  - intros c Hc Ht. apply Z.ltb_lt.
    destruct (adj <? -300)%Z eqn:E1; [apply Z.ltb_lt in E1; lia|].
    destruct (adj <? -200)%Z eqn:E2; [apply Z.ltb_lt in E2; lia|].
    destruct (adj <? -100)%Z;
      [|destruct (200 <? adj)%Z; [|destruct (100 <? adj)%Z]];
      try discriminate; injection Hc as <-; cbn in Ht;
      destruct Ht; discriminate.
Qed.

(** X20: the coach judges both sides alike: a change of the evaluation
    after a move of White gets the type of comment that the opposite
    change gets after a move of Black; changes of at most a pawn get no
    comment. *)
Theorem comment_mirrors (toFixed1 : Z -> string) (change p1 c1 p2 c2 : Z)
    (d1 d2 : nat) :
  option_map CoachComments.type
    (CoachComments.generateCoachComment toFixed1 change p1 c1 Black d1) =
  option_map CoachComments.type
    (CoachComments.generateCoachComment toFixed1 (- change) p2 c2 White d2) /\
  ((-100 <= change <= 100)%Z ->
   CoachComments.generateCoachComment toFixed1 change p1 c1 Black d1 = None).
Proof.
  unfold CoachComments.generateCoachComment. cbn zeta.
  replace (- change * -1)%Z with (change * 1)%Z by lia.
  rewrite Z.mul_1_r. split.
  - destruct (change <? -300)%Z; [reflexivity|].
    destruct (change <? -200)%Z; [reflexivity|].
    destruct (change <? -100)%Z; [reflexivity|].
    destruct (200 <? change)%Z; [reflexivity|].
    destruct (100 <? change)%Z; reflexivity.
  - intros H.
    assert (E1 : (change <? -300)%Z = false) by (apply Z.ltb_ge; lia).
    assert (E2 : (change <? -200)%Z = false) by (apply Z.ltb_ge; lia).
    assert (E3 : (change <? -100)%Z = false) by (apply Z.ltb_ge; lia).
    assert (E4 : (200 <? change)%Z = false) by (apply Z.ltb_ge; lia).
    assert (E5 : (100 <? change)%Z = false) by (apply Z.ltb_ge; lia).
    now rewrite E1, E2, E3, E4, E5.
Qed.

(** * Threat analysis *)

Module ThreatFacts.
Import ThreatAnalysis.

Lemma direction_unread fuel game fromSquare toSquare d d' :
  isPathClear fuel game fromSquare toSquare d =
  isPathClear fuel game fromSquare toSquare d'.
Proof. reflexivity. Qed.

Lemma step_sgn a b :
  (if lt (Some a) (Some b) then 1 else if lt (Some b) (Some a) then -1 else 0)%Z =
  Z.sgn (b - a).
Proof.
  cbn [lt]. destruct (a <? b)%Z eqn:E1.
  - apply Z.ltb_lt in E1. lia.
  - apply Z.ltb_ge in E1. destruct (b <? a)%Z eqn:E2.
    + apply Z.ltb_lt in E2. lia.
    + apply Z.ltb_ge in E2. lia.
Qed.

(** The loop along a line: [m] squares are left before the target. *)
Lemma walk_line game ff fr tf tr fs rs :
  (fs <> 0 \/ rs <> 0)%Z ->
  forall m fuel k,
    (tf = ff + Z.of_nat (k + m) * fs)%Z -> (tr = fr + Z.of_nat (k + m) * rs)%Z ->
    m <= fuel ->
    walk game fuel (Some (ff + Z.of_nat k * fs)%Z) (Some (fr + Z.of_nat k * rs)%Z)
         (Some tf) (Some tr) fs rs =
    Some (forallb (vacant game)
            (map (fun j => squareName (Some (ff + Z.of_nat j * fs)%Z)
                                      (Some (fr + Z.of_nat j * rs)%Z))
                 (seq k m))).
Proof.
  intros Hs. induction m as [|m IH]; intros fuel k Hf Hr Hm.
  - assert (E1 : (ff + Z.of_nat k * fs =? tf)%Z = true) by (apply Z.eqb_eq; subst; f_equal; f_equal; lia).
    assert (E2 : (fr + Z.of_nat k * rs =? tr)%Z = true) by (apply Z.eqb_eq; subst; f_equal; f_equal; lia).
    destruct fuel; cbn [walk eq]; rewrite E1, E2; reflexivity.
  - destruct fuel as [|fuel]; [lia|].
    assert (E : negb (ff + Z.of_nat k * fs =? tf)%Z || negb (fr + Z.of_nat k * rs =? tr)%Z = true).
    { apply orb_true_iff. destruct Hs as [Hs|Hs]; [left|right];
        apply negb_true_iff, Z.eqb_neq; subst; nia. }
    cbn [walk eq]. rewrite E. cbn [seq map forallb]. unfold vacant at 1.
    destruct (get game _); [reflexivity|]. cbn [andb add].
    replace (ff + Z.of_nat k * fs + fs)%Z with (ff + Z.of_nat (S k) * fs)%Z by lia.
    replace (fr + Z.of_nat k * rs + rs)%Z with (fr + Z.of_nat (S k) * rs)%Z by lia.
    apply IH; [| |lia].
    + rewrite Hf. f_equal. f_equal. lia.
    + rewrite Hr. f_equal. f_equal. lia.
Qed.

End ThreatFacts.

Lemma path_along_line (fuel : nat) (game : ThreatAnalysis.Game)
    (fromSquare toSquare : string) (d : ThreatAnalysis.Direction)
    (ff fr tf tr : Z) :
  ThreatAnalysis.fileOf fromSquare = Some ff ->
  ThreatAnalysis.rankOf fromSquare = Some fr ->
  ThreatAnalysis.fileOf toSquare = Some tf ->
  ThreatAnalysis.rankOf toSquare = Some tr ->
  aligned ff fr tf tr ->
  List.length (between ff fr tf tr) <= fuel ->
  ThreatAnalysis.isPathClear fuel game fromSquare toSquare d =
  Some (forallb (vacant game) (between ff fr tf tr)).
Proof.
  intros Eff Efr Etf Etr [Hne Hal] Hfuel.
  unfold ThreatAnalysis.isPathClear. rewrite Eff, Efr, Etf, Etr.
  unfold ThreatAnalysis.gt. rewrite !ThreatFacts.step_sgn.
  cbn [ThreatAnalysis.add].
  unfold between in *. rewrite length_map, length_seq in Hfuel.
  set (n := Z.to_nat (Z.max (Z.abs (tf - ff)) (Z.abs (tr - fr)))) in *.
  assert (Hn : 1 <= n) by (unfold n; lia).
  assert (Ef : (tf = ff + Z.of_nat (1 + (n - 1)) * Z.sgn (tf - ff))%Z).
  { replace (1 + (n - 1)) with n by lia. unfold n. rewrite Z2Nat.id by lia.
    destruct (Z.sgn_spec (tf - ff)) as [[? ->]|[[? ->]|[? ->]]]; lia. }
  assert (Er : (tr = fr + Z.of_nat (1 + (n - 1)) * Z.sgn (tr - fr))%Z).
  { replace (1 + (n - 1)) with n by lia. unfold n. rewrite Z2Nat.id by lia.
    destruct (Z.sgn_spec (tr - fr)) as [[? ->]|[[? ->]|[? ->]]]; lia. }
  replace (ff + Z.sgn (tf - ff))%Z with (ff + Z.of_nat 1 * Z.sgn (tf - ff))%Z by lia.
  replace (fr + Z.sgn (tr - fr))%Z with (fr + Z.of_nat 1 * Z.sgn (tr - fr))%Z by lia.
  apply ThreatFacts.walk_line; auto.
  destruct (Z.sgn_spec (tf - ff)) as [[? ->]|[[? ->]|[? ->]]];
    destruct (Z.sgn_spec (tr - fr)) as [[? ->]|[[? ->]|[? ->]]]; lia.
Qed.

(** X21: between two squares on a common file, rank or diagonal
    [isPathClear] looks at the squares strictly between them and at no
    other square, and answers whether all of them are empty; it needs one
    unit of fuel for each of them. *)
Theorem path_clear_iff_vacant (fuel : nat) (game : ThreatAnalysis.Game)
    (fromSquare toSquare : string) (d : ThreatAnalysis.Direction)
    (ff fr tf tr : Z) :
  ThreatAnalysis.fileOf fromSquare = Some ff ->
  ThreatAnalysis.rankOf fromSquare = Some fr ->
  ThreatAnalysis.fileOf toSquare = Some tf ->
  ThreatAnalysis.rankOf toSquare = Some tr ->
  aligned ff fr tf tr ->
  List.length (between ff fr tf tr) <= fuel ->
  ThreatAnalysis.isPathClear fuel game fromSquare toSquare d =
  Some (forallb (vacant game) (between ff fr tf tr)).
Proof.
  intros Eff Efr Etf Etr Hal Hfuel. now apply path_along_line with (ff := ff) (fr := fr).
Qed.

Lemma path_clear_iff_vacant_witness :
  let game := ThreatAnalysis.mkGame White
                (fun sq => if (sq =? "a4")%string
                           then Some (ThreatAnalysis.mkPiece ThreatAnalysis.Pawn White)
                           else None) [] in
  between 0 1 0 8 = ["a2"; "a3"; "a4"; "a5"; "a6"; "a7"] /\
  ThreatAnalysis.isPathClear 6 game "a1" "a8" ThreatAnalysis.Straight = Some false /\
  ThreatAnalysis.isPathClear 6 game "a1" "a4" ThreatAnalysis.Straight = Some true.
Proof.
  split; [reflexivity|]. split.
  - rewrite (path_clear_iff_vacant 6 _ "a1" "a8" ThreatAnalysis.Straight 0 1 0 8
               eq_refl eq_refl eq_refl eq_refl
               ltac:(split; lia) ltac:(vm_compute; lia)).
    reflexivity.
  - rewrite (path_clear_iff_vacant 6 _ "a1" "a4" ThreatAnalysis.Straight 0 1 0 4
               eq_refl eq_refl eq_refl eq_refl
               ltac:(split; lia) ltac:(vm_compute; lia)).
    reflexivity.
Defined.

(** X22: a queen reaches exactly the squares that a rook or a bishop on
    her square would reach, whatever the fuel and the squares given. *)
Theorem queen_is_rook_or_bishop (fuel : nat) (game : ThreatAnalysis.Game)
    (fromSquare toSquare : string) (color : Color) :
  ThreatAnalysis.canPieceReachSquare fuel game fromSquare toSquare
    ThreatAnalysis.Queen color = Some true <->
  (ThreatAnalysis.canPieceReachSquare fuel game fromSquare toSquare
     ThreatAnalysis.Rook color = Some true \/
   ThreatAnalysis.canPieceReachSquare fuel game fromSquare toSquare
     ThreatAnalysis.Bishop color = Some true).
Proof.
  unfold ThreatAnalysis.canPieceReachSquare, ThreatAnalysis.isPathClear.
  set (path := ThreatAnalysis.walk _ _ _ _ _ _ _ _).
  destruct (ThreatAnalysis.abs
              (ThreatAnalysis.sub (ThreatAnalysis.fileOf toSquare)
                                  (ThreatAnalysis.fileOf fromSquare))) as [x|];
    destruct (ThreatAnalysis.abs
                (ThreatAnalysis.sub (ThreatAnalysis.rankOf toSquare)
                                    (ThreatAnalysis.rankOf fromSquare))) as [y|];
    cbn [ThreatAnalysis.eq ThreatAnalysis.gt ThreatAnalysis.lt orb andb];
    try (split; [discriminate|intros [H|H]; discriminate]);
    try (split; [intros H; left; exact H|intros [H|H]; [exact H|discriminate]]).
  destruct (x =? y)%Z eqn:A; destruct (x =? 0)%Z eqn:B; destruct (y =? 0)%Z eqn:C;
    destruct (0 <? x)%Z eqn:P; destruct (0 <? y)%Z eqn:Q;
    cbn [orb andb];
    try (split; [intros H; (now left) || (now right)|intros [H|H]; (exact H) || discriminate]);
    try (split; [discriminate|intros [H|H]; discriminate]);
    exfalso;
    repeat match goal with
           | H : (_ =? _)%Z = true |- _ => apply Z.eqb_eq in H
           | H : (_ =? _)%Z = false |- _ => apply Z.eqb_neq in H
           | H : (_ <? _)%Z = true |- _ => apply Z.ltb_lt in H
           | H : (_ <? _)%Z = false |- _ => apply Z.ltb_ge in H
           end; lia.
Qed.

Module ThreatLoops.
Import ThreatAnalysis.

(** *** Only the position is read *)

Lemma walk_position game fuel : forall cf cr tf tr fs rs,
  walk (positionOnly game) fuel cf cr tf tr fs rs = walk game fuel cf cr tf tr fs rs.
Proof.
  induction fuel as [|fuel IH]; intros; cbn [walk]; [reflexivity|].
  cbn [get positionOnly]. now rewrite IH.
Qed.

Lemma reach_position fuel game fromSquare toSquare ty c :
  canPieceReachSquare fuel (positionOnly game) fromSquare toSquare ty c =
  canPieceReachSquare fuel game fromSquare toSquare ty c.
Proof.
  unfold canPieceReachSquare, isPathClear. now rewrite !walk_position.
Qed.

Lemma attackedFrom_position fuel game square attacker fromSquares :
  attackedFrom fuel (positionOnly game) square attacker fromSquares =
  attackedFrom fuel game square attacker fromSquares.
Proof.
  induction fromSquares as [|sq rest IH]; cbn [attackedFrom]; [reflexivity|].
  cbn [get positionOnly]. rewrite IH.
  destruct (get game sq) as [piece|]; [|reflexivity].
  now rewrite reach_position.
Qed.

Lemma isSquareAttacked_position fuel game square attacker :
  sameColor (turn game) attacker = false ->
  isSquareAttacked fuel (positionOnly game) square attacker =
  isSquareAttacked fuel game square attacker.
Proof.
  intros H. unfold isSquareAttacked. cbn [turn positionOnly]. rewrite H.
  apply attackedFrom_position.
Qed.

Lemma collect_position fuel game current opponent todo :
  sameColor (turn game) opponent = false ->
  collect fuel (positionOnly game) current opponent todo =
  collect fuel game current opponent todo.
Proof.
  intros H. induction todo as [|sq rest IH]; cbn [collect]; [reflexivity|].
  cbn [get positionOnly]. rewrite IH.
  destruct (get game sq) as [piece|]; [|reflexivity].
  now rewrite isSquareAttacked_position.
Qed.

Lemma other_side c :
  sameColor c (match c with White => Black | Black => White end) = false.
Proof. now destruct c. Qed.

(** *** The squares of the board *)

Lemma squares_named : forallb isSquare squares = true.
Proof. vm_compute. reflexivity. Qed.

Lemma square_coordinates sq :
  isSquare sq = true ->
  exists f r, fileOf sq = Some f /\ rankOf sq = Some r /\
              (0 <= f <= 7)%Z /\ (1 <= r <= 8)%Z.
Proof.
  destruct sq as [|f [|r [|? ?]]]; try discriminate. cbn [isSquare].
  intros H. apply andb_true_iff in H as [Hf Hr].
  destruct (rank_index r Hr) as (d & Ed & Hd).
  exists (Z.of_nat (nat_of_ascii f) - 97)%Z, d.
  split; [reflexivity|]. split; [exact Ed|].
  split; [now apply file_index|lia].
Qed.

(** *** Enough fuel *)

Lemma between_length ff fr tf tr :
  (0 <= ff <= 7)%Z -> (1 <= fr <= 8)%Z -> (0 <= tf <= 7)%Z -> (1 <= tr <= 8)%Z ->
  List.length (between ff fr tf tr) <= 6.
Proof.
  intros. unfold between. rewrite length_map, length_seq. lia.
Qed.

Lemma reach_total fuel game fromSquare toSquare ty c :
  isSquare fromSquare = true -> isSquare toSquare = true -> 6 <= fuel ->
  exists b, canPieceReachSquare fuel game fromSquare toSquare ty c = Some b.
Proof.
  intros Hf Ht Hfuel.
  destruct (square_coordinates _ Hf) as (ff & fr & Eff & Efr & Bff & Bfr).
  destruct (square_coordinates _ Ht) as (tf & tr & Etf & Etr & Btf & Btr).
  assert (Path : forall d, aligned ff fr tf tr ->
            exists b, isPathClear fuel game fromSquare toSquare d = Some b).
  { intros d Hal. eexists.
    apply (path_along_line fuel game fromSquare toSquare d ff fr tf tr); auto.
    pose proof (between_length ff fr tf tr Bff Bfr Btf Btr). lia. }
  unfold canPieceReachSquare. rewrite Eff, Efr, Etf, Etr.
  cbn [sub abs option_map eq gt lt le].
  destruct ty; try (eexists; reflexivity).
  - destruct ((Z.abs (tf - ff) =? Z.abs (tr - fr))%Z && (0 <? Z.abs (tf - ff))%Z) eqn:E;
      [|eexists; reflexivity].
    apply Path. apply andb_true_iff in E as [E1 E2].
    apply Z.eqb_eq in E1. apply Z.ltb_lt in E2. split; [lia|now left].
  - destruct (((Z.abs (tf - ff) =? 0)%Z || (Z.abs (tr - fr) =? 0)%Z) &&
              ((0 <? Z.abs (tf - ff))%Z || (0 <? Z.abs (tr - fr))%Z)) eqn:E;
      [|eexists; reflexivity].
    apply Path. apply andb_true_iff in E as [E1 E2].
    apply orb_true_iff in E1, E2.
    rewrite !Z.eqb_eq in E1. rewrite !Z.ltb_lt in E2. split; lia.
  - destruct (((Z.abs (tf - ff) =? Z.abs (tr - fr))%Z || (Z.abs (tf - ff) =? 0)%Z ||
               (Z.abs (tr - fr) =? 0)%Z) &&
              ((0 <? Z.abs (tf - ff))%Z || (0 <? Z.abs (tr - fr))%Z)) eqn:E;
      [|eexists; reflexivity].
    apply Path. apply andb_true_iff in E as [E1 E2].
    apply orb_true_iff in E1, E2. rewrite orb_true_iff in E1.
    rewrite !Z.eqb_eq in E1. rewrite !Z.ltb_lt in E2. split; lia.
Qed.

Lemma attackedFrom_total fuel game square attacker fromSquares :
  isSquare square = true -> 6 <= fuel ->
  forallb isSquare fromSquares = true ->
  exists b, attackedFrom fuel game square attacker fromSquares = Some b.
Proof.
  intros Hs Hfuel. induction fromSquares as [|sq rest IH]; cbn [attackedFrom forallb].
  - intros _. now exists false.
  - intros H. apply andb_true_iff in H as [Hsq Hrest].
    destruct (get game sq) as [piece|]; [|now apply IH].
    destruct (sameColor (color piece) attacker); [|now apply IH].
    destruct (reach_total fuel game sq square (type piece) attacker Hsq Hs Hfuel)
      as ([|] & ->); [now exists true|now apply IH].
Qed.

Lemma isSquareAttacked_total fuel game square attacker :
  isSquare square = true -> 6 <= fuel ->
  exists b, isSquareAttacked fuel game square attacker = Some b.
Proof.
  intros Hs Hfuel. unfold isSquareAttacked.
  destruct (sameColor (turn game) attacker); [eexists; reflexivity|].
  apply attackedFrom_total; [exact Hs|exact Hfuel|apply squares_named].
Qed.

Lemma collect_total fuel game current opponent todo :
  6 <= fuel -> forallb isSquare todo = true ->
  exists l, collect fuel game current opponent todo = Some l.
Proof.
  intros Hfuel. induction todo as [|sq rest IH]; cbn [collect forallb].
  - intros _. now exists [].
  - intros H. apply andb_true_iff in H as [Hsq Hrest].
    destruct (IH Hrest) as (l & El).
    destruct (get game sq) as [piece|]; [|now exists l].
    destruct (sameColor (color piece) current); [|now exists l].
    destruct (isSquareAttacked_total fuel game sq opponent Hsq Hfuel) as ([|] & ->).
    + rewrite El. now exists (sq :: l).
    + now exists l.
Qed.

(** *** What the loops find *)

Lemma sameColor_eq a b : sameColor a b = true -> a = b.
Proof. now destruct a, b. Qed.

Lemma attackedFrom_found fuel game square attacker fromSquares :
  attackedFrom fuel game square attacker fromSquares = Some true ->
  exists fromSquare piece,
    In fromSquare fromSquares /\ get game fromSquare = Some piece /\
    color piece = attacker /\
    canPieceReachSquare fuel game fromSquare square (type piece) attacker = Some true.
Proof.
  induction fromSquares as [|sq rest IH]; cbn [attackedFrom]; [discriminate|].
  intros H.
  assert (Rest : attackedFrom fuel game square attacker rest = Some true ->
                 exists fromSquare piece,
                   In fromSquare (sq :: rest) /\ get game fromSquare = Some piece /\
                   color piece = attacker /\
                   canPieceReachSquare fuel game fromSquare square (type piece)
                                       attacker = Some true).
  { intros H'. destruct (IH H') as (f & p & Hin & Hrest). exists f, p.
    split; [now right|exact Hrest]. }
  destruct (get game sq) as [piece|] eqn:G; [|now apply Rest].
  destruct (sameColor (color piece) attacker) eqn:Sc; [|now apply Rest].
  destruct (canPieceReachSquare fuel game sq square (type piece) attacker)
    as [[|]|] eqn:C; [|now apply Rest|discriminate].
  exists sq, piece. split; [now left|]. split; [exact G|].
  split; [now apply sameColor_eq|exact C].
Qed.

Lemma collect_found fuel game current opponent todo l square :
  collect fuel game current opponent todo = Some l -> In square l ->
  In square todo /\
  exists piece, get game square = Some piece /\ color piece = current /\
                isSquareAttacked fuel game square opponent = Some true.
Proof.
  revert l. induction todo as [|sq rest IH]; cbn [collect]; intros l H Hin.
  - injection H as <-. destruct Hin.
  - assert (Rest : collect fuel game current opponent rest = Some l ->
                   In square (sq :: rest) /\
                   exists piece, get game square = Some piece /\
                                 color piece = current /\
                                 isSquareAttacked fuel game square opponent = Some true).
    { intros H'. destruct (IH l H' Hin) as [H1 H2]. split; [now right|exact H2]. }
    destruct (get game sq) as [piece|] eqn:G; [|now apply Rest].
    destruct (sameColor (color piece) current) eqn:Sc; [|now apply Rest].
    destruct (isSquareAttacked fuel game sq opponent) as [[|]|] eqn:A;
      [|now apply Rest|discriminate].
    destruct (collect fuel game current opponent rest) as [l'|] eqn:C;
      [|discriminate].
    cbn [option_map] in H. injection H as <-. destruct Hin as [<-|Hin].
    + split; [now left|]. exists piece. split; [exact G|].
      split; [now apply sameColor_eq|exact A].
    + destruct (IH l' eq_refl Hin) as [H1 H2]. split; [now right|exact H2].
Qed.

End ThreatLoops.

(** X23: [findAttackedPieces] reads only the position that chess.js
    returns for the opponent's move: the list of legal moves of that
    position is never asked for, because the attacker is never the side
    to move. *)
Theorem threats_read_position_only
    (move : ThreatAnalysis.Game -> ChessUtils.Move -> option ThreatAnalysis.Game)
    (fuel : nat) (game : ThreatAnalysis.Game) (best : option string) :
  ThreatAnalysis.findAttackedPieces
    (fun g m => option_map positionOnly (move g m)) fuel game best =
  ThreatAnalysis.findAttackedPieces move fuel game best.
Proof.
  unfold ThreatAnalysis.findAttackedPieces. destruct best as [b|]; [|reflexivity].
  destruct (ChessUtils.falsy (Some b) || (String.length b <? 4)); [reflexivity|].
  destruct (move game _) as [gameCopy|]; [|reflexivity].
  cbn [option_map ThreatAnalysis.turn positionOnly].
  apply ThreatLoops.collect_position, ThreatLoops.other_side.
Qed.

(** X24: with fuel for six squares [findAttackedPieces] returns, and every
    square it returns is a square of the board on which, after the move
    that chess.js made, a piece of the side to move stands that a piece of
    the other side can reach. *)
Theorem attacked_squares_are_threatened
    (move : ThreatAnalysis.Game -> ChessUtils.Move -> option ThreatAnalysis.Game)
    (fuel : nat) (game : ThreatAnalysis.Game) (best : option string) :
  6 <= fuel ->
  exists l,
    ThreatAnalysis.findAttackedPieces move fuel game best = Some l /\
    forall square, In square l ->
      exists m gameCopy piece fromSquare attacker,
        move game m = Some gameCopy /\
        In square ThreatAnalysis.squares /\
        ThreatAnalysis.get gameCopy square = Some piece /\
        ThreatAnalysis.color piece = ThreatAnalysis.turn gameCopy /\
        In fromSquare ThreatAnalysis.squares /\
        ThreatAnalysis.get gameCopy fromSquare = Some attacker /\
        ThreatAnalysis.color attacker = opposite (ThreatAnalysis.turn gameCopy) /\
        ThreatAnalysis.canPieceReachSquare fuel gameCopy fromSquare square
          (ThreatAnalysis.type attacker) (opposite (ThreatAnalysis.turn gameCopy)) =
        Some true.
Proof.
  intros Hfuel. unfold ThreatAnalysis.findAttackedPieces.
  assert (Nil : exists l : list string, Some [] = Some l /\
            forall square, In square l ->
              exists m gameCopy piece fromSquare attacker,
                move game m = Some gameCopy /\
                In square ThreatAnalysis.squares /\
                ThreatAnalysis.get gameCopy square = Some piece /\
                ThreatAnalysis.color piece = ThreatAnalysis.turn gameCopy /\
                In fromSquare ThreatAnalysis.squares /\
                ThreatAnalysis.get gameCopy fromSquare = Some attacker /\
                ThreatAnalysis.color attacker = opposite (ThreatAnalysis.turn gameCopy) /\
                ThreatAnalysis.canPieceReachSquare fuel gameCopy fromSquare square
                  (ThreatAnalysis.type attacker)
                  (opposite (ThreatAnalysis.turn gameCopy)) = Some true).
  { exists []. split; [reflexivity|]. intros square []. }
  destruct best as [b|]; [|exact Nil].
  destruct (ChessUtils.falsy (Some b) || (String.length b <? 4)); [exact Nil|].
  match goal with
  | |- context [move game ?x] => set (m := x)
  end.
  destruct (move game m) as [gameCopy|] eqn:Em; [|exact Nil].
  change (match ThreatAnalysis.turn gameCopy with
          | White => Black
          | Black => White
          end) with (opposite (ThreatAnalysis.turn gameCopy)).
  destruct (ThreatLoops.collect_total fuel gameCopy (ThreatAnalysis.turn gameCopy)
              (opposite (ThreatAnalysis.turn gameCopy)) ThreatAnalysis.squares
              Hfuel ThreatLoops.squares_named) as (l & El).
  exists l. split; [exact El|]. intros square Hin.
  destruct (ThreatLoops.collect_found _ _ _ _ _ _ _ El Hin)
    as (Hsq & piece & G & Hc & A).
  unfold ThreatAnalysis.isSquareAttacked in A.
  assert (Sc : ThreatAnalysis.sameColor (ThreatAnalysis.turn gameCopy)
                 (opposite (ThreatAnalysis.turn gameCopy)) = false)
    by apply ThreatLoops.other_side.
  rewrite Sc in A.
  destruct (ThreatLoops.attackedFrom_found _ _ _ _ _ A)
    as (fromSquare & attacker & Hf & Ga & Hca & Hr).
  exists m, gameCopy, piece, fromSquare, attacker. repeat split; assumption.
Qed.

Lemma attacked_squares_are_threatened_witness :
  let after := ThreatAnalysis.mkGame Black
                 (fun sq =>
                    if (sq =? "a4")%string
                    then Some (ThreatAnalysis.mkPiece ThreatAnalysis.Rook White)
                    else if (sq =? "a7")%string || (sq =? "h7")%string
                    then Some (ThreatAnalysis.mkPiece ThreatAnalysis.Pawn Black)
                    else None) [] in
  let move := fun (_ : ThreatAnalysis.Game) (m : ChessUtils.Move) =>
                if (ChessUtils.from m =? "a1")%string && (ChessUtils.to m =? "a4")%string
                then Some after else None in
  6 <= 6 /\
  ThreatAnalysis.findAttackedPieces move 6 after (Some "a1a4") = Some ["a7"] /\
  exists l, ThreatAnalysis.findAttackedPieces move 6 after (Some "a1a4") = Some l.
Proof.
  intros after move. split; [lia|]. split; [vm_compute; reflexivity|].
  destruct (attacked_squares_are_threatened move 6 after (Some "a1a4"))
    as (l & E & _); [lia|].
  exists l. exact E.
Defined.

(** * Calls in quick succession, in the engine of [src/lib/chessEngine.ts] *)

Module LegacyCalls.
Import Legacy LegacyTimers.

Lemma wrapped_clock cl o l : clock (wrapped cl o l) = clock l.
Proof. unfold wrapped, settle, outcome. simpl. now destruct Engine.lookup. Qed.

(** The loop of [stopEvaluation] and [destroy] rejects and removes. *)
Lemma rejectList_rejects err L : forall l,
  let l' := fold_left
              (fun s e => if JsMap.has (fst e) (pendingEvaluations s)
                          then wrapped (snd e) (Rejected err) s else s) L l in
  (forall c, outcome c l' = outcome c l \/
             (outcome c l = None /\ outcome c l' = Some (Rejected err))) /\
  incl (pendingEvaluations l') (pendingEvaluations l) /\
  incl (timers l') (timers l) /\ promises l' = promises l.
Proof.
  induction L as [|x L IH]; intros l; simpl.
  - repeat split; auto using incl_refl.
  - destruct (JsMap.has (fst x) (pendingEvaluations l)); [|apply IH].
    destruct (IH (wrapped (snd x) (Rejected err) l)) as (O & P & T & N).
    split; [|split; [|split]].
    + intros c. specialize (O c). rewrite legacy_wrapped_outcome in O.
      destruct (c =? cl_promise (snd x)); [|exact O].
      destruct (outcome c l) eqn:E.
      * destruct O as [O|[O _]]; [now left|discriminate].
      * destruct O as [O|[O _]]; [right; now split|discriminate].
    + rewrite legacy_wrapped_pending in P. intros y Hy.
      apply P, In_delete in Hy. tauto.
    + rewrite legacy_wrapped_timers in T. intros y Hy.
      apply T, filter_In in Hy. tauto.
    + rewrite N. apply legacy_wrapped_promises.
Qed.

(** An event that only rejects and removes. *)
Lemma rejecting l l' :
  (forall c, outcome c l' = outcome c l \/
             (outcome c l = None /\ exists err, outcome c l' = Some (Rejected err))) ->
  incl (pendingEvaluations l') (pendingEvaluations l) ->
  incl (timers l') (timers l) -> promises l' = promises l ->
  (forall c, legacyMoves c l l') /\
  (forall x, In x (pendingEvaluations l') ->
     In x (pendingEvaluations l) \/ cl_promise (snd x) = promises l) /\
  (forall t, In t (timers l') ->
     In t (timers l) \/
     (legacyCall t = promises l /\ t_deadline t = (clock l + timeoutMs)%N)) /\
  promises l <= promises l'.
Proof.
  intros O P T N. split; [|split; [|split]]; auto; [|lia].
  intros c. destruct (O c) as [H|[H1 H2]]; [now left|right].
  split; auto.
Qed.

Lemma stopEvaluation_rejects l :
  let l' := stopEvaluation l in
  (forall c, outcome c l' = outcome c l \/
             (outcome c l = None /\ outcome c l' = Some (Rejected EvaluationStopped))) /\
  incl (pendingEvaluations l') (pendingEvaluations l) /\
  incl (timers l') (timers l) /\ promises l' = promises l.
Proof.
  unfold stopEvaluation. destruct (worker l && isReady l).
  - destruct (rejectList_rejects EvaluationStopped
                (pendingEvaluations (postMessage Stop l)) (postMessage Stop l))
      as (O & P & T & N).
    repeat split; auto. intros x [].
  - repeat split; auto using incl_refl.
Qed.

Lemma handleInfo_same message l :
  settled (handleInfo message l) = settled l /\
  pendingEvaluations (handleInfo message l) = pendingEvaluations l /\
  timers (handleInfo message l) = timers l /\
  promises (handleInfo message l) = promises l.
Proof.
  unfold handleInfo.
  destruct (startsWith "info" message && includes "score" message); auto.
  destruct (scoreMatch message); auto.
Qed.

(** What one event does to the promises, the entries and the timers. *)
Lemma step_moves l e :
  (forall c, legacyMoves c l (step l e)) /\
  (forall x, In x (pendingEvaluations (step l e)) ->
     In x (pendingEvaluations l) \/ cl_promise (snd x) = promises l) /\
  (forall t, In t (timers (step l e)) ->
     In t (timers l) \/
     (legacyCall t = promises l /\ t_deadline t = (clock l + timeoutMs)%N)) /\
  promises l <= promises (step l e).
Proof.
  destruct e as [|fen depth| | |m|c0|ms]; cbn [step].
  - apply rejecting; auto using incl_refl.
  - destruct (worker l && isReady l) eqn:E.
    + apply andb_true_iff in E as [Hw Hr].
      rewrite getEvaluation_accepted; auto. cbn.
      split; [intros c; now left|]. split; [|split; [|lia]].
      * intros x Hx. apply In_set in Hx as [->|Hx]; auto.
      * intros t Ht. apply in_app_iff in Ht as [Ht|[<-|[]]]; auto.
    + rewrite getEvaluation_refused; auto.
      split; [|split; [|split]].
      * intros c. unfold legacyMoves. rewrite legacy_outcome_settle.
        change (outcome (promises l) (setPromises (S (promises l)) l))
          with (outcome (promises l) l).
        change (outcome c (setPromises (S (promises l)) l)) with (outcome c l).
        destruct (Nat.eqb_spec c (promises l)) as [->|]; [|now left].
        destruct (outcome (promises l) l) eqn:O; [now left|right].
        split; auto. left. eauto.
      * intros x Hx. left. unfold settle in Hx.
        now destruct (outcome (promises l) (setPromises (S (promises l)) l)).
      * intros t Ht. left. unfold settle in Ht.
        now destruct (outcome (promises l) (setPromises (S (promises l)) l)).
      * unfold settle.
        destruct (outcome (promises l) (setPromises (S (promises l)) l));
          simpl; lia.
  - destruct (stopEvaluation_rejects l) as (O & P & T & N).
    apply rejecting; auto. intros c. destruct (O c) as [H|[H1 H2]]; eauto.
  - unfold destroy. destruct (worker l); [|apply rejecting; auto using incl_refl].
    destruct (stopEvaluation_rejects l) as (O & P & T & N).
    destruct (rejectList_rejects WorkerTerminated
                (pendingEvaluations (stopEvaluation l)) (stopEvaluation l))
      as (O' & P' & T' & N').
    fold (rejectEach WorkerTerminated (stopEvaluation l)) in O', P', T', N'.
    set (x := rejectEach WorkerTerminated (stopEvaluation l)) in *.
    apply rejecting.
    + intros c.
      change (outcome c x = outcome c l \/
              (outcome c l = None /\
               exists err, outcome c x = Some (Rejected err))).
      destruct (O' c) as [H|[H1 H2]], (O c) as [K|[K1 K2]].
      * left. congruence.
      * right. split; auto. rewrite H. eauto.
      * right. split; [congruence|eauto].
      * congruence.
    + intros y [].
    + intros t Ht. change (In t (timers x)) in Ht. apply T, T'. exact Ht.
    + change (promises x = promises l). now rewrite N'.
  - destruct m as [|data sid|data]; cbn [onmessage];
      try solve [apply rejecting; auto using incl_refl].
    unfold handleStockfishMessage.
    destruct (handleInfo_same data l) as (S0 & P0 & T0 & N0).
    set (l0 := handleInfo data l) in *.
    assert (O0 : forall c, outcome c l0 = outcome c l)
      by (intros c; unfold outcome; now rewrite S0).
    unfold handleBestMove.
    destruct (startsWith "bestmove" data).
    2:{ apply rejecting; rewrite ?P0, ?T0, ?N0; auto using incl_refl. }
    set (l1 := match bestMoveMatch data, currentEvaluation l0 with
               | Some mv, Some ev => setCurrent (Some (mkResult (score ev) (Some mv))) l0
               | _, _ => l0
               end).
    assert (E1 : settled l1 = settled l /\
                 pendingEvaluations l1 = pendingEvaluations l /\
                 timers l1 = timers l /\ promises l1 = promises l).
    { unfold l1. destruct (bestMoveMatch data), (currentEvaluation l0); auto. }
    destruct E1 as (S1 & P1 & T1 & N1).
    assert (O1 : forall c, outcome c l1 = outcome c l)
      by (intros c; unfold outcome; now rewrite S1).
    destruct (pendingEvaluations l1) as [|[k cl] rest] eqn:Q; cbn [JsMap.values map].
    { apply rejecting; rewrite ?T1, ?N1, ?Q; auto using incl_refl.
      intros x []. }
    destruct (currentEvaluation l1) as [ev|].
    2:{ apply rejecting; rewrite ?T1, ?N1, ?Q, ?P1; auto using incl_refl. }
    split; [|split; [|split]].
    + intros c. unfold legacyMoves.
      change (outcome c (setCurrent None (setPending [] ?x))) with (outcome c x).
      rewrite legacy_wrapped_outcome, O1. cbn [snd].
      destruct (Nat.eqb_spec c (cl_promise cl)) as [->|]; [|now left].
      destruct (outcome (cl_promise cl) l) eqn:O; [now left|right].
      split; auto. right. exists ev, k, cl, rest.
      split; [reflexivity|]. split; [reflexivity|]. split; [now symmetry|reflexivity].
    + intros x [].
    + intros t Ht. left. cbn in Ht. rewrite legacy_wrapped_timers, T1 in Ht.
      apply filter_In in Ht. tauto.
    + cbn. rewrite legacy_wrapped_promises. lia.
  - unfold timerFires. destruct (timerOf c0 l) as [t|];
      [|apply rejecting; auto using incl_refl].
    destruct (t_deadline t <=? clock l)%N;
      [|apply rejecting; auto using incl_refl].
    apply rejecting.
    + intros c. rewrite legacy_wrapped_outcome.
      change (outcome c (setPending ?m l)) with (outcome c l).
      destruct (c =? cl_promise (t_callback t)); [|now left].
      destruct (outcome c l) eqn:O; [now left|right]. split; eauto.
    + rewrite legacy_wrapped_pending. intros x Hx.
      apply In_delete in Hx as [Hx _]. cbn in Hx.
      apply In_delete in Hx. tauto.
    + rewrite legacy_wrapped_timers. intros x Hx.
      apply filter_In in Hx. cbn in Hx. tauto.
    + now rewrite legacy_wrapped_promises.
  - apply rejecting; auto using incl_refl.
Qed.

Lemma Batch_step a b d l e : Batch a b d l -> Batch a b d (step l e).
Proof.
  intros [B1 B2 B3 B4].
  destruct (step_moves l e) as (M & P & T & N).
  assert (Old : forall j r,
            outcome j (step l e) = Some (Resolved r) ->
            outcome j l = Some (Resolved r) \/
            (pendingEvaluations (step l e) = [] /\
             exists k cl rest, pendingEvaluations l = (k, cl) :: rest /\
                               cl_promise cl = j)).
  { intros j r H.
    destruct (M j) as [E|[E [[err E']|(r' & k & cl & rest & E1 & E2 & E3 & E4)]]].
    - left. congruence.
    - congruence.
    - right. split; auto. now exists k, cl, rest. }
  assert (Entry : forall j k cl rest r, a <= j < b ->
            pendingEvaluations l = (k, cl) :: rest -> a <= cl_promise cl < b ->
            outcome j l <> Some (Resolved r)).
  { intros j k cl rest r Hj Q Hc. apply (B3 (k, cl)); auto.
    rewrite Q. now left. }
  split.
  - lia.
  - intros j j' r r' Hj Hj' H H'.
    destruct (Old j r H) as [O|[_ (k & cl & rest & Q & Pc)]],
             (Old j' r' H') as [O'|[_ (k' & cl' & rest' & Q' & Pc')]].
    + eapply B2; eauto.
    + exfalso. apply (Entry j k' cl' rest' r Hj Q'); [lia|exact O].
    + exfalso. apply (Entry j' k cl rest r' Hj' Q); [lia|exact O'].
    + rewrite Q in Q'. congruence.
  - intros x j r Hx Hp Hj H.
    destruct (P x Hx) as [Hx'|Hx']; [|lia].
    destruct (Old j r H) as [O|[Q _]].
    + now apply (B3 x j r Hx').
    + rewrite Q in Hx. destruct Hx.
  - intros t Ht Hc. destruct (T t Ht) as [Ht'|[Ht' _]]; [auto|lia].
Qed.

Lemma Batch_run a b d events : forall l,
  Batch a b d l -> Batch a b d (run l events).
Proof.
  induction events as [|e evs IH]; intros l B; simpl; auto.
  apply IH. now apply Batch_step.
Qed.

(** Calls that follow each other settle nothing. *)
Lemma rapid_calls reqs : forall l a,
  worker l = true -> isReady l = true ->
  (forall t, In t (timers l) -> a <= legacyCall t ->
             t_deadline t = (clock l + timeoutMs)%N) ->
  let l1 := run l (legacyCalls reqs) in
  settled l1 = settled l /\ promises l1 = promises l + List.length reqs /\
  (forall t, In t (timers l1) -> a <= legacyCall t ->
             t_deadline t = (clock l + timeoutMs)%N).
Proof.
  induction reqs as [|[fen depth] reqs IH]; intros l a Hw Hr Ht; simpl.
  - repeat split; auto.
  - rewrite getEvaluation_accepted; auto.
    match goal with |- context [run ?x _] => set (l' := x) end.
    destruct (IH l' a) as (S1 & P1 & T1); auto.
    + intros t Hin Ha. unfold l' in Hin. cbn in Hin.
      apply in_app_iff in Hin as [Hin|[<-|[]]]; auto.
    + split; [exact S1|]. split; [rewrite P1; unfold l'; cbn; lia|exact T1].
Qed.

Lemma outcome_kept_step l e c o :
  outcome c l = Some o -> outcome c (step l e) = Some o.
Proof.
  intros H. destruct (step_moves l e) as (M & _).
  destruct (M c) as [E|[E _]]; congruence.
Qed.

Lemma legacy_promises_run l events : promises l <= promises (run l events).
Proof.
  revert l. induction events as [|e evs IH]; intros l; simpl; auto.
  destruct (step_moves l e) as (_ & _ & _ & N).
  etransitivity; [exact N|apply IH].
Qed.

End LegacyCalls.

(** A call of that engine whose promise is not settled has its timer
    armed, and the timer rejects it when it fires after its deadline. *)
Lemma legacy_timer_of_unsettled l c :
  Legacy.reachable l -> c < Legacy.promises l -> Legacy.outcome c l = None ->
  exists t, Legacy.timerOf c l = Some t /\ In t (Legacy.timers l) /\
    ((Legacy.t_deadline t <= Legacy.clock l)%N ->
     Legacy.outcome c (Legacy.step l (Legacy.TimerFires c)) =
     Some (Rejected EvaluationTimeout)).
Proof.
  intros R Hc Ho. pose proof (LegacyTimers.Armed_reachable l R) as A.
  destruct (armed_complete l A c Hc Ho) as (t0 & Ht0 & Hp0).
  destruct (Legacy.timerOf c l) as [t|] eqn:F.
  - exists t. split; [reflexivity|]. split.
    { now apply find_some in F as [F _]. }
    intros Hd.
    cbn [Legacy.step]. unfold Legacy.timerFires. rewrite F.
    apply N.leb_le in Hd. rewrite Hd.
    apply find_some in F as [_ Hp]. apply Nat.eqb_eq in Hp.
    rewrite LegacyTimers.legacy_wrapped_outcome, Hp, Nat.eqb_refl.
    change (Legacy.outcome c (Legacy.setPending ?m l)) with (Legacy.outcome c l).
    now rewrite Ho.
  - exfalso. unfold Legacy.timerOf in F.
    apply (find_none _ _ F) in Ht0. unfold legacyCall in Hp0.
    rewrite Hp0, Nat.eqb_refl in Ht0. discriminate.
Qed.

(** * The claims *)

(** ** C1 *)

(** C1 (code bug): a result is delivered to a request other than the one
    whose search produced it.  Two calls follow each other before the
    output of the first search has reached the engine; the first call is
    rejected as superseded, and the score line and the completion line of
    its search (both tagged with search id 1, the only search the worker
    has started, for the first position) resolve the second call, whose
    request the worker has not even received yet. *)
Theorem C1_result_of_superseded_search :
  let sys := System.run booted
    [System.Api (GetEvaluation fenStart 15); System.WorkerReceives;
     System.StockfishSays "info depth 1 seldepth 1 multipv 1 score cp 50 nodes 20 pv a2a3";
     System.StockfishSays "bestmove a2a3";
     System.Api (GetEvaluation fenE4 15);
     System.MainReceives; System.MainReceives] in
  outcome 0 (System.main sys) = Some (Rejected CancelledByNewRequest) /\
  outcome 1 (System.main sys) = Some (Resolved (mkResult 50 (Some "a2a3"))) /\
  option_map StockfishWorker.searches (System.wk sys) =
    Some [(1, ("fen " ++ fenStart)%string)] /\
  outbox (System.main sys) = [Evaluate ("fen " ++ fenE4)%string 15].
Proof. vm_compute. repeat split. Qed.

(** ** C2 *)

(** C2 (counterexample): two calls are issued before either resolves, and
    both resolve with a real result.  The first call is mapped to its
    search by a score line before the second call is made, so the second
    call does not reject it. *)
Lemma C2_two_calls_both_resolve :
  let before := System.run booted
    [System.Api (GetEvaluation fenStart 15); System.WorkerReceives;
     System.StockfishSays "info depth 1 seldepth 1 multipv 1 score cp 50 nodes 20 pv a2a3";
     System.MainReceives;
     System.StockfishSays "bestmove a2a3";
     System.Api (GetEvaluation fenE4 15)] in
  let after := System.run before
    [System.MainReceives; System.WorkerReceives;
     System.StockfishSays "info depth 1 seldepth 1 multipv 1 score cp -20 nodes 20 pv e7e5";
     System.StockfishSays "bestmove e7e5";
     System.MainReceives; System.MainReceives] in
  outcome 0 (System.main before) = None /\
  outcome 1 (System.main before) = None /\
  outcome 0 (System.main after) = Some (Resolved (mkResult 50 (Some "a2a3"))) /\
  outcome 1 (System.main after) = Some (Resolved (mkResult (-20) (Some "e7e5"))).
Proof. vm_compute. repeat split. Qed.

(** C2 (amended): calls follow each other at one time on a ready engine,
    with no worker message handled in between.

    In the engine with the search ids every call but the last is rejected
    as superseded by the call after it and stays so, and the last is
    pending; hence only the last can ever resolve with a result.

    In the engine of [src/lib/chessEngine.ts] no call is superseded: all
    of them are pending after the calls, and at most one of them is ever
    resolved.

    In both engines no call is left pending for ever: whatever happens
    later, a call that is still pending has its timer armed, the timer
    runs for 30000 ms from the time of the calls, and it rejects the call
    with 'Evaluation timeout' when it fires after that. *)
Theorem C2_rapid_calls (s : State) (l : Legacy.State)
    (reqs : list (string * nat)) (later : list Event)
    (laterL : list Legacy.Event) (i : nat) :
  reachable s -> worker s = true -> isReady s = true ->
  Legacy.reachable l -> Legacy.worker l = true -> Legacy.isReady l = true ->
  i < List.length reqs ->
  let c := promises s + i in
  let s1 := run s (calls reqs) in
  let s2 := run s1 later in
  let cL := Legacy.promises l + i in
  let l1 := Legacy.run l (legacyCalls reqs) in
  let l2 := Legacy.run l1 laterL in
  ((S i < List.length reqs ->
      outcome c s1 = Some (Rejected CancelledByNewRequest) /\
      outcome c s2 = Some (Rejected CancelledByNewRequest)) /\
   (S i = List.length reqs -> outcome c s1 = None) /\
   (forall r, outcome c s2 = Some (Resolved r) -> S i = List.length reqs) /\
   (outcome c s2 = None ->
      exists t, timerOf c s2 = Some t /\
        t_deadline t = (clock s + 30000)%N /\
        ((t_deadline t <= clock s2)%N ->
         outcome c (step s2 (TimerFires c)) = Some (Rejected EvaluationTimeout)))) /\
  (Legacy.outcome cL l1 = None /\
   (forall r j r', Legacy.outcome cL l2 = Some (Resolved r) ->
      j < List.length reqs ->
      Legacy.outcome (Legacy.promises l + j) l2 = Some (Resolved r') -> j = i) /\
   (Legacy.outcome cL l2 = None ->
      exists t, Legacy.timerOf cL l2 = Some t /\
        Legacy.t_deadline t = (Legacy.clock l + 30000)%N /\
        ((Legacy.t_deadline t <= Legacy.clock l2)%N ->
         Legacy.outcome cL (Legacy.step l2 (Legacy.TimerFires cL)) =
         Some (Rejected EvaluationTimeout)))).
Proof.
  intros R Hw Hr RL HwL HrL Hi c s1 s2 cL l1 l2. split.
  - pose proof (WF_reachable s R) as W.
    assert (Sup : S i < List.length reqs ->
                  outcome c s1 = Some (Rejected CancelledByNewRequest) /\
                  outcome c s2 = Some (Rejected CancelledByNewRequest)).
    { intros H. pose proof (rapid_superseded reqs s i W Hw Hr H) as E.
      split; auto. now apply outcome_stable. }
    split; [exact Sup|].
    split; [intros H; now apply rapid_last|]. split.
    + intros r E. destruct (Nat.eq_dec (S i) (List.length reqs)) as [|Hne]; auto.
      destruct Sup as [_ E']; [lia|]. congruence.
    + intros E.
      assert (Hl : S i = List.length reqs).
      { destruct (Nat.eq_dec (S i) (List.length reqs)) as [|Hne]; auto.
        destruct Sup as [_ E']; [lia|]. congruence. }
      assert (W1 : WF s1) by (unfold s1; now apply WF_run).
      assert (W2 : WF s2) by (unfold s2; now apply WF_run).
      destruct (rapid_ready reqs s W Hw Hr) as (_ & _ & P).
      destruct (rapid_timer reqs s i W Hw Hr Hl) as (t & Ht & Hd).
      assert (Hc : c < promises s1) by (unfold s1, c; lia).
      pose proof (timer_kept later s1 c t W1 Hc Ht E) as Ht2.
      exists t. split; [exact Ht2|]. split; [exact Hd|]. intros Hd2.
      apply (timerFires_spec s2 c t W2 Ht2 Hd2).
  - pose proof (LegacyFacts.Known_reachable l RL) as K.
    destruct (LegacyCalls.rapid_calls reqs l (Legacy.promises l) HwL HrL)
      as (S1 & P1 & T1).
    { intros t Ht Hc. apply (known_timers l K) in Ht.
      unfold legacyCall in Hc. lia. }
    fold l1 in S1, P1, T1.
    assert (Fresh : forall j, Legacy.promises l <= j -> Legacy.outcome j l1 = None).
    { intros j Hj. unfold Legacy.outcome. rewrite S1.
      destruct (Engine.lookup j (Legacy.settled l)) eqn:E; auto.
      apply (known_settled l K) in E. lia. }
    assert (R1 : Legacy.reachable l1)
      by (unfold l1; now apply LegacyFacts.legacy_reachable_run).
    assert (R2 : Legacy.reachable l2)
      by (unfold l2; now apply LegacyFacts.legacy_reachable_run).
    assert (B : Batch (Legacy.promises l) (Legacy.promises l + List.length reqs)
                      (Legacy.clock l + 30000)%N l1).
    { split.
      - lia.
      - intros j j' r r' Hj _ H _. rewrite Fresh in H; [discriminate|lia].
      - intros x j r _ _ Hj H. rewrite Fresh in H; [discriminate|lia].
      - intros t Ht Hc. apply T1; [exact Ht|lia]. }
    apply (LegacyCalls.Batch_run _ _ _ laterL) in B. fold l2 in B.
    split; [apply Fresh; unfold cL; lia|]. split.
    + intros r j r' H Hj H'. symmetry.
      assert (E : Legacy.promises l + i = Legacy.promises l + j); [|lia].
      apply (batch_one _ _ _ _ B _ _ r r'); auto; lia.
    + intros E.
      assert (Hc : cL < Legacy.promises l2).
      { pose proof (batch_made _ _ _ _ B). unfold cL. lia. }
      destruct (legacy_timer_of_unsettled l2 cL R2 Hc E) as (t & Ht & Hin & Hfire).
      exists t. split; [exact Ht|]. split; [|exact Hfire].
      apply (batch_timers _ _ _ _ B t Hin).
      apply find_some in Ht as [_ Hp]. apply Nat.eqb_eq in Hp.
      unfold legacyCall, cL in *. lia.
Qed.

Lemma C2_rapid_calls_witness :
  reachable ready /\ worker ready = true /\ isReady ready = true /\
  Legacy.reachable legacyReady /\ Legacy.worker legacyReady = true /\
  Legacy.isReady legacyReady = true /\
  0 < List.length threeCalls /\
  outcome 0 (run ready (calls threeCalls)) = Some (Rejected CancelledByNewRequest) /\
  Legacy.outcome 0 (Legacy.run legacyReady (legacyCalls threeCalls)) = None.
Proof.
  split; [exact ready_reachable|]. split; [reflexivity|]. split; [reflexivity|].
  split; [exact legacyReady_reachable|]. split; [reflexivity|].
  split; [reflexivity|]. split; [simpl; lia|].
  destruct (C2_rapid_calls ready legacyReady threeCalls [Elapse 5]
              [Legacy.Elapse 5] 0 ready_reachable eq_refl eq_refl
              legacyReady_reachable eq_refl eq_refl ltac:(simpl; lia))
    as [[H _] [HL _]].
  split; [|exact HL]. apply H. simpl. lia.
Defined.

(** ** C3 *)

(** C3 (counterexample): the engine has handled an output line of the
    first call's own search (search id 1), yet the next call rejects the
    first one as superseded: a line that reports no score maps nothing. *)
Lemma C3_observed_search_superseded :
  let sys := System.run booted
    [System.Api (GetEvaluation fenStart 15); System.WorkerReceives;
     System.StockfishSays "info depth 1 currmove e2e4 currmovenumber 1";
     System.MainReceives;
     System.Api (GetEvaluation fenE4 15)] in
  option_map StockfishWorker.toMain (System.wk sys) = Some [] /\
  outcome 0 (System.main sys) = Some (Rejected CancelledByNewRequest).
Proof. vm_compute. repeat split. Qed.

(** C3 (amended): a call on a ready engine rejects as superseded exactly
    the pending evaluations that no search id is mapped to; a pending
    evaluation that a search id is mapped to stays pending through the
    call and is never rejected as superseded later either.  (A search id
    is mapped by a score line or a completion line, not by any line.) *)
Theorem C3_superseded_iff_unmapped (s : State) (fen : string) (depth : nat)
    (k : nat) (p : Pending) (events : list Event) :
  reachable s -> worker s = true -> isReady s = true ->
  In (k, p) (pendingEvaluations s) ->
  let c := cl_promise (resolvers p) in
  (isMapped k s = false ->
     outcome c (step s (GetEvaluation fen depth)) =
     Some (Rejected CancelledByNewRequest)) /\
  (isMapped k s = true ->
     outcome c (step s (GetEvaluation fen depth)) = None /\
     outcome c (run s events) <> Some (Rejected CancelledByNewRequest)).
Proof.
  intros R Hw Hr Hin c. pose proof (WF_reachable s R) as W.
  destruct (pending_closure s k p W Hin) as [Hc Hk]. split.
  - intros M. apply (getEvaluation_supersedes fen depth s W Hw Hr _ Hc).
    now rewrite Hk.
  - intros M. split.
    + apply (wf_unsettled _ (WF_getEvaluation fen depth s W)).
      apply getEvaluation_closures; auto. left. split; auto. now rewrite Hk.
    + apply mapped_never_superseded; auto.
      unfold mapped. rewrite Hk. now apply isMapped_true.
Qed.

Lemma C3_superseded_iff_unmapped_witness :
  reachable oneUnmapped /\ worker oneUnmapped = true /\ isReady oneUnmapped = true /\
  In (1, mkPending (mkResolvers 1 0) None) (pendingEvaluations oneUnmapped) /\
  isMapped 1 oneUnmapped = false /\
  outcome 0 (step oneUnmapped (GetEvaluation fenE4 15)) =
  Some (Rejected CancelledByNewRequest).
Proof.
  assert (R : reachable oneUnmapped) by apply reachable_run, ready_reachable.
  split; [exact R|]. split; [reflexivity|]. split; [reflexivity|].
  split; [now left|]. split; [reflexivity|].
  apply (C3_superseded_iff_unmapped oneUnmapped fenE4 15 1
           (mkPending (mkResolvers 1 0) None) [] R eq_refl eq_refl
           (or_introl eq_refl)).
  reflexivity.
Defined.

(** ** C4 *)

(** The part of C4 that holds: on a ready engine [stopEvaluation()] rejects
    every pending evaluation with the stopped error and clears the pending
    evaluations, the mappings and the timers. *)
Lemma stopEvaluation_rejects_all (s : State) (k : nat) (p : Pending) :
  reachable s -> In (k, p) (pendingEvaluations s) ->
  let s' := step s StopEvaluation in
  outcome (cl_promise (resolvers p)) s' = Some (Rejected EvaluationStopped) /\
  pendingEvaluations s' = [] /\ searchIdToEvalId s' = [] /\ timers s' = [].
Proof.
  intros R Hin s'. pose proof (WF_reachable s R) as W.
  destruct (wf_ready s W) as [Hw Hr]; [now destruct (pendingEvaluations s)|].
  destruct (stopEvaluation_spec s W Hw Hr)
    as (_ & P & M & O & _ & _ & _ & _ & _ & T & _).
  destruct (pending_closure s k p W Hin) as [Hc _].
  unfold s'. simpl. auto.
Qed.

(** C4 (code bug): output of a search from before [stopEvaluation()]
    resolves a request made after it.  The score line and the completion
    line of the first search (search id 1) are still under way when the
    engine is stopped and asked again; the first call is rejected as
    stopped, and the two lines resolve the second call, although the
    worker has received neither the stop nor the second request. *)
Theorem C4_output_from_before_stop_resolves :
  let stopped := System.run booted
    [System.Api (GetEvaluation fenStart 15); System.WorkerReceives;
     System.StockfishSays "info depth 1 seldepth 1 multipv 1 score cp 50 nodes 20 pv a2a3";
     System.StockfishSays "bestmove a2a3";
     System.Api StopEvaluation] in
  let sys := System.run stopped
    [System.Api (GetEvaluation fenE4 15);
     System.MainReceives; System.MainReceives] in
  outcome 0 (System.main stopped) = Some (Rejected EvaluationStopped) /\
  searchIdToEvalId (System.main stopped) = [] /\
  option_map StockfishWorker.currentSearchId (System.wk stopped) = Some 1 /\
  outcome 1 (System.main sys) = Some (Resolved (mkResult 50 (Some "a2a3"))) /\
  outbox (System.main sys) = [Stop; Evaluate ("fen " ++ fenE4)%string 15].
Proof. vm_compute. repeat split. Qed.

(** ** C5 *)

(** C5: a call on a ready engine arms a timer 30000 ms after the time of
    the call.  As long as the call is pending the timer cannot fire before
    that time; when it fires, the call is rejected with the timeout error,
    its pending entry and the mapping to its evaluation id are gone, and
    nothing that happens later resolves it. *)
Theorem C5_timeout (s : State) (fen : string) (depth : nat)
    (events later : list Event) :
  reachable s -> worker s = true -> isReady s = true ->
  let c := promises s in
  let evalId := S (evaluationId s) in
  let s1 := run (step s (GetEvaluation fen depth)) events in
  outcome c s1 = None ->
  ((clock s1 < clock s + 30000)%N -> step s1 (TimerFires c) = s1) /\
  ((clock s + 30000 <= clock s1)%N ->
     let s2 := step s1 (TimerFires c) in
     outcome c s2 = Some (Rejected EvaluationTimeout) /\
     ~ In evalId (JsMap.keys (pendingEvaluations s2)) /\
     ~ In evalId (JsMap.values (searchIdToEvalId s2)) /\
     outcome c (run s2 later) = Some (Rejected EvaluationTimeout)).
Proof.
  intros R Hw Hr c evalId s1.
  change (step s (GetEvaluation fen depth)) with (getEvaluation fen depth s) in s1.
  intros E. pose proof (WF_reachable s R) as W.
  pose proof (WF_getEvaluation fen depth s W) as W0.
  destruct (getEvaluation_new fen depth s W Hw Hr) as (_ & _ & _ & T0).
  destruct (getEvaluation_frame fen depth s W Hw Hr) as (_ & _ & P0 & _).
  assert (T1 : timerOf c s1 =
               Some (mkTimer (mkResolvers evalId c) (clock s + timeoutMs)%N)).
  { apply timer_kept; auto. unfold c. rewrite P0. lia. }
  assert (W1 : WF s1) by now apply WF_run.
  split.
  - intros Hlt. simpl. unfold timerFires. rewrite T1. simpl.
    apply N.leb_gt in Hlt. unfold timeoutMs. now rewrite Hlt.
  - intros Hle s2.
    destruct (timerFires_spec s1 c _ W1 T1 Hle) as (O & K & M).
    repeat split; auto. now apply outcome_stable.
Qed.

Lemma C5_timeout_witness :
  reachable ready /\ worker ready = true /\ isReady ready = true /\
  outcome 0 (run (step ready (GetEvaluation fenStart 15)) waited) = None /\
  outcome 0 (run (step (run (step ready (GetEvaluation fenStart 15)) waited)
                       (TimerFires 0))
                 [OnMessage (Message "bestmove a2a3" (Some 1))]) =
  Some (Rejected EvaluationTimeout).
Proof.
  split; [exact ready_reachable|]. split; [reflexivity|]. split; [reflexivity|].
  split; [reflexivity|].
  destruct (C5_timeout ready fenStart 15 waited
              [OnMessage (Message "bestmove a2a3" (Some 1))]
              ready_reachable eq_refl eq_refl eq_refl) as [_ H].
  apply H. vm_compute. discriminate.
Defined.

(** ** C6 *)



(** ** C7 *)

(** C7: a line [info ... score mate <d> ...] (no score reported earlier in
    the line) followed by [bestmove f7f8q ...] resolves the only pending
    call with the score 10000 when the mate distance [d] is positive and
    with -10000 otherwise, whatever its magnitude; in both engines. *)
Theorem C7_mate_sentinel (s : State) (l : Legacy.State) (fen : string)
    (sid : nat) (a d b tail : string) :
  reachable s -> worker s = true -> isReady s = true ->
  pendingEvaluations s = [] ->
  Legacy.reachable l -> Legacy.worker l = true -> Legacy.isReady l = true ->
  Legacy.pendingEvaluations l = [] ->
  scoreMatch ("info" ++ a) = None -> isNumber d = true -> endsNumber b = true ->
  let info := ("info" ++ a ++ "score mate " ++ d ++ b)%string in
  let best := ("bestmove f7f8q" ++ tail)%string in
  let sentinel := if (0 <? parseInt d)%Z then 10000%Z else (-10000)%Z in
  outcome (promises s)
    (run s [GetEvaluation fen 15;
            OnMessage (Message info (Some sid));
            OnMessage (Message best (Some sid))]) =
  Some (Resolved (mkResult sentinel (Some "f7f8q"))) /\
  Legacy.outcome (Legacy.promises l)
    (Legacy.run l [Legacy.GetEvaluation fen 15;
                   Legacy.OnMessage (Message info (Some sid));
                   Legacy.OnMessage (Message best (Some sid))]) =
  Some (Resolved (mkResult sentinel (Some "f7f8q"))).
Proof.
  intros R Hw Hr P RL HwL HrL PL Ha Hd Hb info best sentinel.
  assert (I1 : startsWith "info" info = true) by apply startsWith_app.
  assert (I2 : scoreMatch info = Some (mate, d)).
  { unfold info.
    change ("info" ++ a ++ "score mate " ++ d ++ b)%string
      with (("info" ++ a) ++ "score mate " ++ d ++ b)%string.
    now apply scoreMatch_mate. }
  assert (B1 : startsWith "bestmove" best = true)
    by apply (startsWith_app "bestmove" (" f7f8q" ++ tail)).
  split.
  - change (run s [GetEvaluation fen 15; OnMessage (Message info (Some sid));
                   OnMessage (Message best (Some sid))])
      with (run (step s (GetEvaluation fen 15))
                [OnMessage (Message info (Some sid));
                 OnMessage (Message best (Some sid))]).
    rewrite (engine_reports _ sid _ info best (mate, d)); auto.
    now apply idle_call.
  - change (Legacy.run l [Legacy.GetEvaluation fen 15;
                          Legacy.OnMessage (Message info (Some sid));
                          Legacy.OnMessage (Message best (Some sid))])
      with (Legacy.run (Legacy.step l (Legacy.GetEvaluation fen 15))
                       [Legacy.OnMessage (Message info (Some sid));
                        Legacy.OnMessage (Message best (Some sid))]).
    rewrite (legacy_reports _ (Some sid) (Some sid) _ info best (mate, d)); auto.
    now apply legacy_idle_call.
Qed.

Lemma C7_mate_sentinel_witness :
  isNumber "3" = true /\ isNumber "-2" = true /\
  outcome 0
    (run ready
       [GetEvaluation fenStart 15;
        OnMessage (Message "info depth 5 seldepth 6 multipv 1 score mate 3 nodes 90 pv f7f8q"
                           (Some 1));
        OnMessage (Message "bestmove f7f8q" (Some 1))]) =
  Some (Resolved (mkResult 10000 (Some "f7f8q"))) /\
  outcome 0
    (run ready
       [GetEvaluation fenStart 15;
        OnMessage (Message "info depth 5 seldepth 6 multipv 1 score mate -2 nodes 90 pv f7f8q"
                           (Some 1));
        OnMessage (Message "bestmove f7f8q" (Some 1))]) =
  Some (Resolved (mkResult (-10000) (Some "f7f8q"))).
Proof.
  split; [reflexivity|]. split; [reflexivity|]. split.
  - apply (C7_mate_sentinel ready legacyReady fenStart 1
             " depth 5 seldepth 6 multipv 1 " "3" " nodes 90 pv f7f8q" ""
             ready_reachable eq_refl eq_refl eq_refl
             legacyReady_reachable eq_refl eq_refl eq_refl
             eq_refl eq_refl eq_refl).
  - apply (C7_mate_sentinel ready legacyReady fenStart 1
             " depth 5 seldepth 6 multipv 1 " "-2" " nodes 90 pv f7f8q" ""
             ready_reachable eq_refl eq_refl eq_refl
             legacyReady_reachable eq_refl eq_refl eq_refl
             eq_refl eq_refl eq_refl).
Defined.

(** ** C8 *)

(** C8 (counterexample): Stockfish answers a position without legal moves
    with [bestmove (none)]; with no score line before it the call is
    rejected, not resolved. *)
Lemma C8_completion_without_move_rejects :
  let sys := System.run booted
    [System.Api (GetEvaluation "7k/5Q2/6K1/8/8/8/8/8 b - - 0 1" 15);
     System.WorkerReceives;
     System.StockfishSays "bestmove (none)";
     System.MainReceives] in
  outcome 0 (System.main sys) = Some (Rejected EvaluationIncomplete).
Proof. vm_compute. reflexivity. Qed.

(** C8 (amended): when a completion line is attributed to a pending
    evaluation that has no partial result yet, the call is resolved with
    score 0 and the move of the line if the line carries a move, and is
    rejected with 'Evaluation incomplete' if it carries none.  The engine
    of [src/lib/chessEngine.ts] does nothing with a completion line while
    it holds no evaluation: the call stays pending. *)
Theorem C8_completion_without_score (s : State) (l : Legacy.State)
    (sid k : nat) (p : Pending) (message : string) :
  reachable s ->
  startsWith "bestmove" message = true ->
  fst (correlate sid s) = Some k ->
  JsMap.get k (pendingEvaluations s) = Some p ->
  evaluation p = None ->
  Legacy.currentEvaluation l = None ->
  let c := cl_promise (resolvers p) in
  let s' := step s (OnMessage (Message message (Some sid))) in
  (forall mv, bestMoveMatch message = Some mv ->
              outcome c s' = Some (Resolved (mkResult 0 (Some mv)))) /\
  (bestMoveMatch message = None ->
   outcome c s' = Some (Rejected EvaluationIncomplete)) /\
  Legacy.step l (Legacy.OnMessage (Message message (Some sid))) = l.
Proof.
  intros R B C G E EL c s'. pose proof (WF_reachable s R) as W.
  assert (O : outcome c s' = Some (completion message p)).
  { unfold s'. simpl. unfold handleStockfishMessage.
    assert (I : handleInfo message (Some sid) s = s).
    { unfold handleInfo. now rewrite (bestmove_not_info _ B). }
    rewrite I.
    destruct (handleBestMove_attributed message sid s k p W B C G) as (-> & _ & Hc).
    destruct (correlate_spec sid s W) as (W1 & Q1 & _).
    change (outcome c (setMapping _ ?x)) with (outcome c x).
    apply wrapped_settles; auto.
    destruct Q1 as (_ & _ & _ & _ & ->). exact Hc. }
  split; [|split].
  - intros mv M. rewrite O. unfold completion. now rewrite M, E.
  - intros M. rewrite O. unfold completion. now rewrite M, E.
  - simpl. unfold Legacy.handleStockfishMessage, Legacy.handleInfo.
    rewrite (bestmove_not_info _ B). simpl.
    unfold Legacy.handleBestMove. rewrite B, EL.
    destruct (bestMoveMatch message);
      destruct (JsMap.values (Legacy.pendingEvaluations l)); rewrite ?EL;
      reflexivity.
Qed.

Lemma C8_completion_without_score_witness :
  reachable oneUnmapped /\
  fst (correlate 1 oneUnmapped) = Some 1 /\
  outcome 0 (step oneUnmapped (OnMessage (Message "bestmove e2e4 ponder e7e5" (Some 1)))) =
  Some (Resolved (mkResult 0 (Some "e2e4"))).
Proof.
  assert (R : reachable oneUnmapped) by apply reachable_run, ready_reachable.
  split; [exact R|]. split; [reflexivity|].
  destruct (C8_completion_without_score oneUnmapped legacyReady 1 1
              (mkPending (mkResolvers 1 0) None) "bestmove e2e4 ponder e7e5"
              R eq_refl eq_refl eq_refl eq_refl eq_refl) as [H _].
  apply H. reflexivity.
Defined.

(** ** C9 *)



(** ** C10 *)



